(** * Sensitive-data detection (src/office/sensitivePatterns.ts)

    A shallow embedding of the detection engine of the redaction add-in:
    the regular expressions of the module, the backtracking matcher that
    gives them their meaning, the [Map]-based deduplication loops, the
    Luhn and IBAN validators and the entry point [findSensitiveMatches].

    Strings are sequences of UTF-16 code units, as in the source language;
    a code unit is an integer ([Z]) so that [charCodeAt(i) - 48] and the
    comparisons of the validators are written as in the source. *)

From Stdlib Require Import String Ascii ZArith Arith Bool Lia List Sorted Permutation.
Import ListNotations.

Set Implicit Arguments.

(* ===================================================================== *)
(** ** Strings as code-unit sequences *)
(* ===================================================================== *)

Definition jsstring := list Z.

(** Literal of the development: an ASCII [string] read as code units. *)
Definition js (s : string) : jsstring :=
  List.map (fun a => Z.of_N (N_of_ascii a)) (list_ascii_of_string s).

Definition jsstring_eqb (a b : jsstring) : bool :=
  if list_eq_dec Z.eq_dec a b then true else false.

Lemma jsstring_eqb_eq (a b : jsstring) : jsstring_eqb a b = true <-> a = b.
Proof.
  unfold jsstring_eqb. destruct (list_eq_dec Z.eq_dec a b); split; congruence.
Qed.

Lemma jsstring_eqb_refl (a : jsstring) : jsstring_eqb a a = true.
Proof. now apply jsstring_eqb_eq. Qed.

Lemma jsstring_eqb_neq (a b : jsstring) : jsstring_eqb a b = false <-> a <> b.
Proof.
  unfold jsstring_eqb. destruct (list_eq_dec Z.eq_dec a b); split; congruence.
Qed.

Module Char.

Local Open Scope Z_scope.

Definition between (lo hi c : Z) : bool := (lo <=? c) && (c <=? hi).

(** [\d] *)
Definition is_digit (c : Z) : bool := between 48 57 c.

Definition is_upper (c : Z) : bool := between 65 90 c.
Definition is_lower (c : Z) : bool := between 97 122 c.

(** The word characters of [\b] (no [u] flag): [A-Za-z0-9_]. *)
Definition is_word (c : Z) : bool :=
  is_upper c || is_lower c || is_digit c || (c =? 95).

(** WhiteSpace and LineTerminator code units: the set of [\s] and of
    [String.prototype.trim]. *)
Definition is_space (c : Z) : bool :=
  between 9 13 c || (c =? 32) || (c =? 160) || (c =? 5760)
  || between 8192 8202 c || (c =? 8232) || (c =? 8233) || (c =? 8239)
  || (c =? 8287) || (c =? 12288) || (c =? 65279).

Definition ascii_upper (c : Z) : Z := if is_lower c then c - 32 else c.
Definition ascii_lower (c : Z) : Z := if is_upper c then c + 32 else c.

(** [toLowerCase] on one code unit.  Exact on ASCII and Latin-1, and on
    the two code units outside ASCII whose lower case is ASCII (U+0130
    gives [i] followed by U+0307, U+212A gives [k]); other code units are
    left as they are.  No code unit has a white-space lower case and no
    white space has a case mapping, so the classes a pattern of this
    module can tell apart (ASCII, white space, the rest) are the ones of
    the full Unicode mapping. *)
Definition lower_units (c : Z) : list Z :=
  if is_upper c then [c + 32]
  else if between 192 222 c && negb (c =? 215) then [c + 32]
  else if c =? 304 then [105; 775]
  else if c =? 8490 then [107]
  else if c =? 8491 then [229]
  else [c].

(** [toUpperCase] on one code unit: exact on ASCII and Latin-1.  The
    module applies it to IBAN candidates only, whose code units are ASCII
    letters, digits and spaces (lemma [iban_candidate_ascii]). *)
Definition upper_units (c : Z) : list Z :=
  if is_lower c then [c - 32]
  else if c =? 181 then [924]
  else if c =? 223 then [83; 83]
  else if (between 224 254 c && negb (c =? 247)) then [c - 32]
  else if c =? 255 then [376]
  else if c =? 305 then [73]
  else if c =? 383 then [83]
  else [c].

End Char.

Definition toLowerCase (s : jsstring) : jsstring := flat_map Char.lower_units s.
Definition toUpperCase (s : jsstring) : jsstring := flat_map Char.upper_units s.

(** [String.prototype.trim]: drop white space at both ends. *)
Fixpoint trimStart (s : jsstring) : jsstring :=
  match s with
  | c :: tl => if Char.is_space c then trimStart tl else s
  | [] => []
  end.

Definition trimEnd (s : jsstring) : jsstring := rev (trimStart (rev s)).

Definition trim (s : jsstring) : jsstring := trimEnd (trimStart s).

(** [s.replace(/[^\d]/g, empty)]: the digits of [s]. *)
Definition digitsOnly (s : jsstring) : jsstring := filter Char.is_digit s.

(** [s.replace(/\s+/g, empty)]: [s] without its white space. *)
Definition stripSpaces (s : jsstring) : jsstring :=
  filter (fun c => negb (Char.is_space c)) s.

(** [Number(s)] for a string of decimal digits (the only use in the module
    is guarded by [/^\d{4}$/]). *)
Definition Number (s : jsstring) : Z :=
  fold_left (fun acc c => (acc * 10 + (c - 48))%Z) s 0%Z.

(* ===================================================================== *)
(** ** Regular expressions *)
(* ===================================================================== *)

Module Regex.

(** Members of a character class. *)
Inductive atom : Type :=
| Lit (c : Z)            (* a single code unit *)
| Range (lo hi : Z)      (* lo-hi *)
| Digit                  (* \d *)
| Space.                 (* \s *)

Record cclass : Type := { negated : bool; atoms : list atom }.

Definition cls (l : list atom) : cclass := {| negated := false; atoms := l |}.
Definition ncls (l : list atom) : cclass := {| negated := true; atoms := l |}.

(** The syntax the patterns of the module use.  A pattern has at most
    one capture group, never under a quantifier; look-arounds are
    negative and one character class wide. *)
Inductive regex : Type :=
| Eps
| Chr (c : cclass)
| Seq (r1 r2 : regex)
| Alt (r1 r2 : regex)
| Rep (lo : nat) (hi : option nat) (greedy : bool) (r : regex)
| Cap (r : regex)              (* ( r ), group 1 *)
| WordB                        (* \b *)
| NotAhead (c : cclass)        (* (?!c) *)
| NotBehind (c : cclass)       (* (?<!c) *)
| Bos                          (* ^ without the m flag *)
| Eos.                         (* $ without the m flag *)

Record RegExp : Type := { pattern : regex; ignoreCase : bool }.

(** *** Character matching *)

(** Canonicalize of a pattern without the [u] flag.  With [ignoreCase]
    a code unit is compared through its upper case, and a code unit
    outside ASCII is never identified with an ASCII one; the classes of
    this module contain ASCII code units and [\s] only, so the ASCII part
    of the mapping decides every comparison. *)
Definition canonicalize (ic : bool) (c : Z) : Z :=
  if ic then Char.ascii_upper c else c.

Definition atom_mem (ic : bool) (a : atom) (ch : Z) : bool :=
  match a with
  | Lit c => (canonicalize ic c =? canonicalize ic ch)%Z
  | Range lo hi =>
      Char.between lo hi ch
      || (ic && (Char.between lo hi (Char.ascii_upper ch)
                 || Char.between lo hi (Char.ascii_lower ch)))
  | Digit => Char.is_digit ch
  | Space => Char.is_space ch
  end.

Definition cmem (ic : bool) (c : cclass) (ch : Z) : bool :=
  xorb (negated c) (existsb (fun a => atom_mem ic a ch) (atoms c)).

(** *** Matcher state *)

(** The part of the input a matcher can observe at a position: the code
    unit before it, the code units after it, and group 1. *)
Record state : Type := {
  prev : option Z;
  rest : jsstring;
  cap : option jsstring
}.

Definition cont := state -> option state.

Definition is_word_opt (o : option Z) : bool :=
  match o with Some c => Char.is_word c | None => false end.

Definition at_word_boundary (x : state) : bool :=
  xorb (is_word_opt (prev x)) (is_word_opt (hd_error (rest x))).

(** The code units between two states of one scan. *)
Definition consumed (x y : state) : jsstring :=
  firstn (length (rest x) - length (rest y)) (rest x).

Definition pred_opt (hi : option nat) : option nat := option_map pred hi.

(** [max = 0] *)
Definition hi_zero (hi : option nat) : bool :=
  match hi with Some O => true | _ => false end.

(** RepeatMatcher of the language definition: [body] is the matcher of
    the quantified atom, [d] the continuation that starts the next
    iteration and refuses an iteration that consumed nothing once the
    minimum is reached.  [fuel] bounds the number of iterations. *)
Fixpoint repeatMatcher (body : cont -> state -> option state)
    (greedy : bool) (fuel lo : nat) (hi : option nat)
    (k : cont) (x : state) : option state :=
  if hi_zero hi then k x
  else
    match fuel with
    | O => None
    | S fuel' =>
      let d : cont := fun y =>
        if (lo =? 0)%nat && (length (rest y) =? length (rest x))%nat then None
        else repeatMatcher body greedy fuel' (pred lo) (pred_opt hi) k y in
      match lo with
      | S _ => body d x
      | O =>
        if greedy then
          match body d x with
          | Some z => Some z
          | None => k x
          end
        else
          match k x with
          | Some z => Some z
          | None => body d x
          end
      end
    end.

(** The backtracking matcher in continuation-passing style. *)
Fixpoint m (ic : bool) (r : regex) (k : cont) (x : state) : option state :=
  match r with
  | Eps => k x
  | Chr c =>
      match rest x with
      | ch :: tl =>
          if cmem ic c ch
          then k {| prev := Some ch; rest := tl; cap := cap x |}
          else None
      | [] => None
      end
  | Seq r1 r2 => m ic r1 (m ic r2 k) x
  | Alt r1 r2 =>
      match m ic r1 k x with
      | Some z => Some z
      | None => m ic r2 k x
      end
  | Rep lo hi greedy r1 =>
      repeatMatcher (m ic r1) greedy (lo + length (rest x) + 1) lo hi k x
  | Cap r1 =>
      m ic r1 (fun y => k {| prev := prev y; rest := rest y;
                             cap := Some (consumed x y) |}) x
  | WordB => if at_word_boundary x then k x else None
  | NotAhead c =>
      match rest x with
      | ch :: _ => if cmem ic c ch then None else k x
      | [] => k x
      end
  | NotBehind c =>
      match prev x with
      | Some ch => if cmem ic c ch then None else k x
      | None => k x
      end
  | Bos => match prev x with None => k x | Some _ => None end
  | Eos => match rest x with [] => k x | _ :: _ => None end
  end.

(** One attempt at a given position. *)
Definition matchAt (re : RegExp) (p : option Z) (s : jsstring) : option state :=
  m (ignoreCase re) (pattern re) (fun y => Some y)
    {| prev := p; rest := s; cap := None |}.

(** *** Pattern syntax helpers *)

Definition seq (l : list regex) : regex := fold_right Seq Eps l.

Definition alt (r : regex) (l : list regex) : regex := fold_left Alt l r.

Definition ch (c : string) : regex :=
  seq (List.map (fun a => Chr (cls [Lit a])) (js c)).

Definition code (c : string) : Z := hd 0%Z (js c).
Definition rng (a b : string) : atom := Range (code a) (code b).
Definition lit (a : string) : atom := Lit (code a).

Definition star (r : regex) : regex := Rep 0 None true r.
Definition plus (r : regex) : regex := Rep 1 None true r.
Definition opt (r : regex) : regex := Rep 0 (Some 1) true r.
Definition times (n : nat) (r : regex) : regex := Rep n (Some n) true r.
Definition range (a b : nat) (r : regex) : regex := Rep a (Some b) true r.
Definition atleast (a : nat) (r : regex) : regex := Rep a None true r.

Definition digit : regex := Chr (cls [Digit]).
Definition space : regex := Chr (cls [Space]).

End Regex.

Import Regex.

(* ===================================================================== *)
(** ** [RegExp.prototype.exec] and the scanning loop *)
(* ===================================================================== *)

(** What the module reads of a match: [m.index], [m[0]] and [m[1]]. *)
Record MatchResult : Type := {
  index : Z;
  m0 : jsstring;
  m1 : option jsstring
}.

(** The scan position of a pattern object: [lastIndex], together with the
    code unit before it and the text after it. *)
Record cursor : Type := {
  lastIndex : Z;
  before : option Z;
  after : jsstring
}.

(** [re.lastIndex = 0] on [text]. *)
Definition start (text : jsstring) : cursor :=
  {| lastIndex := 0; before := None; after := text |}.

(** [exec]: try the start positions [i], [i+1], ... up to the end of the
    text; on success [lastIndex] moves to the end of the match. *)
Fixpoint execFrom (re : RegExp) (i : Z) (p : option Z) (s : jsstring)
  : option (MatchResult * cursor) :=
  match matchAt re p s with
  | Some y =>
      let v := consumed {| prev := p; rest := s; cap := None |} y in
      Some ({| index := i; m0 := v; m1 := cap y |},
            {| lastIndex := i + Z.of_nat (length v);
               before := prev y; after := rest y |})
  | None =>
      match s with
      | [] => None
      | c :: tl => execFrom re (i + 1) (Some c) tl
      end
  end.

Definition exec (re : RegExp) (c : cursor) : option (MatchResult * cursor) :=
  execFrom re (lastIndex c) (before c) (after c).

(** [re.test(s)] for a pattern without the [g] flag. *)
Definition test (re : RegExp) (s : jsstring) : bool :=
  match exec re (start s) with Some _ => true | None => false end.

(** [while ((m = re.exec(text)) !== null) body]: the loop state [st] is
    threaded through [body]; every pattern of the module consumes at least
    one code unit per match, so [lastIndex] grows and the loop runs at most
    [length text] times before [exec] answers [null]. *)
Fixpoint whileExec (St : Type) (re : RegExp) (body : MatchResult -> St -> St)
    (fuel : nat) (c : cursor) (st : St) : St :=
  match fuel with
  | O => st
  | S fuel' =>
      match exec re c with
      | None => st
      | Some (r, c') => whileExec re body fuel' c' (body r st)
      end
  end.

Definition scanLoop (St : Type) (re : RegExp) (text : jsstring)
    (body : MatchResult -> St -> St) (st : St) : St :=
  whileExec re body (S (length text)) (start text) st.

(** The successive results of [exec] on [text]. *)
Fixpoint execSeq (re : RegExp) (fuel : nat) (c : cursor) : list MatchResult :=
  match fuel with
  | O => []
  | S fuel' =>
      match exec re c with
      | None => []
      | Some (r, c') => r :: execSeq re fuel' c'
      end
  end.

Definition execAll (re : RegExp) (text : jsstring) : list MatchResult :=
  execSeq re (S (length text)) (start text).

(** [text.slice(a, b)] for [0 <= a]. *)
Definition slice (s : jsstring) (a b : Z) : jsstring :=
  firstn (Z.to_nat (b - a)) (skipn (Z.to_nat a) s).

Definition len (s : jsstring) : Z := Z.of_nat (length s).

(* ===================================================================== *)
(** ** [Map<string, string>]: insertion-ordered *)
(* ===================================================================== *)

Module JsMap.

Definition t := list (jsstring * jsstring).

Definition empty : t := [].

Definition has (mp : t) (k : jsstring) : bool :=
  existsb (fun e => jsstring_eqb (fst e) k) mp.

(** [set] keeps the position of a key that is present and appends a new
    key at the end. *)
Fixpoint set (mp : t) (k v : jsstring) : t :=
  match mp with
  | [] => [(k, v)]
  | (k', v') :: tl =>
      if jsstring_eqb k' k then (k', v) :: tl else (k', v') :: set tl k v
  end.

Definition keys (mp : t) : list jsstring := List.map fst mp.

(** [[...mp.values()]] *)
Definition values (mp : t) : list jsstring := List.map snd mp.

End JsMap.

(* ===================================================================== *)
(** ** The patterns of the module *)
(* ===================================================================== *)

Definition AZ : atom := rng "A" "Z".
Definition d09 : atom := rng "0" "9".

(** Source: "/\b[A-Z0-9._%+-]+@[A-Z0-9.-]+\.[A-Z]{2,}\b/gi" *)
Definition EMAIL_RE : RegExp :=
  {| pattern := seq
       [ WordB;
         plus (Chr (cls [AZ; d09; lit "."; lit "_"; lit "%"; lit "+"; lit "-"]));
         ch "@";
         plus (Chr (cls [AZ; d09; lit "."; lit "-"]));
         ch ".";
         atleast 2 (Chr (cls [AZ]));
         WordB ];
     ignoreCase := true |}.

(** Source: "/\b\d{3}-\d{2}-\d{4}\b/g" *)
Definition SSN_RE : RegExp :=
  {| pattern := seq [ WordB; times 3 digit; ch "-"; times 2 digit; ch "-"; times 4 digit; WordB ];
     ignoreCase := false |}.

(** Source: "/\b(?:social security number|ssn)\b[^0-9]{0,80}(\d{4})\b/gi" *)
Definition SSN_LAST4_CONTEXT_RE : RegExp :=
  {| pattern := seq
       [ WordB;
         Alt (ch "social security number") (ch "ssn");
         WordB;
         range 0 80 (Chr (ncls [d09]));
         Cap (times 4 digit);
         WordB ];
     ignoreCase := true |}.

(** Source fragment: "[-.\s]" *)
Definition phone_sep : regex := Chr (cls [lit "-"; lit "."; Space]).

(** Source, in two pieces: "/(?<!\d)(?:\+?\d{1,3}[-.\s]*" followed by
    ")?(?:\(\s*\d{3}\s*\)|\d{3})[-.\s]*\d{3}[-.\s]*\d{4}(?!\d)/g" *)
Definition PHONE_RE : RegExp :=
  {| pattern := seq
       [ NotBehind (cls [Digit]);
         opt (seq [ opt (ch "+"); range 1 3 digit; star phone_sep ]);
         Alt (seq [ ch "("; star space; times 3 digit; star space; ch ")" ]) (times 3 digit);
         star phone_sep;
         times 3 digit;
         star phone_sep;
         times 4 digit;
         NotAhead (cls [Digit]) ];
     ignoreCase := false |}.

(** Source: "/(?<!\d)(?:\d[ -]*?){13,19}(?!\d)/g" *)
Definition CARD_CANDIDATE_RE : RegExp :=
  {| pattern := seq
       [ NotBehind (cls [Digit]);
         range 13 19 (seq [ digit; Rep 0 None false (Chr (cls [lit " "; lit "-"])) ]);
         NotAhead (cls [Digit]) ];
     ignoreCase := false |}.

(** Source: "/(?<![A-Z0-9])[A-Z]{2}\d{2}(?:[ ]?[A-Z0-9]){11,30}(?![A-Z0-9])/gi" *)
Definition IBAN_CANDIDATE_RE : RegExp :=
  {| pattern := seq
       [ NotBehind (cls [AZ; d09]);
         times 2 (Chr (cls [AZ]));
         times 2 digit;
         range 11 30 (seq [ opt (Chr (cls [lit " "])); Chr (cls [AZ; d09]) ]);
         NotAhead (cls [AZ; d09]) ];
     ignoreCase := true |}.

(** Source fragment: "[:\-]?" *)
Definition colon_dash : regex := opt (Chr (cls [lit ":"; lit "-"])).

(** Source: "/\brouting(?:\s*number)?\s*[:\-]?\s*(\d{9})\b/gi" *)
Definition ROUTING_RE : RegExp :=
  {| pattern := seq
       [ WordB; ch "routing";
         opt (seq [ star space; ch "number" ]);
         star space; colon_dash; star space;
         Cap (times 9 digit);
         WordB ];
     ignoreCase := true |}.

(** Source: "/\b(?:account|acct)(?:\s*(?:number|no\.?|#))?\s*[:\-]?\s*(\d{6,17})\b/gi" *)
Definition ACCOUNT_RE : RegExp :=
  {| pattern := seq
       [ WordB;
         Alt (ch "account") (ch "acct");
         opt (seq [ star space;
                    alt (ch "number") [ seq [ ch "no"; opt (ch ".") ]; ch "#" ] ]);
         star space; colon_dash; star space;
         Cap (range 6 17 digit);
         WordB ];
     ignoreCase := true |}.

(** Source fragment: "[- ]?" *)
Definition dash_space : regex := opt (Chr (cls [lit "-"; lit " "])).

(** Source: "/\bsort\s*code\s*[:\-]?\s*(\d{2}[- ]?\d{2}[- ]?\d{2})\b/gi" *)
Definition SORT_CODE_RE : RegExp :=
  {| pattern := seq
       [ WordB; ch "sort"; star space; ch "code";
         star space; colon_dash; star space;
         Cap (seq [ times 2 digit; dash_space; times 2 digit; dash_space; times 2 digit ]);
         WordB ];
     ignoreCase := true |}.

(** Source fragment: "[-\s]*" *)
Definition id_sep : regex := star (Chr (cls [lit "-"; Space])).

(** Source: "/\bINS[-\s]*\d{6,14}\b/gi" *)
Definition INS_POLICY_RE : RegExp :=
  {| pattern := seq [ WordB; ch "INS"; id_sep; range 6 14 digit; WordB ];
     ignoreCase := true |}.

(** Source: "/\bEMP[-\s]*\d{2,4}(?:[-\s]*\d{2,6})+\b/gi" *)
Definition EMPLOYEE_ID_RE : RegExp :=
  {| pattern := seq
       [ WordB; ch "EMP"; id_sep; range 2 4 digit;
         plus (seq [ id_sep; range 2 6 digit ]);
         WordB ];
     ignoreCase := true |}.

(** Source: "/\bMRN[-\s]*\d{4,14}\b/gi" *)
Definition MRN_RE : RegExp :=
  {| pattern := seq [ WordB; ch "MRN"; id_sep; range 4 14 digit; WordB ];
     ignoreCase := true |}.

(** Source: "/^\d{4}$/" *)
Definition FOUR_DIGITS_RE : RegExp :=
  {| pattern := seq [ Bos; times 4 digit; Eos ]; ignoreCase := false |}.

(** Source: "/^\d{9}$/" *)
Definition NINE_DIGITS_RE : RegExp :=
  {| pattern := seq [ Bos; times 9 digit; Eos ]; ignoreCase := false |}.

(** Source: "/^\d{6,17}$/" *)
Definition ACCOUNT_DIGITS_RE : RegExp :=
  {| pattern := seq [ Bos; range 6 17 digit; Eos ]; ignoreCase := false |}.

(** Source: "/^[A-Z]{2}\d{2}[A-Z0-9]{11,30}$/" *)
Definition IBAN_SHAPE_RE : RegExp :=
  {| pattern := seq
       [ Bos; times 2 (Chr (cls [AZ])); times 2 digit;
         range 11 30 (Chr (cls [AZ; d09])); Eos ];
     ignoreCase := false |}.

(** Source: "/\b(?:credit\s*card|debit\s*card|card\s*number|visa|mastercard|amex|american\s*express)\b/" *)
Definition CARD_KEYWORD_RE : RegExp :=
  {| pattern := seq
       [ WordB;
         alt (seq [ ch "credit"; star space; ch "card" ])
           [ seq [ ch "debit"; star space; ch "card" ];
             seq [ ch "card"; star space; ch "number" ];
             ch "visa"; ch "mastercard"; ch "amex";
             seq [ ch "american"; star space; ch "express" ] ];
         WordB ];
     ignoreCase := false |}.

(* ===================================================================== *)
(** ** The detection functions *)
(* ===================================================================== *)

Inductive SensitiveType : Type :=
| email | phone | ssn | card | bank
| insurancePolicy | employeeId | medicalRecordNumber.

Record SensitiveMatch : Type := { type : SensitiveType; value : jsstring }.

(** [x ?? empty]: the empty string for an undefined group. *)
Definition orEmpty (o : option jsstring) : jsstring :=
  match o with Some v => v | None => [] end.

(** [!raw] on a string. *)
Definition isEmpty (s : jsstring) : bool :=
  match s with [] => true | _ :: _ => false end.

(** Body of the loop of [matchAllUnique]. *)
Definition matchAllUnique_body (m : MatchResult) (unique : JsMap.t) : JsMap.t :=
  let raw := trim (m0 m) in
  if isEmpty raw then unique
  else
    let key := toLowerCase raw in
    if negb (JsMap.has unique key) then JsMap.set unique key raw else unique.

(** The map [unique] of [matchAllUnique] when its loop ends. *)
Definition matchAllUnique_map (text : jsstring) (re : RegExp) : JsMap.t :=
  scanLoop re text matchAllUnique_body JsMap.empty.

Definition matchAllUnique (text : jsstring) (re : RegExp) : list jsstring :=
  JsMap.values (matchAllUnique_map text re).

Definition findSsnLast4_body (m : MatchResult) (unique : JsMap.t) : JsMap.t :=
  let last4 := trim (orEmpty (m1 m)) in
  if negb (test FOUR_DIGITS_RE last4) then unique
  else
    let asNum := Number last4 in
    if (asNum >=? 1900)%Z && (asNum <=? 2099)%Z then unique
    else if negb (JsMap.has unique last4) then JsMap.set unique last4 last4
    else unique.

Definition findSsnLast4_map (text : jsstring) : JsMap.t :=
  scanLoop SSN_LAST4_CONTEXT_RE text findSsnLast4_body JsMap.empty.

Definition findSsnLast4 (text : jsstring) : list jsstring :=
  JsMap.values (findSsnLast4_map text).

(** The loop of [luhnCheck], from the last code unit to the first; [None]
    is the early [return false] on a code unit that is not a digit. *)
Fixpoint luhnLoop (right_to_left : jsstring) (sum : Z) (shouldDouble : bool)
  : option Z :=
  match right_to_left with
  | [] => Some sum
  | c :: tl =>
      let d := (c - 48)%Z in
      if (d <? 0)%Z || (d >? 9)%Z then None
      else
        let d := if shouldDouble
                 then (let d2 := (d * 2)%Z in if (d2 >? 9)%Z then (d2 - 9)%Z else d2)
                 else d in
        luhnLoop tl (sum + d)%Z (negb shouldDouble)
  end.

Definition luhnCheck (digits : jsstring) : bool :=
  match luhnLoop (rev digits) 0%Z false with
  | None => false
  | Some sum => (sum mod 10 =? 0)%Z
  end.

(** The window of [findCreditCards] around a candidate found at [idx]. *)
Definition cardContext (text : jsstring) (idx : Z) (raw : jsstring) : jsstring :=
  toLowerCase
    (slice text (Z.max 0 (idx - 50)) (Z.min (len text) (idx + len raw + 50))).

Definition findCreditCards_body (text : jsstring) (m : MatchResult)
    (unique : JsMap.t) : JsMap.t :=
  let raw := trim (m0 m) in
  let digits := digitsOnly raw in
  if (len digits <? 13)%Z || (len digits >? 19)%Z then unique
  else
    let luhnOk := luhnCheck digits in
    let idx := index m in
    let ctx := if (idx >=? 0)%Z then cardContext text idx raw else [] in
    let keywordOk := test CARD_KEYWORD_RE ctx in
    if negb luhnOk && negb keywordOk then unique
    else if negb (JsMap.has unique digits) then JsMap.set unique digits raw
    else unique.

Definition findCreditCards_map (text : jsstring) : JsMap.t :=
  scanLoop CARD_CANDIDATE_RE text (findCreditCards_body text) JsMap.empty.

Definition findCreditCards (text : jsstring) : list jsstring :=
  JsMap.values (findCreditCards_map text).

(** The loop of [isValidIban] over the rearranged string ([md] is the
    source's [mod]); [None] is the [return false] of its last branch. *)
Fixpoint ibanLoop (rearranged : jsstring) (md : Z) : option Z :=
  match rearranged with
  | [] => Some md
  | ch :: tl =>
      if (ch >=? 48)%Z && (ch <=? 57)%Z then
        ibanLoop tl ((md * 10 + (ch - 48)) mod 97)%Z
      else if (ch >=? 65)%Z && (ch <=? 90)%Z then
        let val := (ch - 55)%Z in
        let md := ((md * 10 + val / 10) mod 97)%Z in
        ibanLoop tl ((md * 10 + val mod 10) mod 97)%Z
      else None
  end.

Definition isValidIban (iban : jsstring) : bool :=
  if negb (test IBAN_SHAPE_RE iban) then false
  else
    let rearranged := skipn 4 iban ++ firstn 4 iban in
    match ibanLoop rearranged 0%Z with
    | None => false
    | Some md => (md =? 1)%Z
    end.

Definition iban_body (m : MatchResult) (unique : JsMap.t) : JsMap.t :=
  let raw := trim (m0 m) in
  let normalized := toUpperCase (stripSpaces raw) in
  if negb (isValidIban normalized) then unique
  else if negb (JsMap.has unique normalized) then JsMap.set unique normalized raw
  else unique.

Definition routing_body (m : MatchResult) (unique : JsMap.t) : JsMap.t :=
  let raw := trim (orEmpty (m1 m)) in
  if negb (test NINE_DIGITS_RE raw) then unique
  else
    let key := js "routing:" ++ raw in
    if negb (JsMap.has unique key) then JsMap.set unique key raw else unique.

Definition account_body (m : MatchResult) (unique : JsMap.t) : JsMap.t :=
  let raw := trim (orEmpty (m1 m)) in
  if negb (test ACCOUNT_DIGITS_RE raw) then unique
  else
    let key := js "account:" ++ raw in
    if negb (JsMap.has unique key) then JsMap.set unique key raw else unique.

Definition sort_body (m : MatchResult) (unique : JsMap.t) : JsMap.t :=
  let raw := trim (orEmpty (m1 m)) in
  let digits := digitsOnly raw in
  if negb (len digits =? 6)%Z then unique
  else
    let key := js "sort:" ++ digits in
    if negb (JsMap.has unique key) then JsMap.set unique key raw else unique.

(** The map of [findBankAccounts] after its four loops. *)
Definition bankMap (text : jsstring) : JsMap.t :=
  let unique := JsMap.empty in
  let unique := scanLoop IBAN_CANDIDATE_RE text iban_body unique in
  let unique := scanLoop ROUTING_RE text routing_body unique in
  let unique := scanLoop ACCOUNT_RE text account_body unique in
  let unique := scanLoop SORT_CODE_RE text sort_body unique in
  unique.

Definition findBankAccounts (text : jsstring) : list jsstring :=
  JsMap.values (bankMap text).

(** [for (const value of values) out.push({ type, value })] *)
Definition pushAll (t : SensitiveType) (values : list jsstring)
    (out : list SensitiveMatch) : list SensitiveMatch :=
  fold_left (fun out value => out ++ [{| type := t; value := value |}]) values out.

Definition findSensitiveMatches (text : jsstring) : list SensitiveMatch :=
  let out := [] in
  let out := pushAll email (matchAllUnique text EMAIL_RE) out in
  let out := pushAll ssn (matchAllUnique text SSN_RE) out in
  let out := pushAll ssn (findSsnLast4 text) out in
  let out := pushAll phone (matchAllUnique text PHONE_RE) out in
  let out := pushAll card (findCreditCards text) out in
  let out := pushAll bank (findBankAccounts text) out in
  let out := pushAll insurancePolicy (matchAllUnique text INS_POLICY_RE) out in
  let out := pushAll employeeId (matchAllUnique text EMPLOYEE_ID_RE) out in
  let out := pushAll medicalRecordNumber (matchAllUnique text MRN_RE) out in
  out.

(* ===================================================================== *)
(** ** Deduplication: what the [Map] loops compute *)
(* ===================================================================== *)

(** Every loop body of the module either skips its match ([continue]) or
    computes a key and a surface form and stores the pair when the key is
    new.  [insertNew] is that last step. *)
Definition insertNew (e : option (jsstring * jsstring)) (unique : JsMap.t)
  : JsMap.t :=
  match e with
  | None => unique
  | Some (k, v) =>
      if negb (JsMap.has unique k) then JsMap.set unique k v else unique
  end.

Definition memb (k : jsstring) (seen : list jsstring) : bool :=
  existsb (fun k' => jsstring_eqb k' k) seen.

(** First occurrences: the pairs of [l] whose key occurs neither in [seen]
    nor earlier in [l], in the order of [l]. *)
Fixpoint firstByKey (seen : list jsstring) (l : list (jsstring * jsstring))
  : list (jsstring * jsstring) :=
  match l with
  | [] => []
  | (k, v) :: tl =>
      if memb k seen then firstByKey seen tl
      else (k, v) :: firstByKey (seen ++ [k]) tl
  end.

(** The pairs a loop offers to its map, in scan order. *)
Definition offered (entry : MatchResult -> option (jsstring * jsstring))
    (rs : list MatchResult) : list (jsstring * jsstring) :=
  flat_map (fun r => match entry r with Some e => [e] | None => [] end) rs.

Section MapLoops.

Lemma memb_In k seen : memb k seen = true <-> In k seen.
Proof.
  unfold memb. rewrite existsb_exists. split.
  - intros (k' & Hin & Heq). apply jsstring_eqb_eq in Heq. now subst.
  - intros Hin. exists k. split; [assumption | apply jsstring_eqb_refl].
Qed.

Lemma memb_false k seen : memb k seen = false <-> ~ In k seen.
Proof.
  rewrite <- memb_In. destruct (memb k seen); split; congruence.
Qed.

Lemma has_keys (u : JsMap.t) k : JsMap.has u k = memb k (JsMap.keys u).
Proof.
  unfold JsMap.has, memb, JsMap.keys.
  induction u as [|e u IH]; simpl; [reflexivity | now rewrite IH].
Qed.

Lemma set_fresh (u : JsMap.t) k v :
  JsMap.has u k = false -> JsMap.set u k v = u ++ [(k, v)].
Proof.
  induction u as [|[k' v'] u IH]; simpl; intros H; [reflexivity|].
  apply orb_false_iff in H as [H1 H2]. rewrite H1. now rewrite IH.
Qed.

Lemma keys_app (u w : JsMap.t) :
  JsMap.keys (u ++ w) = JsMap.keys u ++ JsMap.keys w.
Proof. apply map_app. Qed.

Variable St : Type.

Lemma whileExec_fold re (body : MatchResult -> St -> St) fuel c st :
  whileExec re body fuel c st
  = fold_left (fun st r => body r st) (execSeq re fuel c) st.
Proof.
  revert c st. induction fuel as [|fuel IH]; intros c st; simpl; [reflexivity|].
  destruct (exec re c) as [[r c']|]; simpl; [apply IH | reflexivity].
Qed.

Lemma scanLoop_fold re text (body : MatchResult -> St -> St) st :
  scanLoop re text body st
  = fold_left (fun st r => body r st) (execAll re text) st.
Proof. apply whileExec_fold. Qed.

End MapLoops.

Section InsertLoops.

Variable entry : MatchResult -> option (jsstring * jsstring).

Lemma fold_insertNew (rs : list MatchResult) (u : JsMap.t) :
  fold_left (fun st r => insertNew (entry r) st) rs u
  = u ++ firstByKey (JsMap.keys u) (offered entry rs).
Proof.
  revert u. induction rs as [|r rs IH]; intros u; simpl.
  - now rewrite app_nil_r.
  - rewrite IH. unfold insertNew.
    destruct (entry r) as [[k v]|]; simpl; [|reflexivity].
    rewrite has_keys. destruct (memb k (JsMap.keys u)) eqn:Hm; simpl.
    + reflexivity.
    + rewrite set_fresh by (now rewrite has_keys).
      rewrite keys_app. simpl. now rewrite <- app_assoc.
Qed.

(** A loop whose body is an [insertNew] step. *)
Lemma scanLoop_insertNew re text (body : MatchResult -> JsMap.t -> JsMap.t) u :
  (forall r st, body r st = insertNew (entry r) st) ->
  scanLoop re text body u
  = u ++ firstByKey (JsMap.keys u) (offered entry (execAll re text)).
Proof.
  intros Hbody. rewrite scanLoop_fold. rewrite <- fold_insertNew.
  generalize (execAll re text) as rs. intros rs. revert u.
  induction rs as [|r rs IH]; intros u; simpl; [reflexivity|].
  now rewrite Hbody, IH.
Qed.

End InsertLoops.

Lemma firstByKey_In seen l e :
  In e (firstByKey seen l) -> In e l /\ ~ In (fst e) seen.
Proof.
  revert seen. induction l as [|[k v] l IH]; intros seen; simpl; [tauto|].
  destruct (memb k seen) eqn:Hm.
  - intros H. apply IH in H. tauto.
  - intros [H|H].
    + subst e. simpl. split; [now left|]. now apply memb_false.
    + apply IH in H. destruct H as [H1 H2]. split; [now right|].
      intros Hin. apply H2. apply in_or_app. now left.
Qed.

Lemma firstByKey_NoDup seen l : NoDup (JsMap.keys (firstByKey seen l)).
Proof.
  revert seen. induction l as [|[k v] l IH]; intros seen; simpl.
  - constructor.
  - destruct (memb k seen); [apply IH|]. simpl. constructor; [|apply IH].
    unfold JsMap.keys. rewrite in_map_iff. intros ([k' v'] & Hk & Hin).
    simpl in Hk. subst k'. apply firstByKey_In in Hin. destruct Hin as [_ Hn].
    apply Hn. simpl. apply in_or_app. right. now left.
Qed.

(** Every offered key is kept, by its first occurrence or by [seen]. *)
Lemma firstByKey_covers seen l k v :
  In (k, v) l -> In k seen \/ In k (JsMap.keys (firstByKey seen l)).
Proof.
  revert seen. induction l as [|[k' v'] l IH]; intros seen; simpl; [tauto|].
  intros [H|H].
  - inversion H; subst. destruct (memb k seen) eqn:Hm.
    + left. now apply memb_In.
    + right. now left.
  - destruct (memb k' seen) eqn:Hm.
    + now apply IH.
    + destruct (IH (seen ++ [k']) H) as [Hs|Hs].
      * apply in_app_or in Hs. destruct Hs as [Hs|[Hs|[]]]; [now left|].
        subst. right. now left.
      * right. now right.
Qed.

Lemma offered_In entry rs e :
  In e (offered entry rs) <-> exists r, In r rs /\ entry r = Some e.
Proof.
  unfold offered. rewrite in_flat_map. split.
  - intros (r & Hr & He). exists r. split; [assumption|].
    destruct (entry r); simpl in He; [|tauto]. destruct He as [->|[]]. reflexivity.
  - intros (r & Hr & He). exists r. split; [assumption|]. rewrite He. now left.
Qed.

(* ===================================================================== *)
(** ** What a match is: a declarative reading of the matcher *)
(* ===================================================================== *)

Module RegexFacts.

(** Iterations of a quantified atom: between [lo] and [hi] of them, and
    past the minimum an iteration has to consume something. *)
Inductive RepM (R : state -> state -> Prop)
  : nat -> option nat -> state -> state -> Prop :=
| RepM_stop lo hi x :
    hi = Some 0 \/ lo = 0 -> RepM R lo hi x x
| RepM_step lo hi x y z :
    hi <> Some 0 ->
    R x y ->
    (lo = 0 -> length (rest y) <> length (rest x)) ->
    RepM R (pred lo) (pred_opt hi) y z ->
    RepM R lo hi x z.

(** [Matches ic r x y]: [r] can take the matcher from [x] to [y]. *)
Fixpoint Matches (ic : bool) (r : regex) (x y : state) : Prop :=
  match r with
  | Eps => y = x
  | Chr c =>
      exists ch tl, rest x = ch :: tl /\ cmem ic c ch = true
                    /\ y = {| prev := Some ch; rest := tl; cap := cap x |}
  | Seq r1 r2 => exists w, Matches ic r1 x w /\ Matches ic r2 w y
  | Alt r1 r2 => Matches ic r1 x y \/ Matches ic r2 x y
  | Rep lo hi _ r1 => RepM (Matches ic r1) lo hi x y
  | Cap r1 =>
      exists w, Matches ic r1 x w
                /\ y = {| prev := prev w; rest := rest w;
                          cap := Some (consumed x w) |}
  | WordB => at_word_boundary x = true /\ y = x
  | NotAhead c =>
      match rest x with ch :: _ => cmem ic c ch = false | [] => True end
      /\ y = x
  | NotBehind c =>
      match prev x with Some ch => cmem ic c ch = false | None => True end
      /\ y = x
  | Bos => prev x = None /\ y = x
  | Eos => rest x = [] /\ y = x
  end.

Lemma hi_zero_true hi : hi_zero hi = true -> hi = Some 0.
Proof. destruct hi as [[|h]|]; simpl; congruence. Qed.

Lemma hi_zero_false hi : hi_zero hi = false -> hi <> Some 0.
Proof. destruct hi as [[|h]|]; simpl; congruence. Qed.

Section Sound.

Variable ic : bool.

Lemma repeatMatcher_sound body (R : state -> state -> Prop) g :
  (forall k x z, body k x = Some z -> exists y, R x y /\ k y = Some z) ->
  forall fuel lo hi k x z,
    repeatMatcher body g fuel lo hi k x = Some z ->
    exists y, RepM R lo hi x y /\ k y = Some z.
Proof.
  intros Hbody. induction fuel as [|fuel IH]; intros lo hi k x z H;
    simpl in H; destruct (hi_zero hi) eqn:Hz;
    try (exists x; split; [constructor; left; now apply hi_zero_true
                          | assumption]).
  - discriminate.
  - apply hi_zero_false in Hz.
    set (d := fun y : state =>
           if (lo =? 0)%nat && (length (rest y) =? length (rest x))%nat
           then None
           else repeatMatcher body g fuel (pred lo) (pred_opt hi) k y) in H.
    assert (Hd : forall y, R x y -> d y = Some z ->
                           exists y', RepM R lo hi x y' /\ k y' = Some z).
    { intros y HR Hy. unfold d in Hy.
      destruct ((lo =? 0)%nat && (length (rest y) =? length (rest x))%nat)
        eqn:Hc; [discriminate|].
      apply IH in Hy. destruct Hy as (y' & Hrep & Hk).
      exists y'. split; [|assumption].
      eapply RepM_step; eauto.
      intros ->. simpl in Hc. now apply Nat.eqb_neq in Hc. }
    assert (Hstop : k x = Some z -> lo = 0 ->
                    exists y', RepM R lo hi x y' /\ k y' = Some z).
    { intros Hk Hlo. exists x. split; [constructor; now right | assumption]. }
    destruct lo as [|lo].
    + destruct g.
      * destruct (body d x) as [z0|] eqn:Hb.
        -- inversion H; subst z0. apply Hbody in Hb.
           destruct Hb as (y & HR & Hy). eauto.
        -- now apply Hstop.
      * destruct (k x) as [z0|] eqn:Hk.
        -- inversion H; subst z0. now apply Hstop.
        -- apply Hbody in H. destruct H as (y & HR & Hy). eauto.
    + apply Hbody in H. destruct H as (y & HR & Hy). eauto.
Qed.

(** Soundness: a result of the matcher is reached through a match of
    the pattern followed by the continuation. *)
Theorem m_sound r :
  forall k x z, m ic r k x = Some z ->
                exists y, Matches ic r x y /\ k y = Some z.
Proof.
  induction r as [|c|r1 IH1 r2 IH2|r1 IH1 r2 IH2|lo hi g r1 IH1|r1 IH1
                  | |c|c| |]; intros k x z H; simpl in H.
  - exists x. split; [reflexivity | assumption].
  - destruct (rest x) as [|a tl] eqn:Hr; [discriminate|].
    destruct (cmem ic c a) eqn:Hc; [|discriminate].
    eexists. split; [|exact H]. simpl. exists a, tl. now rewrite Hr.
  - apply IH1 in H. destruct H as (w & H1 & H).
    apply IH2 in H. destruct H as (y & H2 & H).
    exists y. split; [|assumption]. simpl. now exists w.
  - destruct (m ic r1 k x) as [z0|] eqn:H1.
    + inversion H; subst z0. apply IH1 in H1. destruct H1 as (y & H1 & Hk).
      exists y. split; [now left | assumption].
    + apply IH2 in H. destruct H as (y & H2 & Hk).
      exists y. split; [now right | assumption].
  - eapply repeatMatcher_sound in H; [|exact IH1]. exact H.
  - apply IH1 in H. destruct H as (w & H1 & Hk).
    eexists. split; [|exact Hk]. simpl. now exists w.
  - destruct (at_word_boundary x) eqn:Hb; [|discriminate].
    exists x. simpl. auto.
  - exists x. simpl. destruct (rest x) as [|a tl].
    + auto.
    + destruct (cmem ic c a); [discriminate | auto].
  - exists x. simpl. destruct (prev x) as [a|].
    + destruct (cmem ic c a); [discriminate | auto].
    + auto.
  - exists x. simpl. destruct (prev x); [discriminate | auto].
  - exists x. simpl. destruct (rest x); [auto | discriminate].
Qed.

End Sound.

(** *** The matcher explores every match *)

Section Complete.

Variable ic : bool.

(** The last code unit of [l], or [p] when [l] is empty. *)
Definition lastp (l : jsstring) (p : option Z) : option Z :=
  fold_left (fun _ c => Some c) l p.

(** [y] is [x] moved over the code units [l]. *)
Definition Span (x y : state) (l : jsstring) : Prop :=
  rest x = l ++ rest y /\ prev y = lastp l (prev x).

Lemma Span_refl x : Span x x [].
Proof. split; reflexivity. Qed.

Lemma Span_trans x w y l1 l2 :
  Span x w l1 -> Span w y l2 -> Span x y (l1 ++ l2).
Proof.
  intros [H1 H2] [H3 H4]. split.
  - rewrite H1, H3. now rewrite app_assoc.
  - unfold lastp in *. now rewrite fold_left_app, <- H2.
Qed.

Lemma Span_length x y l :
  Span x y l -> length (rest x) = length l + length (rest y).
Proof. intros [H _]. rewrite H. apply length_app. Qed.

Lemma Span_consumed x y l : Span x y l -> consumed x y = l.
Proof.
  intros [H _]. unfold consumed. rewrite H, length_app.
  replace (length l + length (rest y) - length (rest y)) with (length l) by lia.
  rewrite firstn_app, firstn_all, Nat.sub_diag. simpl. apply app_nil_r.
Qed.

Lemma RepM_span (R : state -> state -> Prop) :
  (forall x y, R x y -> exists l, Span x y l) ->
  forall lo hi x y, RepM R lo hi x y -> exists l, Span x y l.
Proof.
  intros HR lo hi x y H. induction H as [lo hi x _|lo hi x y z _ Hxy _ _ IH].
  - exists []. apply Span_refl.
  - destruct (HR _ _ Hxy) as (l1 & H1). destruct IH as (l2 & H2).
    exists (l1 ++ l2). eapply Span_trans; eauto.
Qed.

Lemma Matches_span r : forall x y, Matches ic r x y -> exists l, Span x y l.
Proof.
  induction r as [|c|r1 IH1 r2 IH2|r1 IH1 r2 IH2|lo hi g r1 IH1|r1 IH1
                  | |c|c| |]; intros x y H; simpl in H.
  - subst. exists []. apply Span_refl.
  - destruct H as (a & tl & Hr & _ & ->). exists [a]. split; simpl; auto.
  - destruct H as (w & H1 & H2). apply IH1 in H1. apply IH2 in H2.
    destruct H1 as (l1 & H1). destruct H2 as (l2 & H2).
    exists (l1 ++ l2). eapply Span_trans; eauto.
  - destruct H as [H|H]; [now apply IH1 | now apply IH2].
  - eapply RepM_span; eauto.
  - destruct H as (w & H1 & ->). apply IH1 in H1. destruct H1 as (l & H1 & H2).
    exists l. split; simpl; auto.
  - destruct H as (_ & ->). exists []. apply Span_refl.
  - destruct H as (_ & ->). exists []. apply Span_refl.
  - destruct H as (_ & ->). exists []. apply Span_refl.
  - destruct H as (_ & ->). exists []. apply Span_refl.
  - destruct H as (_ & ->). exists []. apply Span_refl.
Qed.

Lemma Matches_rest_le r x y :
  Matches ic r x y -> length (rest y) <= length (rest x).
Proof.
  intros H. apply Matches_span in H. destruct H as (l & H).
  apply Span_length in H. lia.
Qed.

Lemma repeatMatcher_complete body (R : state -> state -> Prop) g :
  (forall k x y z, R x y -> k y = Some z -> exists z', body k x = Some z') ->
  (forall x y, R x y -> length (rest y) <= length (rest x)) ->
  forall lo hi x y, RepM R lo hi x y ->
  forall fuel k z, lo + length (rest x) + 1 <= fuel -> k y = Some z ->
                   exists z', repeatMatcher body g fuel lo hi k x = Some z'.
Proof.
  intros Hbody Hle lo hi x y H.
  induction H as [lo hi x Hstop|lo hi x y z Hhi Hxy Hprog Hrep IH];
    intros fuel k z0 Hfuel Hk;
    (destruct fuel as [|fuel]; [lia|]); simpl;
    destruct (hi_zero hi) eqn:Hz; eauto.
  - destruct Hstop as [->| ->]; [discriminate|].
    destruct g.
    + destruct (body _ x); eauto.
    + rewrite Hk. eauto.
  - apply hi_zero_true in Hz. contradiction.
  - pose proof (Hle _ _ Hxy) as Hlen.
    set (d := fun y0 : state =>
                if (lo =? 0)%nat && (length (rest y0) =? length (rest x))%nat
                then None
                else repeatMatcher body g fuel (pred lo) (pred_opt hi) k y0).
    assert (Hd : exists z', d y = Some z').
    { unfold d. destruct lo as [|lo]; simpl.
      - specialize (Hprog eq_refl). apply Nat.eqb_neq in Hprog.
        rewrite Hprog. eapply IH; [|eassumption].
        apply Nat.eqb_neq in Hprog. simpl. lia.
      - eapply IH; [|eassumption]. simpl. lia. }
    destruct Hd as (z' & Hd).
    destruct (Hbody d x y z' Hxy Hd) as (z'' & Hb).
    destruct lo as [|lo]; [|eauto]. destruct g.
    + rewrite Hb. eauto.
    + destruct (k x); eauto.
Qed.

(** Completeness: when the pattern has a match after which the
    continuation succeeds, the matcher returns a result. *)
Theorem m_complete r :
  forall k x y z, Matches ic r x y -> k y = Some z ->
                  exists z', m ic r k x = Some z'.
Proof.
  induction r as [|c|r1 IH1 r2 IH2|r1 IH1 r2 IH2|lo hi g r1 IH1|r1 IH1
                  | |c|c| |]; intros k x y z H Hk; simpl in H; simpl.
  - subst. eauto.
  - destruct H as (a & tl & Hr & Hc & ->). rewrite Hr, Hc. eauto.
  - destruct H as (w & H1 & H2).
    destruct (IH2 _ _ _ _ H2 Hk) as (z' & Hz').
    eapply IH1; eauto.
  - destruct H as [H|H].
    + destruct (IH1 _ _ _ _ H Hk) as (z' & ->). eauto.
    + destruct (m ic r1 k x); eauto.
  - eapply repeatMatcher_complete; eauto.
    intros. eapply Matches_rest_le; eauto.
  - destruct H as (w & H1 & ->). eapply IH1; eauto.
  - destruct H as (-> & ->). eauto.
  - destruct H as (H & ->). destruct (rest x); [eauto|]. rewrite H. eauto.
  - destruct H as (H & ->). destruct (prev x); [|eauto]. rewrite H. eauto.
  - destruct H as (-> & ->). eauto.
  - destruct H as (-> & ->). eauto.
Qed.

End Complete.

(** *** The iteration bound is never reached *)

Section Fuel.

Variable ic : bool.

(** A matcher calls its continuation on states further in the text. *)
Definition local (body : cont -> state -> option state) : Prop :=
  forall k1 k2 x,
    (forall y, length (rest y) <= length (rest x) -> k1 y = k2 y) ->
    body k1 x = body k2 x.

Lemma repeatMatcher_local body g :
  local body ->
  forall fuel lo hi, local (fun k x => repeatMatcher body g fuel lo hi k x).
Proof.
  intros Hbody. induction fuel as [|fuel IH]; intros lo hi k1 k2 x Hk; simpl.
  - now rewrite (Hk x (le_n _)).
  - rewrite (Hk x (le_n _)).
    destruct (hi_zero hi); [reflexivity|].
    set (d1 := fun y : state =>
      if (lo =? 0)%nat && (length (rest y) =? length (rest x))%nat then None
      else repeatMatcher body g fuel (pred lo) (pred_opt hi) k1 y).
    set (d2 := fun y : state =>
      if (lo =? 0)%nat && (length (rest y) =? length (rest x))%nat then None
      else repeatMatcher body g fuel (pred lo) (pred_opt hi) k2 y).
    assert (Hd : body d1 x = body d2 x).
    { apply Hbody. intros y Hy. unfold d1, d2.
      destruct (_ && _); [reflexivity|].
      apply IH. intros y' Hy'. apply Hk. lia. }
    now rewrite Hd.
Qed.

Lemma m_local r : local (m ic r).
Proof.
  induction r as [|c|r1 IH1 r2 IH2|r1 IH1 r2 IH2|lo hi g r1 IH1|r1 IH1
                  | |c|c| |]; intros k1 k2 x Hk; simpl;
    try (rewrite (Hk x (le_n _)); reflexivity).
  - destruct (rest x) as [|a tl] eqn:Hr; [reflexivity|].
    destruct (cmem ic c a); [|reflexivity].
    apply Hk. simpl. lia.
  - apply IH1. intros y Hy. apply IH2. intros y' Hy'. apply Hk. lia.
  - rewrite (IH1 k1 k2 x Hk), (IH2 k1 k2 x Hk). reflexivity.
  - now apply repeatMatcher_local.
  - apply IH1. intros y Hy. apply Hk. simpl. assumption.
Qed.

Lemma repeatMatcher_fuel body g :
  local body ->
  forall f1 f2 lo hi k x,
    lo + length (rest x) + 1 <= f1 ->
    lo + length (rest x) + 1 <= f2 ->
    repeatMatcher body g f1 lo hi k x = repeatMatcher body g f2 lo hi k x.
Proof.
  intros Hbody. induction f1 as [|f1 IH]; intros f2 lo hi k x H1 H2; [lia|].
  destruct f2 as [|f2]; [lia|]. simpl.
  destruct (hi_zero hi); [reflexivity|].
  set (d1 := fun y : state =>
      if (lo =? 0)%nat && (length (rest y) =? length (rest x))%nat then None
      else repeatMatcher body g f1 (pred lo) (pred_opt hi) k y).
  set (d2 := fun y : state =>
      if (lo =? 0)%nat && (length (rest y) =? length (rest x))%nat then None
      else repeatMatcher body g f2 (pred lo) (pred_opt hi) k y).
  assert (Hd : body d1 x = body d2 x).
  { apply Hbody. intros y Hy. unfold d1, d2.
    destruct lo as [|lo]; simpl.
    - destruct (length (rest y) =? length (rest x))%nat eqn:He; [reflexivity|].
      apply Nat.eqb_neq in He. apply IH; simpl; lia.
    - apply IH; simpl; lia. }
  now rewrite Hd.
Qed.

(** The bound [lo + length (rest x) + 1] of the matcher can be replaced
    by any larger one: the [fuel = 0] branch is not taken. *)
Theorem Rep_fuel_irrelevant lo hi g r k x fuel :
  lo + length (rest x) + 1 <= fuel ->
  m ic (Rep lo hi g r) k x = repeatMatcher (m ic r) g fuel lo hi k x.
Proof.
  intros H. simpl. apply repeatMatcher_fuel; [apply m_local | lia | assumption].
Qed.

End Fuel.

(** *** Every match of a pattern of the module consumes something *)

Definition rep_floor (lo : nat) (hi : option nat) : nat :=
  match hi with Some h => Nat.min lo h | None => lo end.

Fixpoint minLen (r : regex) : nat :=
  match r with
  | Chr _ => 1
  | Seq r1 r2 => minLen r1 + minLen r2
  | Alt r1 r2 => Nat.min (minLen r1) (minLen r2)
  | Rep lo hi _ r1 => rep_floor lo hi * minLen r1
  | Cap r1 => minLen r1
  | _ => 0
  end.

Lemma Matches_minLen ic r :
  forall x y, Matches ic r x y -> length (rest y) + minLen r <= length (rest x).
Proof.
  induction r as [|c|r1 IH1 r2 IH2|r1 IH1 r2 IH2|lo hi g r1 IH1|r1 IH1
                  | |c|c| |]; intros x y H; simpl in H; simpl;
    try (destruct H as (_ & ->); lia).
  - subst. lia.
  - destruct H as (a & tl & Hr & _ & ->). rewrite Hr. simpl. lia.
  - destruct H as (w & H1 & H2). apply IH1 in H1. apply IH2 in H2. lia.
  - destruct H as [H|H]; [apply IH1 in H | apply IH2 in H]; lia.
  - induction H as [lo hi x Hstop|lo hi x y z Hhi Hxy _ _ IH].
    + destruct Hstop as [->| ->]; unfold rep_floor; simpl.
      * rewrite Nat.min_0_r. simpl. lia.
      * destruct hi; simpl; lia.
    + apply IH1 in Hxy.
      assert (rep_floor lo hi <= S (rep_floor (pred lo) (pred_opt hi))).
      { unfold rep_floor. destruct hi as [h|]; simpl; lia. }
      nia.
  - destruct H as (w & H1 & ->). apply IH1 in H1. simpl. lia.
Qed.

End RegexFacts.

(* ===================================================================== *)
(** ** Facts about [exec], [test] and the scanning loop *)
(* ===================================================================== *)

Module ExecFacts.

Import RegexFacts.

(** The state in which a pattern is tried after the prefix [pre]. *)
Definition stateAt (p : option Z) (s : jsstring) : state :=
  {| prev := p; rest := s; cap := None |}.

Lemma matchAt_Matches re p s y :
  matchAt re p s = Some y -> Matches (ignoreCase re) (pattern re) (stateAt p s) y.
Proof.
  unfold matchAt. intros H. apply m_sound in H.
  destruct H as (y' & HM & Hk). now inversion Hk; subst.
Qed.

Lemma Matches_matchAt re p s y :
  Matches (ignoreCase re) (pattern re) (stateAt p s) y ->
  exists y', matchAt re p s = Some y'.
Proof.
  intros H. unfold matchAt.
  eapply m_complete with (k := fun y => Some y) in H; [|reflexivity]. exact H.
Qed.

Lemma lastp_app l1 l2 p : lastp (l1 ++ l2) p = lastp l2 (lastp l1 p).
Proof. unfold lastp. apply fold_left_app. Qed.

Lemma len_app a b : len (a ++ b) = (len a + len b)%Z.
Proof. unfold len. rewrite length_app. lia. Qed.

(** A result of [exec]: where it was found and what the matcher did. *)
Record FoundAt (re : RegExp) (p : option Z) (pre post : jsstring)
    (r : MatchResult) (y : state) : Prop := {
  found_match : matchAt re (lastp pre p) (m0 r ++ post) = Some y;
  found_span : Span (stateAt (lastp pre p) (m0 r ++ post)) y (m0 r);
  found_rest : rest y = post;
  found_cap : m1 r = cap y
}.

Lemma matchAt_consumed re p s y :
  matchAt re p s = Some y ->
  Span (stateAt p s) y (consumed (stateAt p s) y).
Proof.
  intros H. apply matchAt_Matches in H. apply Matches_span in H.
  destruct H as (l & Hl). now rewrite (Span_consumed Hl).
Qed.

Lemma execFrom_found re i p s y :
  matchAt re p s = Some y ->
  let r := {| index := i; m0 := consumed (stateAt p s) y; m1 := cap y |} in
  s = [] ++ m0 r ++ rest y
  /\ FoundAt re p [] (rest y) r y
  /\ index r = (i + len [])%Z.
Proof.
  intros Hm r. pose proof (matchAt_consumed _ _ _ Hm) as Hsp.
  assert (Hs : s = m0 r ++ rest y) by (destruct Hsp as [Hs _]; exact Hs).
  split; [exact Hs|]. split.
  - constructor; try rewrite <- Hs; try assumption; reflexivity.
  - simpl. unfold len. simpl. lia.
Qed.

Lemma execFrom_spec re : forall s i p r c,
  execFrom re i p s = Some (r, c) ->
  exists pre y,
    s = pre ++ m0 r ++ after c
    /\ FoundAt re p pre (after c) r y
    /\ index r = (i + len pre)%Z
    /\ before c = prev y
    /\ lastIndex c = (index r + len (m0 r))%Z.
Proof.
  induction s as [|a s IH]; intros i p r c H; simpl in H.
  - destruct (matchAt re p []) as [y|] eqn:Hm; [|discriminate].
    inversion H; subst; clear H.
    destruct (@execFrom_found re i _ _ _ Hm) as (H1 & H2 & H3).
    exists [], y. split; [exact H1|]. split; [exact H2|].
      split; [exact H3|]. split; reflexivity.
  - destruct (matchAt re p (a :: s)) as [y|] eqn:Hm.
    + inversion H; subst; clear H.
      destruct (@execFrom_found re i _ _ _ Hm) as (H1 & H2 & H3).
      exists [], y. split; [exact H1|]. split; [exact H2|].
      split; [exact H3|]. split; reflexivity.
    + apply IH in H. destruct H as (pre & y & Hs & [H1 H2 H3 H4] & Hi & Hb & Hl).
      exists (a :: pre), y. split; [simpl; now rewrite Hs|].
      split; [constructor; assumption|].
      split; [|split; assumption].
      rewrite Hi. unfold len. simpl length. lia.
Qed.

Lemma execFrom_None re : forall s i p,
  execFrom re i p s = None ->
  forall pre suf, s = pre ++ suf -> matchAt re (lastp pre p) suf = None.
Proof.
  induction s as [|a s IH]; intros i p H pre suf Hs; simpl in H.
  - destruct pre; [|discriminate]. simpl in Hs. subst suf. simpl.
    destruct (matchAt re p []); [discriminate | reflexivity].
  - destruct (matchAt re p (a :: s)) eqn:Hm; [discriminate|].
    destruct pre as [|b pre]; simpl in Hs.
    + subst suf. exact Hm.
    + inversion Hs; subst. simpl. eapply IH; eauto.
Qed.

(** [test] succeeds exactly when the pattern has a match somewhere. *)
Theorem test_true_iff re s :
  test re s = true <->
  exists pre suf y,
    s = pre ++ suf
    /\ Matches (ignoreCase re) (pattern re) (stateAt (lastp pre None) suf) y.
Proof.
  unfold test, exec, start. simpl. split.
  - destruct (execFrom re 0 None s) as [[r c]|] eqn:He; [|discriminate].
    intros _. apply execFrom_spec in He.
    destruct He as (pre & y & Hs & [H1 H2 H3 H4] & _).
    exists pre, (m0 r ++ after c), y. split; [assumption|].
    now apply matchAt_Matches.
  - intros (pre & suf & y & Hs & HM).
    destruct (execFrom re 0 None s) as [[r c]|] eqn:He; [reflexivity|].
    apply Matches_matchAt in HM. destruct HM as (y' & HM).
    rewrite (execFrom_None _ _ _ He _ _ Hs) in HM. discriminate.
Qed.

(** Positions of the scan: the text read so far, [lastIndex] and the
    code unit before it agree. *)
Definition CursorOk (text : jsstring) (c : cursor) (pre : jsstring) : Prop :=
  text = pre ++ after c /\ before c = lastp pre None /\ lastIndex c = len pre.

(** [r] is a match of [re] inside [text] at offset [index r]. *)
Definition Located (re : RegExp) (text : jsstring) (r : MatchResult) : Prop :=
  exists pre post y,
    text = pre ++ m0 r ++ post
    /\ index r = len pre
    /\ FoundAt re None pre post r y.

Lemma execSeq_Located re text : forall fuel c pre,
  CursorOk text c pre ->
  Forall (Located re text) (execSeq re fuel c).
Proof.
  induction fuel as [|fuel IH]; intros c pre (Ht & Hb & Hi); simpl; [constructor|].
  destruct (exec re c) as [[r c']|] eqn:He; [|constructor].
  unfold exec in He. apply execFrom_spec in He.
  destruct He as (skip & y & Hs & [H1 H2 H3 H4] & Hidx & Hbef & Hlast).
  constructor.
  - exists (pre ++ skip), (after c'), y. split; [|split].
    + rewrite Ht, Hs. now rewrite app_assoc.
    + rewrite Hidx, Hi, len_app. reflexivity.
    + constructor; try assumption; now rewrite lastp_app, <- Hb.
  - apply (IH c' (pre ++ skip ++ m0 r)). repeat split.
    + rewrite Ht, Hs. now rewrite <- !app_assoc.
    + rewrite Hbef. destruct H2 as [_ H2]. rewrite H2. simpl.
      rewrite !lastp_app, <- Hb. reflexivity.
    + rewrite Hlast, Hidx, Hi, !len_app. lia.
Qed.

Theorem execAll_Located re text : Forall (Located re text) (execAll re text).
Proof.
  apply (@execSeq_Located re text _ _ []). repeat split.
Qed.

(** The scanning loop needs no more than [length text + 1] calls of
    [exec] when every match consumes something. *)
Lemma execSeq_fuel re :
  1 <= minLen (pattern re) ->
  forall f1 f2 c,
    length (after c) < f1 -> length (after c) < f2 ->
    execSeq re f1 c = execSeq re f2 c.
Proof.
  intros Hmin. induction f1 as [|f1 IH]; intros f2 c H1 H2; [lia|].
  destruct f2 as [|f2]; [lia|]. simpl.
  destruct (exec re c) as [[r c']|] eqn:He; [|reflexivity].
  f_equal. unfold exec in He. apply execFrom_spec in He.
  destruct He as (skip & y & Hs & [Hm Hsp Hr Hc] & _).
  apply matchAt_Matches in Hm. apply Matches_minLen in Hm. simpl in Hm.
  rewrite Hr in Hm. rewrite Hs in H1, H2. rewrite !length_app in *.
  apply IH; lia.
Qed.

(** The patterns that the module scans with. *)
Definition scanPatterns : list RegExp :=
  [ EMAIL_RE; SSN_RE; SSN_LAST4_CONTEXT_RE; PHONE_RE; CARD_CANDIDATE_RE;
    IBAN_CANDIDATE_RE; ROUTING_RE; ACCOUNT_RE; SORT_CODE_RE;
    INS_POLICY_RE; EMPLOYEE_ID_RE; MRN_RE ].

Lemma scanPatterns_consume :
  Forall (fun re => (1 <=? minLen (pattern re))%nat = true) scanPatterns.
Proof. repeat constructor. Qed.

(** None of them matches the empty string, so each scanning loop ends by
    [exec] answering [null] within [length text + 1] calls: more calls
    change nothing. *)
Theorem scan_complete re text fuel :
  In re scanPatterns ->
  length text < fuel ->
  execSeq re fuel (start text) = execAll re text.
Proof.
  intros Hin Hf. unfold execAll.
  pose proof scanPatterns_consume as H. rewrite Forall_forall in H.
  apply execSeq_fuel; simpl; try lia.
  apply Nat.leb_le. now apply H.
Qed.

End ExecFacts.

(* ===================================================================== *)
(** ** Vocabulary of the properties *)
(* ===================================================================== *)

Definition digits (l : jsstring) : Prop :=
  Forall (fun a => Char.is_digit a = true) l.

Definition nonDigits (l : jsstring) : Prop :=
  Forall (fun a => Char.is_digit a = false) l.

Definition dash : Z := 45.

(** An optional single separator of a sort code. *)
Definition sortSep (l : jsstring) : Prop := l = [] \/ l = [45%Z] \/ l = [32%Z].

(** The surface form of a sort code: three pairs of digits, each two
    joined directly or by one dash or space. *)
Definition sortCodeText (v : jsstring) : Prop :=
  exists a s1 b s2 c,
    v = a ++ s1 ++ b ++ s2 ++ c
    /\ digits a /\ length a = 2 /\ sortSep s1
    /\ digits b /\ length b = 2 /\ sortSep s2
    /\ digits c /\ length c = 2.

Definition notDigitOpt (o : option Z) : Prop :=
  match o with Some a => Char.is_digit a = false | None => True end.

Definition cardChar (a : Z) : bool :=
  Char.is_digit a || (a =? 32)%Z || (a =? 45)%Z.

(** The text of a card candidate: it starts with a digit, is made of
    digits, spaces and dashes, and holds 13 to 19 digits. *)
Definition cardText (l : jsstring) : Prop :=
  (exists a tl, l = a :: tl /\ Char.is_digit a = true)
  /\ Forall (fun a => cardChar a = true) l
  /\ 13 <= length (digitsOnly l) <= 19.

(** The strict IBAN shape, read from the words of the specification: two
    capital letters, two digits, then 11 to 30 capital letters or digits. *)
Definition ibanAlnum (a : Z) : bool := Char.is_upper a || Char.is_digit a.

Definition ibanShape (s : jsstring) : bool :=
  forallb Char.is_upper (firstn 2 s)
  && forallb Char.is_digit (firstn 2 (skipn 2 s))
  && forallb ibanAlnum (skipn 4 s)
  && (15 <=? length s)%nat && (length s <=? 34)%nat.

Definition spaces (ws : jsstring) : Prop :=
  Forall (fun a => Char.is_space a = true) ws.

(** The labels that make a candidate a card: two words of a label may be
    joined by any run of white space, also an empty one. *)
Definition cardKeyword (w : jsstring) : Prop :=
  (exists ws, spaces ws /\ w = js "credit" ++ ws ++ js "card")
  \/ (exists ws, spaces ws /\ w = js "debit" ++ ws ++ js "card")
  \/ (exists ws, spaces ws /\ w = js "card" ++ ws ++ js "number")
  \/ w = js "visa" \/ w = js "mastercard" \/ w = js "amex"
  \/ (exists ws, spaces ws /\ w = js "american" ++ ws ++ js "express").

(** A label occurs in [ctx] as a whole word. *)
Definition keywordInContext (ctx : jsstring) : Prop :=
  exists pre w post,
    ctx = pre ++ w ++ post
    /\ cardKeyword w
    /\ is_word_opt (RegexFacts.lastp pre None) = false
    /\ is_word_opt (hd_error post) = false.

(** The code units an IBAN candidate is made of. *)
Definition ibanCandidateUnit (a : Z) : bool :=
  Char.is_upper a || Char.is_lower a || Char.is_digit a || (a =? 32)%Z.

(** Comparison of code units by case. *)
Ltac zbool :=
  repeat (first
    [ progress unfold Char.is_digit, Char.is_upper, Char.is_lower, Char.is_word,
        Char.ascii_upper, Char.ascii_lower, Char.between in *
    | progress cbn [andb orb negb xorb] in *
    | match goal with
      | |- context [(?a <=? ?b)%Z] => destruct (Z.leb_spec a b)
      | |- context [(?a =? ?b)%Z] => destruct (Z.eqb_spec a b)
      | H : context [(?a <=? ?b)%Z] |- _ => destruct (Z.leb_spec a b)
      | H : context [(?a =? ?b)%Z] |- _ => destruct (Z.eqb_spec a b)
      end ]);
  try reflexivity; try discriminate; try lia.

(* ===================================================================== *)
(** ** Reading the shape of a match off a pattern *)
(* ===================================================================== *)

Module Shapes.

Import RegexFacts ExecFacts.

Lemma lastp_None l : lastp l None = None -> l = [].
Proof.
  destruct l as [|a l] using rev_ind; [reflexivity|].
  rewrite lastp_app. simpl. discriminate.
Qed.

Lemma lastp_last l a p : lastp (l ++ [a]) p = Some a.
Proof. now rewrite lastp_app. Qed.

Section Inversions.

Variable ic : bool.

Lemma RepM_exact_S (R : state -> state -> Prop) n x z :
  RepM R (S n) (Some (S n)) x z -> exists y, R x y /\ RepM R n (Some n) y z.
Proof.
  intros H. inversion H; subst.
  - destruct H0; discriminate.
  - exists y. split; assumption.
Qed.

Lemma RepM_exact_0 (R : state -> state -> Prop) lo x z :
  RepM R lo (Some 0) x z -> z = x.
Proof.
  intros H. inversion H; subst; [reflexivity | congruence].
Qed.

(** One code unit of a class. *)
Lemma Matches_Chr c x y :
  Matches ic (Chr c) x y ->
  exists a, Span x y [a] /\ cmem ic c a = true /\ cap y = cap x.
Proof.
  simpl. intros (a & tl & Hr & Hc & ->). exists a. repeat split; auto.
Qed.

(** A quantified class: a run of code units of the class. *)
Lemma RepM_Chr c lo hi x y :
  RepM (Matches ic (Chr c)) lo hi x y ->
  exists l,
    Span x y l /\ cap y = cap x
    /\ Forall (fun a => cmem ic c a = true) l
    /\ rep_floor lo hi <= length l
    /\ (forall h, hi = Some h -> length l <= h).
Proof.
  intros H. induction H as [lo hi x Hstop|lo hi x y z Hhi Hxy _ _ IH].
  - exists []. repeat split; auto using Span_refl.
    + destruct Hstop as [->| ->]; unfold rep_floor; simpl.
      * now rewrite Nat.min_0_r.
      * destruct hi; simpl; lia.
    + simpl. lia.
  - apply Matches_Chr in Hxy. destruct Hxy as (a & Ha & Hc & Hcap).
    destruct IH as (l & Hl & Hcap' & Hall & Hlo & Hhi').
    exists (a :: l). repeat split.
    + apply (Span_trans Ha Hl).
    + apply (Span_trans Ha Hl).
    + congruence.
    + constructor; assumption.
    + simpl. unfold rep_floor in *. destruct hi as [h|]; simpl in *; lia.
    + intros h ->. simpl. simpl in Hhi'.
      destruct h as [|h]; [congruence|]. specialize (Hhi' h eq_refl). lia.
Qed.

(** Conversely a run of the class within the bounds is a match. *)
Lemma RepM_Chr_intro c : forall l lo hi p tl cp,
  Forall (fun a => cmem ic c a = true) l ->
  lo <= length l ->
  (forall h, hi = Some h -> length l <= h) ->
  RepM (Matches ic (Chr c)) lo hi
    {| prev := p; rest := l ++ tl; cap := cp |}
    {| prev := lastp l p; rest := tl; cap := cp |}.
Proof.
  induction l as [|a l IH]; intros lo hi p tl cp Hall Hlo Hhi; simpl.
  - constructor. right. simpl in Hlo. lia.
  - inversion Hall; subst.
    apply RepM_step with (y := {| prev := Some a; rest := l ++ tl; cap := cp |}).
    + intros ->. specialize (Hhi 0 eq_refl). simpl in Hhi. lia.
    + simpl. exists a, (l ++ tl). auto.
    + intros _. simpl. lia.
    + apply IH; auto.
      * simpl in Hlo. lia.
      * intros h Hh. destruct hi as [h'|]; simpl in Hh; [|discriminate].
        inversion Hh; subst. specialize (Hhi h' eq_refl). simpl in Hhi. lia.
Qed.

(** Literal text: code units equal to those of the pattern up to
    canonicalization. *)
Definition sameText (w l : jsstring) : Prop :=
  Forall2 (fun a b => canonicalize ic a = canonicalize ic b) w l.

Lemma Matches_lits : forall w x y,
  Matches ic (seq (List.map (fun a => Chr (cls [Lit a])) w)) x y ->
  exists l, Span x y l /\ cap y = cap x /\ sameText w l.
Proof.
  induction w as [|a w IH]; intros x y H; simpl in H.
  - subst. exists []. repeat split; auto. constructor.
  - destruct H as (w1 & (b & tl & Hr & Hc & ->) & H).
    apply IH in H. destruct H as (l & Hl & Hcap & Hsame).
    exists (b :: l). repeat split.
    + destruct Hl as [Hl _]. simpl in Hl. rewrite Hr, Hl. reflexivity.
    + destruct Hl as [_ Hl]. simpl in Hl. exact Hl.
    + exact Hcap.
    + constructor; [|assumption].
      unfold cmem in Hc. simpl in Hc. rewrite orb_false_r in Hc.
      now apply Z.eqb_eq in Hc.
Qed.

Lemma Matches_ch str x y :
  Matches ic (ch str) x y ->
  exists l, Span x y l /\ cap y = cap x /\ sameText (js str) l.
Proof. apply Matches_lits. Qed.

Lemma Matches_lits_intro : forall w l p tl cp,
  sameText w l ->
  Matches ic (seq (List.map (fun a => Chr (cls [Lit a])) w))
    {| prev := p; rest := l ++ tl; cap := cp |}
    {| prev := lastp l p; rest := tl; cap := cp |}.
Proof.
  induction w as [|a w IH]; intros l p tl cp H; inversion H; subst; simpl.
  - reflexivity.
  - eexists. split.
    + exists y, (l' ++ tl). split; [reflexivity|]. split; [|reflexivity].
      unfold cmem. simpl. rewrite orb_false_r. now apply Z.eqb_eq.
    + simpl. apply IH. assumption.
Qed.

End Inversions.

Lemma cmem_digit ic a : cmem ic (cls [Digit]) a = Char.is_digit a.
Proof. unfold cmem. simpl. now rewrite orb_false_r. Qed.

(** Patterns of the form [^c{lo,hi}$]. *)
Lemma test_anchored_run c lo hi s :
  lo <= hi ->
  test {| pattern := seq [Bos; range lo hi (Chr c); Eos]; ignoreCase := false |} s
  = true
  <-> Forall (fun a => cmem false c a = true) s /\ lo <= length s <= hi.
Proof.
  intros Hlh. rewrite test_true_iff. split.
  - intros (pre & suf & y & Hs & HM).
    cbn [pattern ignoreCase seq fold_right Matches range] in HM.
    destruct HM as (w & (Hp & ->) & w0 & HR & w1 & (He & ->) & ->).
    simpl in Hp. apply lastp_None in Hp. subst pre. simpl in Hs. subst suf.
    apply RepM_Chr in HR. destruct HR as (l & [Hl _] & _ & Hall & Hlo & Hhi).
    simpl in Hl. rewrite He, app_nil_r in Hl. subst l.
    split; [assumption|]. unfold rep_floor in Hlo.
    specialize (Hhi hi eq_refl). lia.
  - intros (Hall & Hlen). exists [], s.
    exists {| prev := lastp s None; rest := []; cap := None |}.
    split; [reflexivity|].
    cbn [pattern ignoreCase seq fold_right Matches range].
    eexists. split; [split; reflexivity|].
    eexists. split.
    + unfold stateAt. simpl lastp. rewrite <- (app_nil_r s) at 1.
      apply RepM_Chr_intro; auto; [lia|]. intros h Hh. inversion Hh. lia.
    + eexists. split; [split; reflexivity | reflexivity].
Qed.

Lemma cmem_d09 ic a : cmem ic (cls [d09]) a = Char.is_digit a.
Proof. unfold cmem, d09, rng, code. simpl. destruct ic; simpl; zbool. Qed.

Lemma cmem_not_d09 ic a : cmem ic (ncls [d09]) a = negb (Char.is_digit a).
Proof. unfold cmem, d09, rng, code. simpl. destruct ic; simpl; zbool. Qed.

Lemma Forall_digit ic l :
  Forall (fun a => cmem ic (cls [Digit]) a = true) l -> digits l.
Proof.
  apply Forall_impl. intros a. now rewrite cmem_digit.
Qed.

Lemma Span_inj x y l1 l2 : Span x y l1 -> Span x y l2 -> l1 = l2.
Proof.
  intros [H1 _] [H2 _]. rewrite H1 in H2. now apply app_inv_tail in H2.
Qed.

(** A run of exactly [n] digits. *)
Lemma RepM_digits ic n x y :
  RepM (Matches ic digit) n (Some n) x y ->
  exists l, Span x y l /\ cap y = cap x /\ digits l /\ length l = n.
Proof.
  intros H. apply RepM_Chr in H.
  destruct H as (l & Hl & Hcap & Hall & Hlo & Hhi).
  exists l. repeat split; try assumption; try apply Hl.
  - eapply Forall_digit; eauto.
  - unfold rep_floor in Hlo. specialize (Hhi n eq_refl). lia.
Qed.

Lemma sameText_false w l : sameText false w l -> l = w.
Proof.
  induction 1; [reflexivity|]. simpl in H. now subst.
Qed.

(** A match of [SSN_RE]: ddd-dd-dddd. *)
Lemma SSN_RE_shape x y :
  Matches false (pattern SSN_RE) x y ->
  exists a b c,
    Span x y (a ++ [dash] ++ b ++ [dash] ++ c)
    /\ digits a /\ length a = 3
    /\ digits b /\ length b = 2
    /\ digits c /\ length c = 4.
Proof.
  intros H.
  cbn [pattern SSN_RE seq fold_right Matches times] in H.
  destruct H as (w & (_ & ->) & w0 & Ha & w1 & H1 & w2 & Hb & w3 & H2
                 & w4 & Hc & w5 & (_ & ->) & ->).
  apply RepM_digits in Ha, Hb, Hc.
  destruct Ha as (a & Sa & _ & Da & La).
  destruct Hb as (b & Sb & _ & Db & Lb).
  destruct Hc as (c & Sc & _ & Dc & Lc).
  apply Matches_ch in H1, H2.
  destruct H1 as (l1 & S1 & _ & T1). destruct H2 as (l2 & S2 & _ & T2).
  apply sameText_false in T1, T2. subst l1 l2.
  exists a, b, c. repeat split; try assumption;
    apply (Span_trans Sa (Span_trans S1 (Span_trans Sb (Span_trans S2 Sc)))).
Qed.

Lemma word_after_digit l p (y : state) :
  digits l -> l <> [] -> prev y = lastp l p ->
  at_word_boundary y = true -> is_word_opt (hd_error (rest y)) = false.
Proof.
  intros Hd Hne Hp Hb. destruct l as [|a l] using rev_ind; [congruence|].
  rewrite lastp_last in Hp. unfold at_word_boundary in Hb. rewrite Hp in Hb.
  apply Forall_app in Hd. destruct Hd as [_ Hd]. inversion Hd; subst.
  simpl in Hb. unfold Char.is_word in Hb. rewrite H1 in Hb.
  rewrite orb_true_r in Hb. simpl in Hb.
  destruct (is_word_opt (hd_error (rest y))); [discriminate | reflexivity].
Qed.

(** A match of [SSN_LAST4_CONTEXT_RE]: the phrase, a gap of at most 80
    code units that are not digits, and four digits kept as group 1. *)
Lemma SSN_LAST4_shape x y :
  Matches true (pattern SSN_LAST4_CONTEXT_RE) x y ->
  exists kw gap v,
    Span x y (kw ++ gap ++ v)
    /\ (sameText true (js "social security number") kw
        \/ sameText true (js "ssn") kw)
    /\ nonDigits gap /\ length gap <= 80
    /\ digits v /\ length v = 4
    /\ cap y = Some v
    /\ is_word_opt (hd_error (rest y)) = false.
Proof.
  intros H.
  cbn [pattern SSN_LAST4_CONTEXT_RE seq fold_right Matches times range] in H.
  destruct H as (w & (_ & ->) & w0 & Hkw & w1 & (_ & ->) & w2 & Hgap & w3
                 & (w' & Hv & ->) & w4 & (Hb & ->) & ->).
  assert (Hk : exists kw, Span x w0 kw
               /\ (sameText true (js "social security number") kw
                   \/ sameText true (js "ssn") kw)).
  { destruct Hkw as [Hkw|Hkw]; apply Matches_ch in Hkw;
      destruct Hkw as (kw & Sk & _ & Tk); exists kw; auto. }
  destruct Hk as (kw & Sk & Tk).
  apply RepM_Chr in Hgap. destruct Hgap as (gap & Sg & _ & Hall & _ & Hhi).
  apply RepM_digits in Hv. destruct Hv as (v & Sv & _ & Dv & Lv).
  exists kw, gap, v.
  assert (Sv' : Span w2 {| prev := prev w'; rest := rest w';
                           cap := Some (consumed w2 w') |} v)
    by (destruct Sv; split; assumption).
  split; [apply (Span_trans Sk (Span_trans Sg Sv'))|].
  split; [assumption|].
  split; [eapply Forall_impl; [|exact Hall]; intros a Ha; cbv beta in Ha;
          rewrite cmem_not_d09 in Ha; now destruct (Char.is_digit a)|].
  split; [apply (Hhi 80 eq_refl)|].
  split; [assumption|]. split; [assumption|].
  split; [simpl; now rewrite (Span_consumed Sv)|].
  destruct Sv as [_ Sv2].
  eapply (@word_after_digit v (prev w2)); eauto.
  intros ->. discriminate.
Qed.

Lemma cmem_dash_space ic a :
  cmem ic (cls [lit "-"; lit " "]) a = true -> a = 45%Z \/ a = 32%Z.
Proof.
  unfold cmem, lit, code. simpl. unfold canonicalize.
  destruct ic; zbool; intros; try discriminate; lia.
Qed.

Lemma dash_space_shape ic x y :
  Matches ic dash_space x y ->
  exists l, Span x y l /\ cap y = cap x /\ sortSep l.
Proof.
  intros H. cbn [dash_space opt Matches] in H.
  apply RepM_Chr in H. destruct H as (l & Sl & Hc & Hall & _ & Hhi).
  exists l. split; [assumption|]. split; [assumption|].
  specialize (Hhi 1 eq_refl). destruct l as [|a [|b l]]; simpl in Hhi; try lia.
  - now left.
  - inversion Hall; subst. apply cmem_dash_space in H1.
    right. destruct H1; subst; auto.
Qed.

Lemma SORT_CODE_shape x y :
  Matches true (pattern SORT_CODE_RE) x y ->
  exists v, cap y = Some v /\ sortCodeText v.
Proof.
  intros H.
  cbn [pattern SORT_CODE_RE seq fold_right Matches] in H.
  destruct H as (w & _ & w0 & _ & w1 & _ & w2 & _ & w3 & _ & w4 & _ & w5 & _
                 & w6 & (w' & Hv & ->) & w7 & (_ & ->) & ->).
  cbn [times Matches] in Hv.
  destruct Hv as (u1 & Ha & u2 & H1 & u3 & Hb & u4 & H2 & u5 & Hc & ->).
  apply RepM_digits in Ha, Hb, Hc.
  destruct Ha as (a & Sa & _ & Da & La).
  destruct Hb as (b & Sb & _ & Db & Lb).
  destruct Hc as (c & Sc & _ & Dc & Lc).
  apply dash_space_shape in H1, H2.
  destruct H1 as (s1 & S1 & _ & T1). destruct H2 as (s2 & S2 & _ & T2).
  exists (a ++ s1 ++ b ++ s2 ++ c). split.
  - simpl. f_equal. apply Span_consumed.
    apply (Span_trans Sa (Span_trans S1 (Span_trans Sb (Span_trans S2 Sc)))).
  - exists a, s1, b, s2, c. repeat split; assumption.
Qed.

Lemma cmem_card_sep ic a :
  cmem ic (cls [lit " "; lit "-"]) a = true ->
  Char.is_digit a = false /\ cardChar a = true.
Proof.
  unfold cmem, lit, code, cardChar. simpl. unfold canonicalize.
  destruct ic; zbool; intros; try discriminate; split; try reflexivity; lia.
Qed.

Lemma digitsOnly_app a b : digitsOnly (a ++ b) = digitsOnly a ++ digitsOnly b.
Proof. apply filter_app. Qed.

Lemma digitsOnly_nonDigits l : nonDigits l -> digitsOnly l = [].
Proof.
  induction 1 as [|a l Ha _ IH]; simpl; [reflexivity|]. now rewrite Ha.
Qed.

Lemma digitsOnly_digits l : digits l -> digitsOnly l = l.
Proof.
  induction 1 as [|a l Ha _ IH]; simpl; [reflexivity|]. rewrite Ha. now f_equal.
Qed.

(** One iteration of the card pattern: a digit and its separators. *)
Lemma card_group_shape ic x y :
  Matches ic (seq [digit; Rep 0 None false (Chr (cls [lit " "; lit "-"]))]) x y ->
  exists a seps,
    Span x y (a :: seps) /\ Char.is_digit a = true
    /\ nonDigits seps /\ Forall (fun a => cardChar a = true) seps.
Proof.
  cbn [seq fold_right Matches]. intros (w & Ha & w0 & Hs & ->).
  apply Matches_Chr in Ha. destruct Ha as (a & Sa & Ca & _).
  rewrite cmem_digit in Ca.
  apply RepM_Chr in Hs. destruct Hs as (seps & Ss & _ & Hall & _).
  exists a, seps. split; [apply (Span_trans Sa Ss)|]. split; [assumption|].
  split; eapply Forall_impl; try exact Hall; intros b Hb;
    now apply cmem_card_sep in Hb.
Qed.

Lemma card_groups_shape ic lo hi x y :
  RepM (Matches ic (seq [digit; Rep 0 None false (Chr (cls [lit " "; lit "-"]))]))
    lo hi x y ->
  exists l,
    Span x y l
    /\ (l = [] \/ exists a tl, l = a :: tl /\ Char.is_digit a = true)
    /\ Forall (fun a => cardChar a = true) l
    /\ rep_floor lo hi <= length (digitsOnly l)
    /\ (forall h, hi = Some h -> length (digitsOnly l) <= h).
Proof.
  intros H. induction H as [lo hi x Hstop|lo hi x y z Hhi Hxy _ _ IH].
  - exists []. split; [apply Span_refl|]. split; [now left|].
    split; [constructor|]. split.
    + destruct Hstop as [->| ->]; unfold rep_floor; simpl.
      * now rewrite Nat.min_0_r.
      * destruct hi; simpl; lia.
    + simpl. lia.
  - apply card_group_shape in Hxy.
    destruct Hxy as (a & seps & Sg & Da & Ns & Cs).
    destruct IH as (l & Sl & _ & Cl & Hlo & Hhi').
    exists ((a :: seps) ++ l). split; [apply (Span_trans Sg Sl)|].
    split; [right; exists a, (seps ++ l); auto|].
    assert (Hd : digitsOnly ((a :: seps) ++ l) = a :: digitsOnly l).
    { simpl. rewrite Da. f_equal. rewrite digitsOnly_app.
      now rewrite (digitsOnly_nonDigits Ns). }
    rewrite Hd. split.
    + simpl. constructor.
      * unfold cardChar. now rewrite Da.
      * apply Forall_app. split; assumption.
    + split.
      * simpl. unfold rep_floor in *. destruct hi as [h|]; simpl in *; lia.
      * intros h ->. simpl. simpl in Hhi'.
        destruct h as [|h]; [congruence|]. specialize (Hhi' h eq_refl). lia.
Qed.

(** A match of [CARD_CANDIDATE_RE]. *)
Lemma CARD_CANDIDATE_shape x y :
  Matches false (pattern CARD_CANDIDATE_RE) x y ->
  exists l,
    Span x y l /\ cardText l
    /\ notDigitOpt (prev x) /\ notDigitOpt (hd_error (rest y)).
Proof.
  intros H.
  cbn [pattern CARD_CANDIDATE_RE seq fold_right Matches range] in H.
  destruct H as (w & (Hb & ->) & w0 & Hg & w1 & (Ha & ->) & ->).
  apply card_groups_shape in Hg.
  destruct Hg as (l & Sl & Hhd & Hall & Hlo & Hhi).
  unfold rep_floor in Hlo. simpl in Hlo. specialize (Hhi 19 eq_refl).
  exists l. split; [assumption|]. split.
  - split; [|split; [assumption | lia]].
    destruct Hhd as [->|Hhd]; [simpl in Hlo; lia | assumption].
  - split.
    + destruct (prev x); simpl; [|trivial]. now rewrite cmem_digit in Hb.
    + destruct (rest w0); simpl; [trivial|]. now rewrite cmem_digit in Ha.
Qed.

Lemma cmem_AZ a : cmem false (cls [AZ]) a = Char.is_upper a.
Proof. unfold cmem, AZ, rng, code. simpl. zbool. Qed.

Lemma cmem_alnum a : cmem false (cls [AZ; d09]) a = ibanAlnum a.
Proof. unfold cmem, AZ, d09, rng, code, ibanAlnum. simpl. zbool. Qed.

Lemma Forall_forallb (f : Z -> bool) l :
  Forall (fun a => f a = true) l <-> forallb f l = true.
Proof. rewrite forallb_forall, Forall_forall. reflexivity. Qed.

Lemma Forall_eqb (f g : Z -> bool) l :
  (forall a, f a = g a) ->
  Forall (fun a => f a = true) l <-> Forall (fun a => g a = true) l.
Proof.
  intros H. split; apply Forall_impl; intros a; now rewrite H.
Qed.

Theorem IBAN_SHAPE_test s : test IBAN_SHAPE_RE s = ibanShape s.
Proof.
  apply eq_true_iff_eq. rewrite test_true_iff. split.
  - intros (pre & suf & y & Hs & HM).
    cbn [pattern ignoreCase IBAN_SHAPE_RE seq fold_right Matches range times] in HM.
    destruct HM as (w & (Hp & ->) & w0 & Ha & w1 & Hb & w2 & Hc
                    & w3 & (He & ->) & ->).
    simpl in Hp. apply lastp_None in Hp. subst pre. simpl in Hs. subst suf.
    apply RepM_Chr in Ha, Hb, Hc.
    destruct Ha as (a & [Sa _] & _ & Fa & La & Ua).
    destruct Hb as (b & [Sb _] & _ & Fb & Lb & Ub).
    destruct Hc as (c & [Sc _] & _ & Fc & Lc & Uc).
    simpl in Sa. rewrite Sb, Sc, He, app_nil_r in Sa. subst s.
    unfold rep_floor in La, Lb, Lc. simpl in La, Lb, Lc.
    specialize (Ua 2 eq_refl). specialize (Ub 2 eq_refl).
    specialize (Uc 30 eq_refl).
    assert (Ea : length a = 2) by lia. assert (Eb : length b = 2) by lia.
    unfold ibanShape.
    replace (firstn 2 (a ++ b ++ c)) with a
      by (rewrite <- Ea, firstn_app, Nat.sub_diag, firstn_all; simpl;
          now rewrite app_nil_r).
    replace (skipn 2 (a ++ b ++ c)) with (b ++ c)
      by (rewrite <- Ea, skipn_app, Nat.sub_diag, skipn_all; reflexivity).
    replace (firstn 2 (b ++ c)) with b
      by (rewrite <- Eb, firstn_app, Nat.sub_diag, firstn_all; simpl;
          now rewrite app_nil_r).
    replace (skipn 4 (a ++ b ++ c)) with c.
    2:{ replace 4 with (length a + length b) by lia.
        rewrite app_assoc, <- length_app, skipn_app, Nat.sub_diag, skipn_all.
        reflexivity. }
    rewrite !length_app, !andb_true_iff, Nat.leb_le, Nat.leb_le.
    rewrite <- !Forall_forallb.
    repeat split; try lia.
    + apply (Forall_eqb _ _ _ (cmem_AZ)). exact Fa.
    + apply (Forall_eqb _ _ _ (cmem_digit false)). exact Fb.
    + apply (Forall_eqb _ _ _ (cmem_alnum)). exact Fc.
  - unfold ibanShape. rewrite !andb_true_iff, Nat.leb_le, Nat.leb_le.
    rewrite <- !Forall_forallb.
    intros ((((Fa & Fb) & Fc) & Hlo) & Hhi).
    set (a := firstn 2 s) in *. set (b := firstn 2 (skipn 2 s)) in *.
    set (c := skipn 4 s) in *.
    assert (Es : s = a ++ b ++ c).
    { unfold a, b, c. rewrite <- (firstn_skipn 2 s) at 1. f_equal.
      rewrite <- (firstn_skipn 2 (skipn 2 s)) at 1. f_equal.
      now rewrite skipn_skipn. }
    assert (Ea : length a = 2) by (unfold a; rewrite length_firstn; lia).
    assert (Eb : length b = 2)
      by (unfold b; rewrite length_firstn, length_skipn; lia).
    assert (Ec : 11 <= length c <= 30)
      by (unfold c; rewrite length_skipn; lia).
    exists [], s, {| prev := lastp s None; rest := []; cap := None |}.
    split; [reflexivity|].
    cbn [pattern ignoreCase IBAN_SHAPE_RE seq fold_right Matches range times].
    eexists. split; [split; reflexivity|].
    exists {| prev := lastp a None; rest := b ++ c; cap := None |}. split.
    { unfold stateAt. simpl lastp. rewrite Es at 1.
      apply RepM_Chr_intro; [|lia|intros h Hh; inversion Hh; lia].
      apply (Forall_eqb _ _ _ (cmem_AZ)). exact Fa. }
    exists {| prev := lastp b (lastp a None); rest := c; cap := None |}. split.
    { apply RepM_Chr_intro; [|lia|intros h Hh; inversion Hh; lia].
      apply (Forall_eqb _ _ _ (cmem_digit false)). exact Fb. }
    exists {| prev := lastp s None; rest := []; cap := None |}. split.
    { rewrite Es at 1. rewrite !lastp_app. rewrite <- (app_nil_r c) at 1.
      apply RepM_Chr_intro; [|lia|intros h Hh; inversion Hh; lia].
      apply (Forall_eqb _ _ _ (cmem_alnum)). exact Fc. }
    eexists. split; [split; reflexivity | reflexivity].
Qed.

Lemma cmem_space ic a : cmem ic (cls [Space]) a = Char.is_space a.
Proof. unfold cmem. simpl. now rewrite orb_false_r. Qed.

Lemma sameText_refl w : sameText false w w.
Proof. induction w; constructor; auto. Qed.

(** Two literal words joined by [\s*]. *)
Lemma two_words_shape A B x y :
  Matches false (seq [ch A; star space; ch B]) x y ->
  exists ws, spaces ws /\ Span x y (js A ++ ws ++ js B).
Proof.
  cbn [seq fold_right Matches star]. intros (w & HA & w0 & Hs & w1 & HB & ->).
  apply Matches_ch in HA, HB.
  destruct HA as (a & Sa & _ & Ta). destruct HB as (b & Sb & _ & Tb).
  apply sameText_false in Ta, Tb. subst a b.
  apply RepM_Chr in Hs. destruct Hs as (ws & Ss & _ & Hall & _).
  exists ws. split.
  - apply (Forall_eqb _ _ _ (cmem_space false)). exact Hall.
  - apply (Span_trans Sa (Span_trans Ss Sb)).
Qed.

Lemma two_words_intro A B ws p post cp :
  spaces ws ->
  Matches false (seq [ch A; star space; ch B])
    {| prev := p; rest := (js A ++ ws ++ js B) ++ post; cap := cp |}
    {| prev := lastp (js A ++ ws ++ js B) p; rest := post; cap := cp |}.
Proof.
  intros Hws. cbn [seq fold_right Matches star].
  exists {| prev := lastp (js A) p; rest := ws ++ js B ++ post; cap := cp |}.
  split.
  { rewrite <- !app_assoc. apply Matches_lits_intro, sameText_refl. }
  exists {| prev := lastp ws (lastp (js A) p); rest := js B ++ post; cap := cp |}.
  split.
  { apply RepM_Chr_intro; [|lia|discriminate].
    apply (Forall_eqb _ _ _ (cmem_space false)). exact Hws. }
  eexists. split; [|reflexivity].
  rewrite !lastp_app. apply Matches_lits_intro, sameText_refl.
Qed.

Lemma one_word_shape A x y :
  Matches false (ch A) x y -> Span x y (js A).
Proof.
  intros H. apply Matches_ch in H. destruct H as (a & Sa & _ & Ta).
  apply sameText_false in Ta. now subst a.
Qed.

Lemma one_word_intro A p post cp :
  Matches false (ch A)
    {| prev := p; rest := js A ++ post; cap := cp |}
    {| prev := lastp (js A) p; rest := post; cap := cp |}.
Proof. apply Matches_lits_intro, sameText_refl. Qed.

(** A label starts and ends with a letter. *)
Lemma cardKeyword_ends w :
  cardKeyword w ->
  (exists a tl, w = a :: tl /\ Char.is_word a = true)
  /\ (exists b, Char.is_word b = true /\ forall p, lastp w p = Some b).
Proof.
  intros H. unfold cardKeyword in H.
  repeat match goal with
         | H : _ \/ _ |- _ => destruct H as [H|H]
         | H : exists ws, _ |- _ => destruct H as (ws & _ & H)
         end; subst w.
  all: split; [eexists; eexists; split; reflexivity|].
  all: eexists; split; [|intros p; rewrite ?lastp_app; reflexivity]; reflexivity.
Qed.

Lemma boundary_before (x : state) a tl :
  rest x = a :: tl -> Char.is_word a = true ->
  at_word_boundary x = negb (is_word_opt (prev x)).
Proof.
  intros Hr Ha. unfold at_word_boundary. rewrite Hr. simpl. rewrite Ha.
  now destruct (is_word_opt (prev x)).
Qed.

Lemma boundary_after (x : state) b :
  prev x = Some b -> Char.is_word b = true ->
  at_word_boundary x = negb (is_word_opt (hd_error (rest x))).
Proof.
  intros Hp Hb. unfold at_word_boundary. rewrite Hp. simpl. rewrite Hb.
  reflexivity.
Qed.

(** The label alternatives of [CARD_KEYWORD_RE]. *)
Definition keyword_alts : regex :=
  alt (seq [ ch "credit"; star space; ch "card" ])
    [ seq [ ch "debit"; star space; ch "card" ];
      seq [ ch "card"; star space; ch "number" ];
      ch "visa"; ch "mastercard"; ch "amex";
      seq [ ch "american"; star space; ch "express" ] ].

Lemma keyword_alts_shape x y :
  Matches false keyword_alts x y -> exists w, cardKeyword w /\ Span x y w.
Proof.
  unfold keyword_alts. cbn [alt fold_left]. cbn [Matches].
  intros H.
  repeat match goal with H : _ \/ _ |- _ => destruct H as [H|H] end;
    first [ apply two_words_shape in H; destruct H as (ws & Hws & HS);
            eexists; split; [|exact HS]; unfold cardKeyword; eauto 10
          | apply one_word_shape in H;
            eexists; split; [|exact H]; unfold cardKeyword; eauto 10 ].
Qed.

Lemma keyword_alts_intro w p post cp :
  cardKeyword w ->
  Matches false keyword_alts
    {| prev := p; rest := w ++ post; cap := cp |}
    {| prev := lastp w p; rest := post; cap := cp |}.
Proof.
  unfold keyword_alts. cbn [alt fold_left]. cbn [Matches].
  intros H. unfold cardKeyword in H.
  destruct H as [(ws & Hws & ->)|[(ws & Hws & ->)|[(ws & Hws & ->)|[->|[->|
                [->|(ws & Hws & ->)]]]]]].
  - do 6 left. now apply two_words_intro.
  - do 5 left. right. now apply two_words_intro.
  - do 4 left. right. now apply two_words_intro.
  - do 3 left. right. apply one_word_intro.
  - do 2 left. right. apply one_word_intro.
  - left. right. apply one_word_intro.
  - right. now apply two_words_intro.
Qed.

(** The keyword test of [findCreditCards] holds exactly when a label
    stands in the context as a whole word. *)
Theorem CARD_KEYWORD_test ctx :
  test CARD_KEYWORD_RE ctx = true <-> keywordInContext ctx.
Proof.
  rewrite test_true_iff. split.
  - intros (pre & suf & y & Hs & HM).
    change (pattern CARD_KEYWORD_RE) with (seq [WordB; keyword_alts; WordB]) in HM.
    cbn [ignoreCase CARD_KEYWORD_RE seq fold_right Matches] in HM.
    destruct HM as (w & (Hb1 & ->) & w0 & Hk & w1 & (Hb2 & ->) & ->).
    apply keyword_alts_shape in Hk. destruct Hk as (kw & Hkw & [S1 S2]).
    destruct (cardKeyword_ends Hkw) as ((a & tl & Ea & Wa) & (b & Wb & Lb)).
    simpl in S1, S2. exists pre, kw, (rest w0).
    split; [now rewrite Hs, S1|]. split; [assumption|]. split.
    + rewrite (@boundary_before _ a (tl ++ rest w0)) in Hb1; auto.
      * simpl in Hb1. now destruct (is_word_opt (lastp pre None)).
      * simpl. rewrite S1, Ea. reflexivity.
    + rewrite (@boundary_after _ b) in Hb2; auto.
      * now destruct (is_word_opt (hd_error (rest w0))).
      * rewrite S2. apply Lb.
  - intros (pre & kw & post & Hs & Hkw & Hpre & Hpost).
    destruct (cardKeyword_ends Hkw) as ((a & tl & Ea & Wa) & (b & Wb & Lb)).
    exists pre, (kw ++ post),
      {| prev := lastp kw (lastp pre None); rest := post; cap := None |}.
    split; [assumption|].
    change (pattern CARD_KEYWORD_RE) with (seq [WordB; keyword_alts; WordB]).
    cbn [ignoreCase CARD_KEYWORD_RE seq fold_right Matches].
    eexists. split; [split; [|reflexivity]|].
    { rewrite (@boundary_before _ a (tl ++ post)); auto.
      - simpl. now rewrite Hpre.
      - simpl. now rewrite Ea. }
    eexists. split; [apply keyword_alts_intro; assumption|].
    eexists. split; [split; [|reflexivity] | reflexivity].
    rewrite (@boundary_after _ b); auto.
    + simpl. now rewrite Hpost.
    + simpl. apply Lb.
Qed.

(** A repetition of matches made of code units of one kind is made of
    code units of that kind. *)
Lemma RepM_Forall (R : state -> state -> Prop) (P : Z -> Prop) :
  (forall x y, R x y -> exists l, Span x y l /\ Forall P l) ->
  forall lo hi x y, RepM R lo hi x y -> exists l, Span x y l /\ Forall P l.
Proof.
  intros HR lo hi x y H. induction H as [lo hi x _|lo hi x y z _ Hxy _ _ IH].
  - exists []. split; [apply Span_refl | constructor].
  - destruct (HR _ _ Hxy) as (l1 & S1 & F1). destruct IH as (l2 & S2 & F2).
    exists (l1 ++ l2). split; [apply (Span_trans S1 S2)|].
    apply Forall_app. now split.
Qed.

Lemma cmem_AZ_ic a :
  cmem true (cls [AZ]) a = Char.is_upper a || Char.is_lower a.
Proof. unfold cmem, AZ, rng, code. simpl. zbool. Qed.

Lemma cmem_alnum_ic a :
  cmem true (cls [AZ; d09]) a
  = Char.is_upper a || Char.is_lower a || Char.is_digit a.
Proof. unfold cmem, AZ, d09, rng, code. simpl. zbool. Qed.

Lemma cmem_blank ic a : cmem ic (cls [lit " "]) a = (a =? 32)%Z.
Proof.
  unfold cmem, lit, code. simpl. unfold canonicalize.
  destruct ic; zbool.
Qed.

(** A match of [IBAN_CANDIDATE_RE] is made of ASCII letters, digits and
    blanks. *)
Lemma IBAN_CANDIDATE_shape x y :
  Matches true (pattern IBAN_CANDIDATE_RE) x y ->
  exists l, Span x y l /\ Forall (fun a => ibanCandidateUnit a = true) l.
Proof.
  intros H.
  cbn [pattern IBAN_CANDIDATE_RE seq fold_right Matches times range] in H.
  destruct H as (w & (_ & ->) & w0 & Ha & w1 & Hb & w2 & Hg & w3 & (_ & ->) & ->).
  apply RepM_Chr in Ha, Hb.
  destruct Ha as (a & Sa & _ & Fa & _). destruct Hb as (b & Sb & _ & Fb & _).
  apply (@RepM_Forall _ (fun a => ibanCandidateUnit a = true)) in Hg.
  - destruct Hg as (g & Sg & Fg). exists (a ++ b ++ g).
    split; [apply (Span_trans Sa (Span_trans Sb Sg))|].
    apply Forall_app. split; [|apply Forall_app; split; [|exact Fg]].
    + eapply Forall_impl; [|exact Fa]. intros c Hc. cbv beta in Hc.
      rewrite cmem_AZ_ic in Hc. unfold ibanCandidateUnit.
      destruct (Char.is_upper c), (Char.is_lower c); simpl in *; congruence.
    + eapply Forall_impl; [|exact Fb]. intros c Hc. cbv beta in Hc.
      rewrite cmem_digit in Hc. unfold ibanCandidateUnit. rewrite Hc.
      now rewrite !orb_true_r.
  - intros u v Huv. cbn [opt Matches] in Huv.
    destruct Huv as (u1 & Ho & u2 & Hc & ->).
    apply RepM_Chr in Ho. destruct Ho as (o & So & _ & Fo & _).
    apply Matches_Chr in Hc. destruct Hc as (c & Sc & Cc & _).
    exists (o ++ [c]). split; [apply (Span_trans So Sc)|].
    apply Forall_app. split.
    + eapply Forall_impl; [|exact Fo]. intros c' Hc'. cbv beta in Hc'.
      rewrite cmem_blank in Hc'. unfold ibanCandidateUnit. rewrite Hc'.
      now rewrite !orb_true_r.
    + constructor; [|constructor]. rewrite cmem_alnum_ic in Cc.
      unfold ibanCandidateUnit. rewrite Cc. reflexivity.
Qed.

End Shapes.

(* ===================================================================== *)
(** ** The loops of the module as first-occurrence filters *)
(* ===================================================================== *)

(** What each loop body offers to its map for one match: [None] where the
    source says [continue], otherwise the key and the surface form. *)

Definition matchAllUnique_entry (m : MatchResult) : option (jsstring * jsstring) :=
  let raw := trim (m0 m) in
  if isEmpty raw then None else Some (toLowerCase raw, raw).

Definition ssnLast4_entry (m : MatchResult) : option (jsstring * jsstring) :=
  let last4 := trim (orEmpty (m1 m)) in
  if negb (test FOUR_DIGITS_RE last4) then None
  else if (Number last4 >=? 1900)%Z && (Number last4 <=? 2099)%Z then None
  else Some (last4, last4).

Definition card_entry (text : jsstring) (m : MatchResult)
  : option (jsstring * jsstring) :=
  let raw := trim (m0 m) in
  let digits := digitsOnly raw in
  if (len digits <? 13)%Z || (len digits >? 19)%Z then None
  else if negb (luhnCheck digits)
          && negb (test CARD_KEYWORD_RE
                     (if (index m >=? 0)%Z then cardContext text (index m) raw
                      else []))
       then None
       else Some (digits, raw).

Definition iban_entry (m : MatchResult) : option (jsstring * jsstring) :=
  let raw := trim (m0 m) in
  let normalized := toUpperCase (stripSpaces raw) in
  if negb (isValidIban normalized) then None else Some (normalized, raw).

Definition routing_entry (m : MatchResult) : option (jsstring * jsstring) :=
  let raw := trim (orEmpty (m1 m)) in
  if negb (test NINE_DIGITS_RE raw) then None
  else Some (js "routing:" ++ raw, raw).

Definition account_entry (m : MatchResult) : option (jsstring * jsstring) :=
  let raw := trim (orEmpty (m1 m)) in
  if negb (test ACCOUNT_DIGITS_RE raw) then None
  else Some (js "account:" ++ raw, raw).

Definition sort_entry (m : MatchResult) : option (jsstring * jsstring) :=
  let raw := trim (orEmpty (m1 m)) in
  let digits := digitsOnly raw in
  if negb (len digits =? 6)%Z then None
  else Some (js "sort:" ++ digits, raw).

(** The entries a scan keeps: the first offer of every key, in scan order. *)
Definition kept (entry : MatchResult -> option (jsstring * jsstring))
    (re : RegExp) (text : jsstring) : JsMap.t :=
  firstByKey [] (offered entry (execAll re text)).

Definition tag (t : SensitiveType) (values : list jsstring) : list SensitiveMatch :=
  List.map (fun v => {| type := t; value := v |}) values.

Section Families.

Lemma matchAllUnique_body_entry m u :
  matchAllUnique_body m u = insertNew (matchAllUnique_entry m) u.
Proof.
  unfold matchAllUnique_body, matchAllUnique_entry, insertNew.
  now destruct (isEmpty (trim (m0 m))).
Qed.

Lemma findSsnLast4_body_entry m u :
  findSsnLast4_body m u = insertNew (ssnLast4_entry m) u.
Proof.
  unfold findSsnLast4_body, ssnLast4_entry, insertNew.
  destruct (negb (test FOUR_DIGITS_RE _)); [reflexivity|].
  now destruct (_ && _).
Qed.

Lemma findCreditCards_body_entry text m u :
  findCreditCards_body text m u = insertNew (card_entry text m) u.
Proof.
  unfold findCreditCards_body, card_entry, insertNew.
  destruct (_ || _); [reflexivity|]. now destruct (_ && _).
Qed.

Lemma iban_body_entry m u : iban_body m u = insertNew (iban_entry m) u.
Proof.
  unfold iban_body, iban_entry, insertNew. now destruct (negb (isValidIban _)).
Qed.

Lemma routing_body_entry m u : routing_body m u = insertNew (routing_entry m) u.
Proof.
  unfold routing_body, routing_entry, insertNew. now destruct (negb (test _ _)).
Qed.

Lemma account_body_entry m u : account_body m u = insertNew (account_entry m) u.
Proof.
  unfold account_body, account_entry, insertNew. now destruct (negb (test _ _)).
Qed.

Lemma sort_body_entry m u : sort_body m u = insertNew (sort_entry m) u.
Proof.
  unfold sort_body, sort_entry, insertNew. now destruct (negb (_ =? _)%Z).
Qed.

Lemma matchAllUnique_map_kept text re :
  matchAllUnique_map text re = kept matchAllUnique_entry re text.
Proof.
  unfold matchAllUnique_map, kept.
  now rewrite (scanLoop_insertNew _ _ _ _ _ matchAllUnique_body_entry).
Qed.

Lemma findSsnLast4_map_kept text :
  findSsnLast4_map text = kept ssnLast4_entry SSN_LAST4_CONTEXT_RE text.
Proof.
  unfold findSsnLast4_map, kept.
  now rewrite (scanLoop_insertNew _ _ _ _ _ findSsnLast4_body_entry).
Qed.

Lemma findCreditCards_map_kept text :
  findCreditCards_map text = kept (card_entry text) CARD_CANDIDATE_RE text.
Proof.
  unfold findCreditCards_map, kept.
  now rewrite (scanLoop_insertNew _ _ _ _ _ (findCreditCards_body_entry text)).
Qed.

Lemma matchAllUnique_kept text re :
  matchAllUnique text re = JsMap.values (kept matchAllUnique_entry re text).
Proof. unfold matchAllUnique. now rewrite matchAllUnique_map_kept. Qed.

Lemma findSsnLast4_kept text :
  findSsnLast4 text = JsMap.values (kept ssnLast4_entry SSN_LAST4_CONTEXT_RE text).
Proof. unfold findSsnLast4. now rewrite findSsnLast4_map_kept. Qed.

Lemma findCreditCards_kept text :
  findCreditCards text
  = JsMap.values (kept (card_entry text) CARD_CANDIDATE_RE text).
Proof. unfold findCreditCards. now rewrite findCreditCards_map_kept. Qed.

Lemma pushAll_tag t values out : pushAll t values out = out ++ tag t values.
Proof.
  unfold pushAll, tag. revert out.
  induction values as [|v values IH]; intros out; simpl.
  - now rewrite app_nil_r.
  - rewrite IH. now rewrite <- app_assoc.
Qed.

(** The result list in terms of the functions of the module. *)
Lemma findSensitiveMatches_app text :
  findSensitiveMatches text
  = tag email (matchAllUnique text EMAIL_RE)
    ++ tag ssn (matchAllUnique text SSN_RE)
    ++ tag ssn (findSsnLast4 text)
    ++ tag phone (matchAllUnique text PHONE_RE)
    ++ tag card (findCreditCards text)
    ++ tag bank (findBankAccounts text)
    ++ tag insurancePolicy (matchAllUnique text INS_POLICY_RE)
    ++ tag employeeId (matchAllUnique text EMPLOYEE_ID_RE)
    ++ tag medicalRecordNumber (matchAllUnique text MRN_RE).
Proof.
  unfold findSensitiveMatches. rewrite !pushAll_tag. simpl.
  now rewrite <- !app_assoc.
Qed.

Lemma firstByKey_fresh l : forall s1 s2,
  (forall e, In e l -> ~ In (fst e) s1) ->
  firstByKey (s1 ++ s2) l = firstByKey s2 l.
Proof.
  induction l as [|[k v] l IH]; intros s1 s2 H; simpl; [reflexivity|].
  assert (Hk : memb k (s1 ++ s2) = memb k s2).
  { unfold memb. rewrite existsb_app.
    assert (Hn : ~ In k s1) by (apply (H (k, v)); now left).
    apply memb_false in Hn. unfold memb in Hn. now rewrite Hn. }
  rewrite Hk. destruct (memb k s2).
  - apply IH. intros e He. apply H. now right.
  - f_equal. rewrite <- app_assoc. apply IH. intros e He. apply H. now right.
Qed.

Lemma kept_In entry re text e :
  In e (kept entry re text) ->
  exists r, In r (execAll re text) /\ entry r = Some e.
Proof.
  unfold kept. intros H. apply firstByKey_In in H. destruct H as [H _].
  now apply offered_In.
Qed.

Lemma kept_NoDup entry re text : NoDup (JsMap.keys (kept entry re text)).
Proof. apply firstByKey_NoDup. Qed.

End Families.

(* ===================================================================== *)
(** ** The four loops of [findBankAccounts] do not interfere *)
(* ===================================================================== *)

Section BankKeys.

Lemma kept_keys_Forall (P : jsstring -> Prop) entry re text :
  (forall r k v, entry r = Some (k, v) -> P k) ->
  Forall P (JsMap.keys (kept entry re text)).
Proof.
  intros H. apply Forall_forall. intros k Hk.
  unfold JsMap.keys in Hk. apply in_map_iff in Hk.
  destruct Hk as ([k' v] & <- & Hin). apply kept_In in Hin.
  destruct Hin as (r & _ & Hr). eapply H; eauto.
Qed.

Lemma kept_values_Forall (P : jsstring -> Prop) entry re text :
  (forall r k v, entry r = Some (k, v) -> P v) ->
  Forall P (JsMap.values (kept entry re text)).
Proof.
  intros H. apply Forall_forall. intros v Hv.
  unfold JsMap.values in Hv. apply in_map_iff in Hv.
  destruct Hv as ([k v'] & <- & Hin). apply kept_In in Hin.
  destruct Hin as (r & _ & Hr). eapply H; eauto.
Qed.

(** The first code unit tells the four kinds of key apart. *)
Definition keyHead (k : jsstring) : Z := hd 0%Z k.

Lemma isValidIban_shape k : isValidIban k = true -> ibanShape k = true.
Proof.
  unfold isValidIban. rewrite Shapes.IBAN_SHAPE_test.
  destruct (ibanShape k); [reflexivity | discriminate].
Qed.

Lemma iban_key_head r k v :
  iban_entry r = Some (k, v) -> Char.is_upper (keyHead k) = true.
Proof.
  unfold iban_entry. destruct (isValidIban _) eqn:Hv; simpl; [|discriminate].
  intros H. inversion H; subst. apply isValidIban_shape in Hv.
  unfold ibanShape in Hv. destruct (toUpperCase _) as [|a l]; simpl in Hv.
  - discriminate.
  - unfold keyHead. simpl. destruct (Char.is_upper a); [reflexivity|discriminate].
Qed.

Lemma routing_key_head r k v :
  routing_entry r = Some (k, v) -> keyHead k = 114%Z.
Proof.
  unfold routing_entry. destruct (negb _); [discriminate|].
  intros H. now inversion H.
Qed.

Lemma account_key_head r k v :
  account_entry r = Some (k, v) -> keyHead k = 97%Z.
Proof.
  unfold account_entry. destruct (negb _); [discriminate|].
  intros H. now inversion H.
Qed.

Lemma sort_key_head r k v :
  sort_entry r = Some (k, v) -> keyHead k = 115%Z.
Proof.
  unfold sort_entry. destruct (negb _); [discriminate|].
  intros H. now inversion H.
Qed.

(** A loop started on a map whose keys it cannot offer adds what it
    would have kept on an empty map. *)
Lemma scanLoop_disjoint entry re text body (u : JsMap.t) (P Q : jsstring -> Prop) :
  (forall r st, body r st = insertNew (entry r) st) ->
  (forall r k v, entry r = Some (k, v) -> Q k) ->
  Forall P (JsMap.keys u) ->
  (forall k, P k -> Q k -> False) ->
  scanLoop re text body u = u ++ kept entry re text.
Proof.
  intros Hbody HQ HP Hdis.
  rewrite (scanLoop_insertNew entry re text body u Hbody).
  f_equal. unfold kept. rewrite <- (app_nil_r (JsMap.keys u)).
  apply firstByKey_fresh. intros [k v] He Hin. simpl in Hin.
  apply offered_In in He. destruct He as (r & _ & Hr).
  rewrite Forall_forall in HP. eapply Hdis; eauto.
Qed.

Theorem bankMap_families text :
  bankMap text
  = kept iban_entry IBAN_CANDIDATE_RE text
    ++ kept routing_entry ROUTING_RE text
    ++ kept account_entry ACCOUNT_RE text
    ++ kept sort_entry SORT_CODE_RE text.
Proof.
  unfold bankMap.
  pose proof (@kept_keys_Forall _ _ IBAN_CANDIDATE_RE text iban_key_head) as Hi.
  pose proof (@kept_keys_Forall _ _ ROUTING_RE text routing_key_head) as Hr.
  pose proof (@kept_keys_Forall _ _ ACCOUNT_RE text account_key_head) as Ha.
  assert (E1 : scanLoop IBAN_CANDIDATE_RE text iban_body JsMap.empty
               = kept iban_entry IBAN_CANDIDATE_RE text).
  { now rewrite (scanLoop_insertNew _ _ _ _ _ iban_body_entry). }
  rewrite E1.
  rewrite (@scanLoop_disjoint routing_entry ROUTING_RE text routing_body
             (kept iban_entry IBAN_CANDIDATE_RE text)
             (fun k => Char.is_upper (keyHead k) = true)
             (fun k => keyHead k = 114%Z)
             routing_body_entry routing_key_head Hi)
    by (intros k H1 H2; rewrite H2 in H1; discriminate).
  rewrite (@scanLoop_disjoint account_entry ACCOUNT_RE text account_body _
             (fun k => Char.is_upper (keyHead k) = true \/ keyHead k = 114%Z)
             (fun k => keyHead k = 97%Z)
             account_body_entry account_key_head).
  2:{ unfold JsMap.keys. rewrite map_app. apply Forall_app. split.
      - eapply Forall_impl; [|exact Hi]. intros; now left.
      - eapply Forall_impl; [|exact Hr]. intros; now right. }
  2:{ intros k [H1|H1] H2; rewrite H2 in H1; discriminate. }
  rewrite (@scanLoop_disjoint sort_entry SORT_CODE_RE text sort_body _
             (fun k => Char.is_upper (keyHead k) = true
                       \/ keyHead k = 114%Z \/ keyHead k = 97%Z)
             (fun k => keyHead k = 115%Z)
             sort_body_entry sort_key_head).
  2:{ unfold JsMap.keys. rewrite !map_app.
      apply Forall_app; split; [apply Forall_app; split|].
      - eapply Forall_impl; [|exact Hi]. intros; now left.
      - eapply Forall_impl; [|exact Hr]. intros; right; now left.
      - eapply Forall_impl; [|exact Ha]. intros; right; now right. }
  2:{ intros k [H1|[H1|H1]] H2; rewrite H2 in H1; discriminate. }
  now rewrite <- !app_assoc.
Qed.

End BankKeys.

(* ===================================================================== *)
(** ** Order of the result list *)
(* ===================================================================== *)

(** The order of families as the specification lists it: email, phone,
    ssn (direct, then last four), card, bank, insurancePolicy, employeeId,
    medicalRecordNumber. *)
Definition claimedOrder (text : jsstring) : list SensitiveMatch :=
  tag email (matchAllUnique text EMAIL_RE)
  ++ tag phone (matchAllUnique text PHONE_RE)
  ++ tag ssn (matchAllUnique text SSN_RE)
  ++ tag ssn (findSsnLast4 text)
  ++ tag card (findCreditCards text)
  ++ tag bank (findBankAccounts text)
  ++ tag insurancePolicy (matchAllUnique text INS_POLICY_RE)
  ++ tag employeeId (matchAllUnique text EMPLOYEE_ID_RE)
  ++ tag medicalRecordNumber (matchAllUnique text MRN_RE).

(** C1, as stated, fails: on a text with a phone number followed by an SSN
    the SSN match comes first in the result, while the stated order puts
    the phone match first. *)
Lemma C1_order_counterexample :
  findSensitiveMatches (js "212-555-1212 and 123-45-6789")
  = [ {| type := ssn; value := js "123-45-6789" |};
      {| type := phone; value := js "212-555-1212" |} ]
  /\ findSensitiveMatches (js "212-555-1212 and 123-45-6789")
     <> claimedOrder (js "212-555-1212 and 123-45-6789").
Proof.
  split.
  - vm_compute. reflexivity.
  - intros H. vm_compute in H. discriminate H.
Qed.

(** C1, amended: for every text the result is the concatenation of the
    per-family results in the order email, ssn (direct, then last four),
    phone, card, bank (IBAN, routing, account, sort code),
    insurancePolicy, employeeId, medicalRecordNumber, and each family
    lists the first offer of every key in the order of the scan. *)
Theorem C1_families_in_source_order (text : jsstring) :
  findSensitiveMatches text
  = tag email (JsMap.values (kept matchAllUnique_entry EMAIL_RE text))
    ++ tag ssn (JsMap.values (kept matchAllUnique_entry SSN_RE text))
    ++ tag ssn (JsMap.values (kept ssnLast4_entry SSN_LAST4_CONTEXT_RE text))
    ++ tag phone (JsMap.values (kept matchAllUnique_entry PHONE_RE text))
    ++ tag card (JsMap.values (kept (card_entry text) CARD_CANDIDATE_RE text))
    ++ tag bank (JsMap.values (kept iban_entry IBAN_CANDIDATE_RE text)
                 ++ JsMap.values (kept routing_entry ROUTING_RE text)
                 ++ JsMap.values (kept account_entry ACCOUNT_RE text)
                 ++ JsMap.values (kept sort_entry SORT_CODE_RE text))
    ++ tag insurancePolicy
         (JsMap.values (kept matchAllUnique_entry INS_POLICY_RE text))
    ++ tag employeeId
         (JsMap.values (kept matchAllUnique_entry EMPLOYEE_ID_RE text))
    ++ tag medicalRecordNumber
         (JsMap.values (kept matchAllUnique_entry MRN_RE text)).
Proof.
  rewrite findSensitiveMatches_app.
  rewrite !matchAllUnique_kept, findSsnLast4_kept, findCreditCards_kept.
  unfold findBankAccounts. rewrite bankMap_families.
  unfold JsMap.values. now rewrite !map_app.
Qed.

(* ===================================================================== *)
(** ** Prefix-coded identifiers *)
(* ===================================================================== *)

(** C9: the three sample identifiers are found, each as the only match of
    its text and with the whole token as value. *)
Theorem C9_prefix_identifiers :
  findSensitiveMatches (js "INS-44556677")
  = [ {| type := insurancePolicy; value := js "INS-44556677" |} ]
  /\ findSensitiveMatches (js "EMP-2024-5567")
     = [ {| type := employeeId; value := js "EMP-2024-5567" |} ]
  /\ findSensitiveMatches (js "MRN- 998877")
     = [ {| type := medicalRecordNumber; value := js "MRN- 998877" |} ].
Proof.
  repeat split; vm_compute; reflexivity.
Qed.

(* ===================================================================== *)
(** ** Values are non-empty and trimmed *)
(* ===================================================================== *)

(** A non-empty string whose first and last code units are not white
    space. *)
Definition trimmedNonEmpty (v : jsstring) : Prop :=
  v <> []
  /\ Char.is_space (hd 0%Z v) = false
  /\ Char.is_space (last v 0%Z) = false.

Section Trim.

Lemma trimStart_hd s a tl : trimStart s = a :: tl -> Char.is_space a = false.
Proof.
  induction s as [|b s IH]; simpl; [discriminate|].
  destruct (Char.is_space b) eqn:Hb; [assumption|].
  intros H. inversion H; subst. assumption.
Qed.

Lemma trimStart_split s : exists ws, spaces ws /\ s = ws ++ trimStart s.
Proof.
  induction s as [|b s (ws & Hws & IH)]; simpl.
  - exists []. split; [constructor | reflexivity].
  - destruct (Char.is_space b) eqn:Hb.
    + exists (b :: ws). split; [constructor; assumption|]. simpl. now f_equal.
    + exists []. split; [constructor | reflexivity].
Qed.

Lemma trimStart_id s :
  Char.is_space (hd 0%Z s) = false -> trimStart s = s.
Proof.
  destruct s as [|a s]; simpl; [reflexivity|]. now intros ->.
Qed.

(** [trim] removes a run of white space at the end of [trimStart s]. *)
Lemma trim_split s : exists ws, spaces ws /\ trimStart s = trim s ++ ws.
Proof.
  unfold trim, trimEnd.
  destruct (trimStart_split (rev (trimStart s))) as (ws & Hws & H).
  exists (rev ws). split.
  - unfold spaces in *. apply Forall_rev. assumption.
  - rewrite <- (rev_involutive (trimStart s)) at 1. rewrite H at 1.
    now rewrite rev_app_distr.
Qed.

Lemma trim_trimmed s : trim s <> [] -> trimmedNonEmpty (trim s).
Proof.
  intros Hne. split; [assumption|]. split.
  - destruct (trim_split s) as (ws & _ & H).
    destruct (trim s) as [|a tl] eqn:Ht; [congruence|]. simpl.
    simpl in H. eapply trimStart_hd; eauto.
  - unfold trim, trimEnd in *.
    destruct (trimStart (rev (trimStart s))) as [|b u] eqn:Hu;
      [simpl in Hne; congruence|].
    simpl. rewrite last_last. eapply trimStart_hd; eauto.
Qed.

Lemma trim_id s : trimmedNonEmpty s -> trim s = s.
Proof.
  intros (Hne & Hh & Hl). unfold trim, trimEnd.
  rewrite (trimStart_id _ Hh).
  rewrite trimStart_id; [apply rev_involutive|].
  destruct s as [|a s] using rev_ind; [congruence|].
  rewrite last_last in Hl. rewrite rev_app_distr. simpl. assumption.
Qed.

Lemma digitsOnly_spaces ws : spaces ws -> digitsOnly ws = [].
Proof.
  induction 1 as [|a ws Ha _ IH]; simpl; [reflexivity|].
  replace (Char.is_digit a) with false; [assumption|].
  unfold Char.is_space in Ha. zbool.
Qed.

Lemma digitsOnly_trim s : digitsOnly (trim s) = digitsOnly s.
Proof.
  destruct (trimStart_split s) as (w1 & Hw1 & H1).
  destruct (trim_split s) as (w2 & Hw2 & H2).
  rewrite H1 at 2. rewrite H2. unfold digitsOnly. rewrite !filter_app.
  fold (digitsOnly w1). fold (digitsOnly w2).
  rewrite (digitsOnly_spaces Hw1), (digitsOnly_spaces Hw2).
  simpl. now rewrite app_nil_r.
Qed.

Lemma isEmpty_false s : isEmpty s = false -> s <> [].
Proof. destruct s; [discriminate | congruence]. Qed.

Lemma len_nonempty s (n : Z) : (0 < n)%Z -> len s = n -> s <> [].
Proof. intros Hn Hl ->. unfold len in Hl. simpl in Hl. lia. Qed.

End Trim.

Section EntryValues.

Lemma matchAllUnique_entry_value r k v :
  matchAllUnique_entry r = Some (k, v) ->
  v = trim (m0 r) /\ k = toLowerCase v /\ trimmedNonEmpty v.
Proof.
  unfold matchAllUnique_entry. destruct (isEmpty _) eqn:He; [discriminate|].
  intros H. inversion H; subst. repeat split; try reflexivity;
    apply trim_trimmed; now apply isEmpty_false.
Qed.

(** A string accepted by an anchored test is not empty. *)
Lemma test_trim_nonempty re o :
  test re [] = false ->
  test re (trim o) = true -> trimmedNonEmpty (trim o).
Proof.
  intros H0 H. apply trim_trimmed. intros He. rewrite He in H. congruence.
Qed.

Lemma ssnLast4_entry_value r k v :
  ssnLast4_entry r = Some (k, v) ->
  v = trim (orEmpty (m1 r)) /\ k = v
  /\ test FOUR_DIGITS_RE v = true
  /\ ((Number v >=? 1900)%Z && (Number v <=? 2099)%Z) = false
  /\ trimmedNonEmpty v.
Proof.
  unfold ssnLast4_entry. destruct (test FOUR_DIGITS_RE _) eqn:Ht; [|discriminate].
  simpl. destruct (_ && _) eqn:Hy; [discriminate|].
  intros H. inversion H; subst. repeat split; try assumption.
  all: eapply test_trim_nonempty; [|exact Ht]; reflexivity.
Qed.

Lemma card_entry_value text r k v :
  card_entry text r = Some (k, v) ->
  v = trim (m0 r) /\ k = digitsOnly v
  /\ (13 <= len k <= 19)%Z /\ trimmedNonEmpty v.
Proof.
  unfold card_entry. destruct (_ || _) eqn:Hl; [discriminate|].
  destruct (_ && _); [discriminate|].
  intros H. inversion H; subst.
  apply orb_false_iff in Hl. destruct Hl as [H1 H2].
  apply Z.ltb_ge in H1. rewrite Z.gtb_ltb in H2. apply Z.ltb_ge in H2.
  repeat split; try assumption; apply trim_trimmed; intros He;
    rewrite He in H1; unfold len in H1; simpl in H1; lia.
Qed.

Lemma iban_entry_value r k v :
  iban_entry r = Some (k, v) ->
  v = trim (m0 r) /\ k = toUpperCase (stripSpaces v)
  /\ isValidIban k = true /\ trimmedNonEmpty v.
Proof.
  unfold iban_entry. destruct (isValidIban _) eqn:Hv; [|discriminate].
  intros H. inversion H; subst. repeat split; try assumption;
    apply trim_trimmed; intros He; rewrite He in Hv; discriminate.
Qed.

Lemma routing_entry_value r k v :
  routing_entry r = Some (k, v) ->
  v = trim (orEmpty (m1 r)) /\ k = js "routing:" ++ v
  /\ test NINE_DIGITS_RE v = true /\ trimmedNonEmpty v.
Proof.
  unfold routing_entry. destruct (test NINE_DIGITS_RE _) eqn:Ht; [|discriminate].
  intros H. inversion H; subst. repeat split; try assumption.
  all: eapply test_trim_nonempty; [|exact Ht]; reflexivity.
Qed.

Lemma account_entry_value r k v :
  account_entry r = Some (k, v) ->
  v = trim (orEmpty (m1 r)) /\ k = js "account:" ++ v
  /\ test ACCOUNT_DIGITS_RE v = true /\ trimmedNonEmpty v.
Proof.
  unfold account_entry.
  destruct (test ACCOUNT_DIGITS_RE _) eqn:Ht; [|discriminate].
  intros H. inversion H; subst. repeat split; try assumption.
  all: eapply test_trim_nonempty; [|exact Ht]; reflexivity.
Qed.

Lemma sort_entry_value r k v :
  sort_entry r = Some (k, v) ->
  v = trim (orEmpty (m1 r)) /\ k = js "sort:" ++ digitsOnly v
  /\ len (digitsOnly v) = 6%Z /\ trimmedNonEmpty v.
Proof.
  unfold sort_entry. destruct (_ =? _)%Z eqn:Hl; [|discriminate].
  intros H. inversion H; subst. apply Z.eqb_eq in Hl.
  repeat split; try assumption; apply trim_trimmed; intros He;
    rewrite He in Hl; unfold len in Hl; simpl in Hl; lia.
Qed.

End EntryValues.

(** C8: every match of the result has a non-empty value without white
    space at either end. *)
Theorem C8_values_nonempty_trimmed (text : jsstring) :
  Forall (fun m => trimmedNonEmpty (value m)) (findSensitiveMatches text).
Proof.
  assert (Htag : forall t l, Forall trimmedNonEmpty l ->
                   Forall (fun m => trimmedNonEmpty (value m)) (tag t l)).
  { intros t l H. unfold tag. apply Forall_map. exact H. }
  assert (Hu : forall re, Forall trimmedNonEmpty (matchAllUnique text re)).
  { intros re. rewrite matchAllUnique_kept. apply kept_values_Forall.
    intros r k v H. now apply matchAllUnique_entry_value in H. }
  assert (Happ : forall (P : SensitiveMatch -> Prop) a b,
             Forall P a -> Forall P b -> Forall P (a ++ b)).
  { intros P a b Ha Hb. apply Forall_app. now split. }
  rewrite findSensitiveMatches_app.
  repeat apply Happ; apply Htag; try apply Hu.
  - rewrite findSsnLast4_kept. apply kept_values_Forall.
    intros r k v H. now apply ssnLast4_entry_value in H.
  - rewrite findCreditCards_kept. apply kept_values_Forall.
    intros r k v H. now apply card_entry_value in H.
  - unfold findBankAccounts. rewrite bankMap_families.
    unfold JsMap.values. rewrite !map_app.
    apply Forall_app; split; [|apply Forall_app; split;
                                [|apply Forall_app; split]];
      apply kept_values_Forall; intros r k v H.
    + now apply iban_entry_value in H.
    + now apply routing_entry_value in H.
    + now apply account_entry_value in H.
    + now apply sort_entry_value in H.
Qed.

(* ===================================================================== *)
(** ** [luhnCheck] on arbitrary strings *)
(* ===================================================================== *)

Section Luhn.

Lemma not_digit_code c :
  Char.is_digit c = false -> ((c - 48 <? 0)%Z || (c - 48 >? 9)%Z) = true.
Proof. rewrite Z.gtb_ltb. intros H. zbool. Qed.

Lemma digit_code c :
  Char.is_digit c = true -> ((c - 48 <? 0)%Z || (c - 48 >? 9)%Z) = false.
Proof. rewrite Z.gtb_ltb. intros H. zbool. Qed.

(** The early [return false] is taken as soon as the loop meets a code
    unit that is not a digit, whatever it has summed so far. *)
Lemma luhnLoop_non_digit l :
  Exists (fun c => Char.is_digit c = false) l ->
  forall sum b, luhnLoop l sum b = None.
Proof.
  induction l as [|c l IH]; intros H sum b; [inversion H|].
  simpl. destruct (Char.is_digit c) eqn:Hc.
  - rewrite (digit_code _ Hc). apply IH.
    inversion H; subst; [congruence | assumption].
  - now rewrite (not_digit_code _ Hc).
Qed.

Lemma luhnLoop_digits l :
  digits l -> forall sum b, exists total, luhnLoop l sum b = Some total.
Proof.
  induction 1 as [|c l Hc _ IH]; intros sum b; simpl; [eauto|].
  rewrite (digit_code _ Hc). apply IH.
Qed.

Lemma digitsOnly_are_digits s : digits (digitsOnly s).
Proof.
  unfold digits, digitsOnly. apply Forall_forall. intros c Hc.
  now apply filter_In in Hc.
Qed.

End Luhn.

(** C10: [luhnCheck] answers on every string.  A string with a code unit
    that is not a decimal digit gives [false], through the early return of
    the loop; the empty string gives [true].  In [findCreditCards] a
    candidate that fails the length guard is skipped before [luhnCheck] is
    called, and otherwise the argument of [luhnCheck], the digits-only
    form of the candidate, holds 13 to 19 digits and nothing else, so the
    loop runs to its end there: the body of the loop of [findCreditCards]
    decides by the sum that the loop of [luhnCheck] reaches on these
    digits, divisible by 10 or not, and by the label test. *)
Theorem C10_luhnCheck_total (s text : jsstring) (m : MatchResult)
    (unique : JsMap.t) :
  (Exists (fun c => Char.is_digit c = false) s ->
   luhnLoop (rev s) 0%Z false = None /\ luhnCheck s = false)
  /\ luhnCheck [] = true
  /\ (let digits := digitsOnly (trim (m0 m)) in
      (((len digits <? 13)%Z || (len digits >? 19)%Z) = true ->
       findCreditCards_body text m unique = unique)
      /\ (((len digits <? 13)%Z || (len digits >? 19)%Z) = false ->
          Forall (fun c => Char.is_digit c = true) digits
          /\ (13 <= len digits <= 19)%Z
          /\ luhnLoop (rev digits) 0%Z false <> None
          /\ exists total,
               luhnLoop (rev digits) 0%Z false = Some total
               /\ luhnCheck digits = (total mod 10 =? 0)%Z
               /\ findCreditCards_body text m unique
                  = (let raw := trim (m0 m) in
                     let ctx := if (index m >=? 0)%Z
                                then cardContext text (index m) raw else [] in
                     if negb (total mod 10 =? 0)%Z
                        && negb (test CARD_KEYWORD_RE ctx)
                     then unique
                     else if negb (JsMap.has unique digits)
                          then JsMap.set unique digits raw
                          else unique))).
Proof.
  split; [|split].
  - intros H.
    assert (Hn : luhnLoop (rev s) 0%Z false = None).
    { apply luhnLoop_non_digit. apply Exists_rev. exact H. }
    split; [exact Hn|]. unfold luhnCheck. now rewrite Hn.
  - reflexivity.
  - intros ds. split.
    + intros Hg. unfold findCreditCards_body. fold ds. now rewrite Hg.
    + intros Hg. pose proof (digitsOnly_are_digits (trim (m0 m))) as Hd.
      fold ds in Hd. split; [exact Hd|].
      apply orb_false_iff in Hg. destruct Hg as [H1 H2].
      apply Z.ltb_ge in H1. rewrite Z.gtb_ltb in H2. apply Z.ltb_ge in H2.
      split; [lia|].
      destruct (@luhnLoop_digits (rev ds)) with (sum := 0%Z) (b := false)
        as (total & Ht).
      * unfold digits. apply Forall_rev. exact Hd.
      * split; [rewrite Ht; discriminate|].
        exists total. split; [exact Ht|].
        assert (Hl : luhnCheck ds = (total mod 10 =? 0)%Z)
          by (unfold luhnCheck; now rewrite Ht).
        split; [exact Hl|].
        unfold findCreditCards_body. cbv zeta. fold ds.
        replace ((len ds <? 13)%Z || (len ds >? 19)%Z) with false
          by (symmetry; apply orb_false_iff; rewrite Z.gtb_ltb;
              split; apply Z.ltb_ge; assumption).
        now rewrite Hl.
Qed.

Lemma C10_luhnCheck_total_witness :
  (luhnLoop (rev (js "4532 0151")) 0%Z false = None
   /\ luhnCheck (js "4532 0151") = false)
  /\ luhnLoop (rev (digitsOnly (trim (js " 4532-0151-1283-0366 ")))) 0%Z false
     <> None
  /\ findCreditCards_body (js "no 1234")
       {| index := 3; m0 := js "1234"; m1 := None |} JsMap.empty
     = JsMap.empty
  /\ findCreditCards_body (js "4532-0151-1283-0366")
       {| index := 0; m0 := js "4532-0151-1283-0366"; m1 := None |}
       JsMap.empty
     = [ (js "4532015112830366", js "4532-0151-1283-0366") ].
Proof.
  destruct (C10_luhnCheck_total (js "4532 0151") (js "4532-0151-1283-0366")
              {| index := 0; m0 := js " 4532-0151-1283-0366 "; m1 := None |}
              JsMap.empty)
    as (H1 & _ & _ & H3).
  destruct (C10_luhnCheck_total [] (js "no 1234")
              {| index := 3; m0 := js "1234"; m1 := None |} JsMap.empty)
    as (_ & _ & H4 & _).
  destruct (C10_luhnCheck_total [] (js "4532-0151-1283-0366")
              {| index := 0; m0 := js "4532-0151-1283-0366"; m1 := None |}
              JsMap.empty)
    as (_ & _ & _ & H5).
  split; [|split; [|split]].
  - apply H1. apply Exists_exists. exists 32%Z. split.
    + vm_compute. tauto.
    + reflexivity.
  - apply H3. vm_compute. reflexivity.
  - apply H4. vm_compute. reflexivity.
  - destruct H5 as (_ & _ & _ & total & Ht & _ & Hb);
      [vm_compute; reflexivity|].
    vm_compute in Ht. injection Ht as Ht. subst total.
    rewrite Hb. vm_compute. reflexivity.
Defined.

(* ===================================================================== *)
(** ** The sample IBAN and its single-digit mutations *)
(* ===================================================================== *)

(** [s] with the code unit at index [i] replaced by [c]. *)
Definition replaceAt (i : nat) (c : Z) (s : jsstring) : jsstring :=
  firstn i s ++ c :: skipn (S i) s.

Definition sampleIban : jsstring := js "GB82WEST12345698765432".

(** All replacements of a digit of [sampleIban] by another digit are
    refused: the check, run over every index and every digit. *)
Definition mutationsRefused : bool :=
  forallb
    (fun i =>
       forallb
         (fun c =>
            implb (Char.is_digit (nth i sampleIban 0%Z)
                   && negb (c =? nth i sampleIban 0%Z)%Z)
                  (negb (isValidIban (replaceAt i c sampleIban))))
         (List.map Z.of_nat (List.seq 48 10)))
    (List.seq 0 (length sampleIban)).

Lemma mutationsRefused_true : mutationsRefused = true.
Proof. vm_compute. reflexivity. Qed.

(** C7: the sample IBAN is valid, and replacing any one of its digits by a
    different decimal digit makes it invalid. *)
Theorem C7_sample_iban_mutations (i : nat) (c : Z) :
  isValidIban sampleIban = true
  /\ (i < length sampleIban ->
      Char.is_digit (nth i sampleIban 0%Z) = true ->
      Char.is_digit c = true ->
      c <> nth i sampleIban 0%Z ->
      isValidIban (replaceAt i c sampleIban) = false).
Proof.
  split; [vm_compute; reflexivity|].
  intros Hi Hd Hc Hne.
  pose proof mutationsRefused_true as H. unfold mutationsRefused in H.
  rewrite forallb_forall in H.
  assert (Hi' : In i (List.seq 0 (length sampleIban))) by (apply in_seq; lia).
  specialize (H i Hi'). rewrite forallb_forall in H.
  specialize (H c). rewrite Hd in H.
  assert (Hin : In c (List.map Z.of_nat (List.seq 48 10))).
  { apply in_map_iff. exists (Z.to_nat c). split.
    - unfold Char.is_digit, Char.between in Hc.
      apply andb_true_iff in Hc. destruct Hc as [H1 H2].
      apply Z.leb_le in H1. lia.
    - apply in_seq. unfold Char.is_digit, Char.between in Hc.
      apply andb_true_iff in Hc. destruct Hc as [H1 H2].
      apply Z.leb_le in H1. apply Z.leb_le in H2. lia. }
  specialize (H Hin).
  apply Z.eqb_neq in Hne. rewrite Hne in H. simpl in H.
  now destruct (isValidIban (replaceAt i c sampleIban)).
Qed.

Lemma C7_sample_iban_mutations_witness :
  isValidIban (js "GB82WEST12345698765432") = true
  /\ isValidIban (js "GB82WEST12345698765433") = false.
Proof.
  destruct (C7_sample_iban_mutations 21 51%Z) as (H1 & H2).
  split; [exact H1|].
  apply H2.
  - vm_compute. lia.
  - reflexivity.
  - reflexivity.
  - vm_compute. discriminate.
Defined.

(* ===================================================================== *)
(** ** Deduplication keys *)
(* ===================================================================== *)

Definition type_eqb (a b : SensitiveType) : bool :=
  match a, b with
  | email, email | phone, phone | ssn, ssn | card, card | bank, bank
  | insurancePolicy, insurancePolicy | employeeId, employeeId
  | medicalRecordNumber, medicalRecordNumber => true
  | _, _ => false
  end.

(** The maps behind the matches of one type, in result order. *)
Definition mapOfType (text : jsstring) (t : SensitiveType) : JsMap.t :=
  match t with
  | email => matchAllUnique_map text EMAIL_RE
  | phone => matchAllUnique_map text PHONE_RE
  | ssn => matchAllUnique_map text SSN_RE ++ findSsnLast4_map text
  | card => findCreditCards_map text
  | bank => bankMap text
  | insurancePolicy => matchAllUnique_map text INS_POLICY_RE
  | employeeId => matchAllUnique_map text EMPLOYEE_ID_RE
  | medicalRecordNumber => matchAllUnique_map text MRN_RE
  end.

(** Everything the scans of one type offer, in scan order. *)
Definition offersOfType (text : jsstring) (t : SensitiveType)
  : list (jsstring * jsstring) :=
  match t with
  | email => offered matchAllUnique_entry (execAll EMAIL_RE text)
  | phone => offered matchAllUnique_entry (execAll PHONE_RE text)
  | ssn => offered matchAllUnique_entry (execAll SSN_RE text)
           ++ offered ssnLast4_entry (execAll SSN_LAST4_CONTEXT_RE text)
  | card => offered (card_entry text) (execAll CARD_CANDIDATE_RE text)
  | bank => offered iban_entry (execAll IBAN_CANDIDATE_RE text)
            ++ offered routing_entry (execAll ROUTING_RE text)
            ++ offered account_entry (execAll ACCOUNT_RE text)
            ++ offered sort_entry (execAll SORT_CODE_RE text)
  | insurancePolicy => offered matchAllUnique_entry (execAll INS_POLICY_RE text)
  | employeeId => offered matchAllUnique_entry (execAll EMPLOYEE_ID_RE text)
  | medicalRecordNumber => offered matchAllUnique_entry (execAll MRN_RE text)
  end.

(** The key of a bank match, by kind. *)
Definition bankKey (k v : jsstring) : Prop :=
  (k = toUpperCase (stripSpaces v) /\ isValidIban k = true)
  \/ (k = js "routing:" ++ v /\ digits v /\ length v = 9)
  \/ (k = js "account:" ++ v /\ digits v /\ 6 <= length v <= 17)
  \/ (k = js "sort:" ++ digitsOnly v /\ length (digitsOnly v) = 6).

(** The normalized key of a match of type [t] with value [v]. *)
Definition keyRel (t : SensitiveType) (k v : jsstring) : Prop :=
  match t with
  | card => k = digitsOnly v
  | bank => bankKey k v
  | _ => k = toLowerCase (trim v)
  end.

Section Keys.

Import RegexFacts ExecFacts Shapes.

Lemma execAll_Matches re text r :
  In r (execAll re text) ->
  exists pre post y,
    text = pre ++ m0 r ++ post
    /\ index r = len pre
    /\ Matches (ignoreCase re) (pattern re)
         (stateAt (lastp pre None) (m0 r ++ post)) y
    /\ Span (stateAt (lastp pre None) (m0 r ++ post)) y (m0 r)
    /\ rest y = post
    /\ m1 r = cap y.
Proof.
  intros Hin. pose proof (execAll_Located re text) as H.
  rewrite Forall_forall in H. destruct (H r Hin) as (pre & post & y & Ht & Hi & HF).
  destruct HF as [H1 H2 H3 H4].
  exists pre, post, y. repeat split; try assumption; try apply H2.
  now apply matchAt_Matches.
Qed.

Lemma space_range c :
  Char.is_space c = true -> (9 <= c <= 13 \/ c = 32 \/ 160 <= c)%Z.
Proof.
  unfold Char.is_space, Char.between. rewrite !orb_true_iff, !andb_true_iff.
  rewrite !Z.leb_le, !Z.eqb_eq. lia.
Qed.

Lemma digit_not_space c : Char.is_digit c = true -> Char.is_space c = false.
Proof.
  intros H. destruct (Char.is_space c) eqn:Hs; [|reflexivity].
  apply space_range in Hs. unfold Char.is_digit, Char.between in H.
  apply andb_true_iff in H. rewrite !Z.leb_le in H. lia.
Qed.

Lemma trimStart_nonspace l :
  Forall (fun c => Char.is_space c = false) l -> trimStart l = l.
Proof. destruct 1 as [|c l Hc _]; simpl; [reflexivity | now rewrite Hc]. Qed.

Lemma trim_nonspace l :
  Forall (fun c => Char.is_space c = false) l -> trim l = l.
Proof.
  intros H. unfold trim, trimEnd. rewrite (trimStart_nonspace H).
  rewrite trimStart_nonspace; [apply rev_involutive | now apply Forall_rev].
Qed.

Lemma toLowerCase_below_A l :
  Forall (fun c => (c < 65)%Z) l -> toLowerCase l = l.
Proof.
  unfold toLowerCase. induction 1 as [|c l Hc _ IH]; simpl; [reflexivity|].
  rewrite IH. unfold Char.lower_units. zbool.
Qed.

Lemma digits_below_A l : digits l -> Forall (fun c => (c < 65)%Z) l.
Proof. apply Forall_impl. intros c H. zbool. Qed.

Lemma digits_nonspace l : digits l -> Forall (fun c => Char.is_space c = false) l.
Proof. apply Forall_impl. intros c. apply digit_not_space. Qed.

Lemma toLowerCase_digits l : digits l -> toLowerCase l = l.
Proof. intros H. now apply toLowerCase_below_A, digits_below_A. Qed.

Lemma trim_digits l : digits l -> trim l = l.
Proof. intros H. now apply trim_nonspace, digits_nonspace. Qed.

(** The text of a direct SSN match: eleven code units, none of them a
    letter or white space. *)
Lemma SSN_match_text text r :
  In r (execAll SSN_RE text) ->
  length (m0 r) = 11
  /\ Forall (fun c => (c < 65)%Z) (m0 r)
  /\ Forall (fun c => Char.is_space c = false) (m0 r).
Proof.
  intros Hin. apply execAll_Matches in Hin.
  destruct Hin as (pre & post & y & _ & _ & HM & HS & _).
  apply SSN_RE_shape in HM.
  destruct HM as (a & b & c & HS' & Da & La & Db & Lb & Dc & Lc).
  rewrite (Span_inj HS HS').
  assert (Hd : Forall (fun c => (c < 65)%Z) [dash]) by (repeat constructor).
  assert (Hn : Forall (fun c => Char.is_space c = false) [dash])
    by (repeat constructor).
  split; [rewrite !length_app; simpl; lia|].
  split; repeat (apply Forall_app; split);
    auto using digits_below_A, digits_nonspace.
Qed.

Lemma SSN_offer_key text r k v :
  In r (execAll SSN_RE text) ->
  matchAllUnique_entry r = Some (k, v) -> length k = 11.
Proof.
  intros Hin He. apply matchAllUnique_entry_value in He.
  destruct He as (-> & -> & _).
  destruct (SSN_match_text _ _ Hin) as (Hl & Hb & Hs).
  rewrite (trim_nonspace Hs), (toLowerCase_below_A Hb). exact Hl.
Qed.

Lemma four_digits_test v :
  test FOUR_DIGITS_RE v = true <-> digits v /\ length v = 4.
Proof.
  unfold FOUR_DIGITS_RE, times. fold (range 4 4 digit). unfold digit.
  rewrite test_anchored_run by lia. unfold digits.
  rewrite (Forall_eqb _ _ _ (cmem_digit false)). intuition lia.
Qed.

Lemma nine_digits_test v :
  test NINE_DIGITS_RE v = true <-> digits v /\ length v = 9.
Proof.
  unfold NINE_DIGITS_RE, times. fold (range 9 9 digit). unfold digit.
  rewrite test_anchored_run by lia. unfold digits.
  rewrite (Forall_eqb _ _ _ (cmem_digit false)). intuition lia.
Qed.

Lemma account_digits_test v :
  test ACCOUNT_DIGITS_RE v = true <-> digits v /\ 6 <= length v <= 17.
Proof.
  unfold ACCOUNT_DIGITS_RE, digit.
  rewrite test_anchored_run by lia. unfold digits.
  rewrite (Forall_eqb _ _ _ (cmem_digit false)). reflexivity.
Qed.

Lemma ssnLast4_offer_key r k v :
  ssnLast4_entry r = Some (k, v) -> k = v /\ digits v /\ length v = 4.
Proof.
  intros He. apply ssnLast4_entry_value in He.
  destruct He as (_ & -> & Ht & _). apply four_digits_test in Ht. tauto.
Qed.

Lemma firstByKey_app l1 : forall seen l2,
  firstByKey seen (l1 ++ l2)
  = firstByKey seen l1
    ++ firstByKey (seen ++ JsMap.keys (firstByKey seen l1)) l2.
Proof.
  induction l1 as [|[k v] l1 IH]; intros seen l2; simpl.
  - now rewrite app_nil_r.
  - destruct (memb k seen); [apply IH|]. simpl. f_equal.
    rewrite IH. f_equal. f_equal. now rewrite <- app_assoc.
Qed.

(** Two runs of offers with no key in common are filtered separately. *)
Lemma firstByKey_app_disjoint l1 l2 :
  (forall e1 e2, In e1 l1 -> In e2 l2 -> fst e1 <> fst e2) ->
  firstByKey [] (l1 ++ l2) = firstByKey [] l1 ++ firstByKey [] l2.
Proof.
  intros H. rewrite firstByKey_app. f_equal. simpl.
  rewrite <- (app_nil_r (JsMap.keys _)). apply firstByKey_fresh.
  intros e2 He2 Hin. unfold JsMap.keys in Hin. apply in_map_iff in Hin.
  destruct Hin as (e1 & Heq & He1). apply firstByKey_In in He1.
  destruct He1 as [He1 _]. apply (H e1 e2 He1 He2). exact Heq.
Qed.

Lemma filter_tag t t' l :
  filter (fun m => type_eqb (type m) t) (tag t' l)
  = if type_eqb t' t then tag t' l else [].
Proof.
  unfold tag. induction l as [|v l IH]; simpl.
  - now destruct (type_eqb t' t).
  - rewrite IH. now destruct (type_eqb t' t).
Qed.

Lemma tag_values t (mp : JsMap.t) :
  tag t (JsMap.values mp)
  = List.map (fun e => {| type := t; value := snd e |}) mp.
Proof. unfold tag, JsMap.values. now rewrite map_map. Qed.

(** On the text of an IBAN candidate [toUpperCase] and [toLowerCase] act
    on ASCII letters only. *)
Lemma iban_candidate_ascii text r :
  In r (execAll IBAN_CANDIDATE_RE text) ->
  Forall (fun a => ibanCandidateUnit a = true) (m0 r)
  /\ toUpperCase (m0 r) = List.map Char.ascii_upper (m0 r).
Proof.
  intros Hin. apply execAll_Matches in Hin.
  destruct Hin as (pre & post & y & _ & _ & HM & HS & _).
  apply IBAN_CANDIDATE_shape in HM. destruct HM as (l & HS' & Hl).
  rewrite (Span_inj HS HS'). split; [exact Hl|].
  unfold toUpperCase. clear HS HS'.
  induction Hl as [|c l Hc _ IH]; simpl; [reflexivity|]. rewrite IH. f_equal.
  unfold ibanCandidateUnit in Hc. unfold Char.upper_units. zbool.
Qed.

End Keys.

Section KeysPerType.

Lemma kept_Forall (P : jsstring * jsstring -> Prop) entry re text :
  (forall r k v, In r (execAll re text) -> entry r = Some (k, v) -> P (k, v)) ->
  Forall P (kept entry re text).
Proof.
  intros H. apply Forall_forall. intros [k v] Hin. apply kept_In in Hin.
  destruct Hin as (r & Hr & He). eauto.
Qed.

Lemma simple_keys text re :
  Forall (fun e => fst e = toLowerCase (trim (snd e))) (matchAllUnique_map text re).
Proof.
  rewrite matchAllUnique_map_kept. apply kept_Forall.
  intros r k v _ He. apply matchAllUnique_entry_value in He.
  destruct He as (Hv & Hk & Ht). simpl. now rewrite (trim_id Ht).
Qed.

Lemma last4_keys text :
  Forall (fun e => fst e = toLowerCase (trim (snd e))) (findSsnLast4_map text).
Proof.
  rewrite findSsnLast4_map_kept. apply kept_Forall.
  intros r k v _ He. apply ssnLast4_offer_key in He.
  destruct He as (-> & Hd & _). simpl.
  now rewrite (trim_digits Hd), (toLowerCase_digits Hd).
Qed.

Lemma card_keys text :
  Forall (fun e => fst e = digitsOnly (snd e)) (findCreditCards_map text).
Proof.
  rewrite findCreditCards_map_kept. apply kept_Forall.
  intros r k v _ He. apply card_entry_value in He. tauto.
Qed.

Lemma bank_keys text :
  Forall (fun e => bankKey (fst e) (snd e)) (bankMap text).
Proof.
  rewrite bankMap_families.
  apply Forall_app; split; [|apply Forall_app; split; [|apply Forall_app; split]];
    apply kept_Forall; intros r k v _ He; simpl; unfold bankKey.
  - apply iban_entry_value in He. tauto.
  - apply routing_entry_value in He. destruct He as (_ & Hk & Ht & _).
    apply nine_digits_test in Ht. tauto.
  - apply account_entry_value in He. destruct He as (_ & Hk & Ht & _).
    apply account_digits_test in Ht. tauto.
  - apply sort_entry_value in He. destruct He as (_ & Hk & Hl & _).
    unfold len in Hl. right. right. right. split; [assumption | lia].
Qed.

(** The two scans of type [ssn] never offer the same key: a direct match
    has eleven code units, a last-four match has four. *)
Lemma ssn_offers_disjoint text e1 e2 :
  In e1 (offered matchAllUnique_entry (execAll SSN_RE text)) ->
  In e2 (offered ssnLast4_entry (execAll SSN_LAST4_CONTEXT_RE text)) ->
  fst e1 <> fst e2.
Proof.
  intros H1 H2. apply offered_In in H1, H2.
  destruct H1 as (r1 & Hr1 & He1). destruct H2 as (r2 & _ & He2).
  destruct e1 as [k1 v1]. destruct e2 as [k2 v2]. simpl.
  apply (SSN_offer_key _ _ Hr1) in He1. apply ssnLast4_offer_key in He2.
  destruct He2 as (-> & _ & Hl). intros ->. lia.
Qed.

Lemma ssn_map_firstByKey text :
  matchAllUnique_map text SSN_RE ++ findSsnLast4_map text
  = firstByKey [] (offersOfType text ssn).
Proof.
  simpl. rewrite firstByKey_app_disjoint by apply ssn_offers_disjoint.
  now rewrite matchAllUnique_map_kept, findSsnLast4_map_kept.
Qed.

Lemma offered_key_head (P : jsstring -> Prop) entry rs e :
  (forall r k v, entry r = Some (k, v) -> P k) ->
  In e (offered entry rs) -> P (fst e).
Proof.
  intros H Hin. apply offered_In in Hin. destruct Hin as (r & _ & He).
  destruct e as [k v]. eauto.
Qed.

Lemma bank_map_firstByKey text :
  bankMap text = firstByKey [] (offersOfType text bank).
Proof.
  rewrite bankMap_families. simpl. unfold kept.
  set (oi := offered iban_entry _). set (orr := offered routing_entry _).
  set (oa := offered account_entry _). set (os := offered sort_entry _).
  assert (Hi : forall e, In e oi -> Char.is_upper (keyHead (fst e)) = true)
    by (intros e; apply (@offered_key_head _ _ _ e iban_key_head)).
  assert (Hr : forall e, In e orr -> keyHead (fst e) = 114%Z)
    by (intros e; apply (@offered_key_head _ _ _ e routing_key_head)).
  assert (Ha : forall e, In e oa -> keyHead (fst e) = 97%Z)
    by (intros e; apply (@offered_key_head _ _ _ e account_key_head)).
  assert (Hs : forall e, In e os -> keyHead (fst e) = 115%Z)
    by (intros e; apply (@offered_key_head _ _ _ e sort_key_head)).
  rewrite (@firstByKey_app_disjoint oi (orr ++ oa ++ os)).
  2:{ intros e1 e2 H1 H2 Heq. apply Hi in H1. rewrite Heq in H1.
      apply in_app_or in H2. destruct H2 as [H2|H2];
        [|apply in_app_or in H2; destruct H2 as [H2|H2]].
      - apply Hr in H2. rewrite H2 in H1. discriminate.
      - apply Ha in H2. rewrite H2 in H1. discriminate.
      - apply Hs in H2. rewrite H2 in H1. discriminate. }
  rewrite (@firstByKey_app_disjoint orr (oa ++ os)).
  2:{ intros e1 e2 H1 H2 Heq. apply Hr in H1. rewrite Heq in H1.
      apply in_app_or in H2. destruct H2 as [H2|H2].
      - apply Ha in H2. rewrite H2 in H1. discriminate.
      - apply Hs in H2. rewrite H2 in H1. discriminate. }
  rewrite (@firstByKey_app_disjoint oa os).
  2:{ intros e1 e2 H1 H2 Heq. apply Ha in H1. rewrite Heq in H1.
      apply Hs in H2. rewrite H2 in H1. discriminate. }
  reflexivity.
Qed.

End KeysPerType.

(** C2: for every text and every type, the matches of that type in the
    result are the values of a map whose keys are pairwise different and
    are the normalized keys of the values (lower-cased trimmed text;
    digits only for card; the namespaced key or the normalized IBAN for
    bank), and whose entries are the first offers of their keys in scan
    order. *)
Theorem C2_keys_unique_per_type (text : jsstring) (t : SensitiveType) :
  filter (fun m => type_eqb (type m) t) (findSensitiveMatches text)
  = List.map (fun e => {| type := t; value := snd e |}) (mapOfType text t)
  /\ NoDup (JsMap.keys (mapOfType text t))
  /\ Forall (fun e => keyRel t (fst e) (snd e)) (mapOfType text t)
  /\ mapOfType text t = firstByKey [] (offersOfType text t).
Proof.
  assert (Hfirst : mapOfType text t = firstByKey [] (offersOfType text t)).
  { destruct t; simpl;
      try (rewrite matchAllUnique_map_kept; reflexivity).
    - apply ssn_map_firstByKey.
    - rewrite findCreditCards_map_kept. reflexivity.
    - apply bank_map_firstByKey. }
  split; [|split; [|split]].
  - rewrite findSensitiveMatches_app, !filter_app, !filter_tag.
    unfold matchAllUnique, findSsnLast4, findCreditCards, findBankAccounts.
    rewrite !tag_values.
    destruct t; simpl; rewrite ?app_nil_r; try reflexivity.
    now rewrite map_app.
  - rewrite Hfirst. apply firstByKey_NoDup.
  - destruct t; simpl; try apply simple_keys.
    + apply Forall_app. split; [apply simple_keys | apply last4_keys].
    + apply card_keys.
    + apply bank_keys.
  - exact Hfirst.
Qed.

(* ===================================================================== *)
(** ** The last four digits of an SSN *)
(* ===================================================================== *)

(** Equality of texts up to the case of ASCII letters. *)
Definition ciEqual (w l : jsstring) : Prop :=
  Forall2 (fun a b => Char.ascii_upper a = Char.ascii_upper b) w l.

(** The year range that [findSsnLast4] leaves out. *)
Definition looksLikeYear (v : jsstring) : Prop :=
  (1900 <= Number v <= 2099)%Z.

Section SsnLast4.

Import RegexFacts ExecFacts Shapes.

Lemma In_tag m t l : In m (tag t l) <-> type m = t /\ In (value m) l.
Proof.
  unfold tag. rewrite in_map_iff. split.
  - intros (v & <- & Hv). simpl. auto.
  - intros (Ht & Hv). exists (value m). split; [|assumption].
    destruct m as [t' v']. simpl in *. now subst.
Qed.

(** Where a match of type [ssn] comes from. *)
Lemma In_ssn_result text v :
  In {| type := ssn; value := v |} (findSensitiveMatches text)
  <-> In v (matchAllUnique text SSN_RE) \/ In v (findSsnLast4 text).
Proof.
  rewrite findSensitiveMatches_app. rewrite !in_app_iff, !In_tag. simpl.
  split.
  - intros H. repeat (destruct H as [H|H]); destruct H as [Ht Hv];
      try discriminate; auto.
  - intros [H|H]; auto.
Qed.

Lemma SSN_direct_length text v :
  In v (matchAllUnique text SSN_RE) -> length v = 11.
Proof.
  rewrite matchAllUnique_kept. unfold JsMap.values. rewrite in_map_iff.
  intros ([k v'] & <- & Hin). apply kept_In in Hin.
  destruct Hin as (r & Hr & He). simpl.
  pose proof (matchAllUnique_entry_value _ He) as (Hv & _ & _).
  destruct (SSN_match_text _ _ Hr) as (Hl & _ & Hs).
  rewrite Hv, (trim_nonspace Hs). exact Hl.
Qed.

Lemma year_check v :
  ((Number v >=? 1900)%Z && (Number v <=? 2099)%Z) = false <-> ~ looksLikeYear v.
Proof.
  unfold looksLikeYear. rewrite andb_false_iff, Z.geb_leb, !Z.leb_gt. lia.
Qed.

Lemma In_findSsnLast4 text v :
  In v (findSsnLast4 text)
  <-> exists r, In r (execAll SSN_LAST4_CONTEXT_RE text)
                /\ ssnLast4_entry r = Some (v, v).
Proof.
  rewrite findSsnLast4_kept. unfold JsMap.values. rewrite in_map_iff. split.
  - intros ([k v'] & <- & Hin). apply kept_In in Hin.
    destruct Hin as (r & Hr & He). exists r. split; [assumption|]. simpl.
    pose proof (ssnLast4_offer_key _ He) as (-> & _). exact He.
  - intros (r & Hr & He).
    assert (Hoff : In (v, v) (offered ssnLast4_entry
                                (execAll SSN_LAST4_CONTEXT_RE text)))
      by (apply offered_In; eauto).
    destruct (firstByKey_covers [] _ _ _ Hoff) as [[]|Hk].
    fold (kept ssnLast4_entry SSN_LAST4_CONTEXT_RE text) in Hk.
    unfold JsMap.keys in Hk. apply in_map_iff in Hk.
    destruct Hk as ([k v'] & Hkv & Hin). simpl in Hkv. subst k.
    exists (v, v'). split; [|assumption]. simpl.
    apply kept_In in Hin. destruct Hin as (r' & _ & He').
    now pose proof (ssnLast4_offer_key _ He') as (-> & _).
Qed.

Lemma SSN_LAST4_candidate text r :
  In r (execAll SSN_LAST4_CONTEXT_RE text) ->
  exists kw gap v,
    m0 r = kw ++ gap ++ v
    /\ (ciEqual (js "social security number") kw \/ ciEqual (js "ssn") kw)
    /\ nonDigits gap /\ length gap <= 80
    /\ digits v /\ length v = 4
    /\ m1 r = Some v.
Proof.
  intros Hin. apply execAll_Matches in Hin.
  destruct Hin as (pre & post & y & _ & _ & HM & HS & _ & Hc).
  apply SSN_LAST4_shape in HM.
  destruct HM as (kw & gap & v & HS' & Hkw & Hg & Lg & Dv & Lv & Hcap & _).
  exists kw, gap, v. rewrite (Span_inj HS HS'), Hc.
  repeat split; try assumption.
Qed.

End SsnLast4.

(** C5: a candidate of the last-four scan is the phrase, a gap of at most
    80 code units none of which is a digit, and four digits; its four
    digits are returned as an [ssn] match exactly when their value is not
    in 1900..2099.  The text ending in 8234 yields "8234", the text ending
    in 1999 yields nothing. *)
Theorem C5_ssn_last4_year_exclusion (text : jsstring) (r : MatchResult) :
  (In r (execAll SSN_LAST4_CONTEXT_RE text) ->
   exists kw gap v,
     m0 r = kw ++ gap ++ v
     /\ (ciEqual (js "social security number") kw \/ ciEqual (js "ssn") kw)
     /\ nonDigits gap /\ length gap <= 80
     /\ digits v /\ length v = 4
     /\ m1 r = Some v
     /\ (In {| type := ssn; value := v |} (findSensitiveMatches text)
         <-> ~ looksLikeYear v))
  /\ findSensitiveMatches (js "social security number ending in 8234")
     = [ {| type := ssn; value := js "8234" |} ]
  /\ findSensitiveMatches (js "social security number ending in 1999") = [].
Proof.
  split; [|split; vm_compute; reflexivity].
  intros Hin. destruct (SSN_LAST4_candidate _ _ Hin)
    as (kw & gap & v & Hm & Hkw & Hg & Lg & Dv & Lv & Hc).
  exists kw, gap, v. repeat split; try assumption.
  - rewrite In_ssn_result. intros [H|H].
    + apply SSN_direct_length in H. lia.
    + apply In_findSsnLast4 in H. destruct H as (r' & _ & He).
      apply ssnLast4_entry_value in He. destruct He as (_ & _ & _ & Hy & _).
      now apply year_check.
  - intros Hy. rewrite In_ssn_result. right. apply In_findSsnLast4.
    exists r. split; [assumption|]. unfold ssnLast4_entry.
    rewrite Hc. simpl. rewrite (trim_digits Dv).
    assert (Ht : test FOUR_DIGITS_RE v = true) by (apply four_digits_test; auto).
    rewrite Ht. simpl. apply year_check in Hy. now rewrite Hy.
Qed.

Lemma C5_ssn_last4_year_exclusion_witness :
  exists kw gap v,
    js "SSN: 8234" = kw ++ gap ++ v
    /\ (ciEqual (js "social security number") kw \/ ciEqual (js "ssn") kw)
    /\ nonDigits gap /\ length gap <= 80
    /\ digits v /\ length v = 4
    /\ Some (js "8234") = Some v
    /\ (In {| type := ssn; value := v |} (findSensitiveMatches (js "my SSN: 8234."))
        <-> ~ looksLikeYear v).
Proof.
  destruct (C5_ssn_last4_year_exclusion (js "my SSN: 8234.")
              {| index := 3; m0 := js "SSN: 8234"; m1 := Some (js "8234") |})
    as (H & _).
  apply H. vm_compute. left. reflexivity.
Defined.

(* ===================================================================== *)
(** ** Sort codes *)
(* ===================================================================== *)

(** What the sort-code loop of [findBankAccounts] keeps. *)
Definition sortCodes (text : jsstring) : JsMap.t :=
  kept sort_entry SORT_CODE_RE text.

Section SortCode.

Import RegexFacts ExecFacts Shapes.

Lemma sortCodeText_trimmed v : sortCodeText v -> trimmedNonEmpty v.
Proof.
  intros (a & s1 & b & s2 & c & -> & Da & La & _ & _ & _ & _ & Dc & Lc).
  destruct a as [|a1 [|a2 [|]]]; simpl in La; try lia.
  destruct c as [|c1 [|c2 [|]]]; simpl in Lc; try lia.
  inversion Da; subst. inversion Dc as [|? ? _ Dc']; subst. inversion Dc'; subst.
  split; [discriminate|]. split.
  - simpl. now apply digit_not_space.
  - replace ([a1; a2] ++ s1 ++ b ++ s2 ++ [c1; c2])
      with (([a1; a2] ++ s1 ++ b ++ s2 ++ [c1]) ++ [c2])
      by (rewrite <- !app_assoc; reflexivity).
    rewrite last_last. now apply digit_not_space.
Qed.

Lemma sort_entry_text text r k v :
  In r (execAll SORT_CODE_RE text) ->
  sort_entry r = Some (k, v) -> sortCodeText v.
Proof.
  intros Hin He. apply execAll_Matches in Hin.
  destruct Hin as (pre & post & y & _ & _ & HM & _ & _ & Hc).
  apply SORT_CODE_shape in HM. destruct HM as (v0 & Hcap & Hv0).
  apply sort_entry_value in He. destruct He as (-> & _).
  rewrite Hc, Hcap. simpl. now rewrite (trim_id (sortCodeText_trimmed Hv0)).
Qed.

End SortCode.

(** C6, as stated, fails: the sort-code loop returns the captured text
    with its separators, here eight code units, and not a string of six
    digits. *)
Lemma C6_sort_code_counterexample :
  sortCodes (js "sort code: 12-34-56") = [ (js "sort:123456", js "12-34-56") ]
  /\ findSensitiveMatches (js "sort code: 12-34-56")
     = [ {| type := bank; value := js "12-34-56" |} ]
  /\ ~ (digits (js "12-34-56") /\ length (js "12-34-56") = 6).
Proof.
  split; [vm_compute; reflexivity|]. split; [vm_compute; reflexivity|].
  intros [_ H]. vm_compute in H. discriminate H.
Qed.

(** C6, amended: every entry of the sort-code loop has as value the
    captured surface text, three pairs of digits with each two pairs
    joined directly or by one dash or space, and as key [sort:] followed
    by the digits-only form of the value, which is six digits long; these
    entries are the last part of the map of [findBankAccounts]. *)
Theorem C6_sort_code_value (text : jsstring) :
  Forall (fun e => sortCodeText (snd e)
                   /\ fst e = js "sort:" ++ digitsOnly (snd e)
                   /\ digits (digitsOnly (snd e))
                   /\ length (digitsOnly (snd e)) = 6)
         (sortCodes text)
  /\ exists others, bankMap text = others ++ sortCodes text.
Proof.
  split.
  - apply kept_Forall. intros r k v Hin He. simpl.
    split; [eapply sort_entry_text; eauto|].
    apply sort_entry_value in He. destruct He as (_ & Hk & Hl & _).
    split; [assumption|]. split; [apply digitsOnly_are_digits|].
    unfold len in Hl. lia.
  - rewrite bankMap_families. eexists. rewrite !app_assoc. reflexivity.
Qed.

(* ===================================================================== *)
(** ** The IBAN check, as the specification words it *)
(* ===================================================================== *)

(** [A] counts 10, ..., [Z] counts 35. *)
Definition letterValue (ch : Z) : Z := (ch - 55)%Z.

(** The decimal digits a code unit of the rearranged string stands for: a
    digit for itself, a letter for the two digits of its value. *)
Definition ibanDigits (ch : Z) : list Z :=
  if Char.is_digit ch then [(ch - 48)%Z]
  else [(letterValue ch / 10)%Z; (letterValue ch mod 10)%Z].

(** One digit folded into the running remainder. *)
Definition mod97Step (acc dgt : Z) : Z := ((acc * 10 + dgt) mod 97)%Z.

(** The remainder of the rearranged string, digit by digit. *)
Definition ibanRemainder (s : jsstring) : Z :=
  fold_left mod97Step (flat_map ibanDigits (skipn 4 s ++ firstn 4 s)) 0%Z.

(** The number the digits spell. *)
Definition decimalValue (ds : list Z) : Z :=
  fold_left (fun acc dgt => (acc * 10 + dgt)%Z) ds 0%Z.

Section IbanCheck.

Lemma ibanLoop_spec l :
  Forall (fun a => ibanAlnum a = true) l ->
  forall acc,
    ibanLoop l acc = Some (fold_left mod97Step (flat_map ibanDigits l) acc).
Proof.
  induction 1 as [|ch l Hch _ IH]; intros acc; simpl; [reflexivity|].
  unfold ibanDigits. destruct (Char.is_digit ch) eqn:Hd.
  - assert (Ht : ((ch >=? 48)%Z && (ch <=? 57)%Z) = true)
      by (rewrite Z.geb_leb; exact Hd).
    rewrite Ht. simpl. apply IH.
  - assert (Ht : ((ch >=? 48)%Z && (ch <=? 57)%Z) = false)
      by (rewrite Z.geb_leb; exact Hd).
    rewrite Ht.
    assert (Hu : ((ch >=? 65)%Z && (ch <=? 90)%Z) = true).
    { rewrite Z.geb_leb. unfold ibanAlnum in Hch. rewrite Hd, orb_false_r in Hch.
      exact Hch. }
    rewrite Hu. simpl. apply IH.
Qed.

Lemma ibanShape_alnum s :
  ibanShape s = true -> Forall (fun a => ibanAlnum a = true) s.
Proof.
  unfold ibanShape. rewrite !andb_true_iff.
  intros ((((Ha & Hb) & Hc) & _) & _).
  rewrite <- (firstn_skipn 2 s). apply Forall_app. split.
  - apply Shapes.Forall_forallb in Ha. eapply Forall_impl; [|exact Ha].
    intros a H. unfold ibanAlnum. now rewrite H.
  - rewrite <- (firstn_skipn 2 (skipn 2 s)). apply Forall_app. split.
    + apply Shapes.Forall_forallb in Hb. eapply Forall_impl; [|exact Hb].
      intros a H. unfold ibanAlnum. rewrite H. apply orb_true_r.
    + rewrite skipn_skipn. simpl. now apply Shapes.Forall_forallb.
Qed.

Lemma Forall_rotate (P : Z -> Prop) n l :
  Forall P l -> Forall P (skipn n l ++ firstn n l).
Proof.
  intros H. rewrite <- (firstn_skipn n l) in H. apply Forall_app in H.
  apply Forall_app. tauto.
Qed.

(** Folding digit by digit gives the remainder of the whole number. *)
Lemma mod97_incremental ds :
  fold_left mod97Step ds 0%Z = (decimalValue ds mod 97)%Z.
Proof.
  unfold decimalValue.
  assert (H : forall a b, (a mod 97 = b mod 97)%Z ->
                (fold_left mod97Step ds (a mod 97)
                 = fold_left (fun acc dgt => acc * 10 + dgt) ds b mod 97)%Z).
  { induction ds as [|dgt ds IH]; intros a b Hab; simpl; [assumption|].
    unfold mod97Step at 2.
    rewrite <- (Z.mod_mod (a mod 97 * 10 + dgt) 97) by lia. apply IH.
    rewrite Z.mod_mod by lia.
    rewrite Z.add_mod, Z.mul_mod, Z.mod_mod by lia.
    rewrite Hab. rewrite <- Z.mul_mod, <- Z.add_mod by lia. reflexivity. }
  apply (H 0%Z 0%Z). reflexivity.
Qed.

End IbanCheck.

(** C4: [isValidIban] answers [true] exactly on the strings of the strict
    shape (two capital letters, two digits, 11 to 30 capital letters or
    digits) whose rearranged form, with letters read as two digits and the
    remainder modulo 97 kept digit by digit, leaves the remainder 1. *)
Theorem C4_isValidIban_mod97 (iban : jsstring) :
  isValidIban iban = true
  <-> ibanShape iban = true /\ ibanRemainder iban = 1%Z.
Proof.
  unfold isValidIban. rewrite Shapes.IBAN_SHAPE_test.
  destruct (ibanShape iban) eqn:Hs; simpl.
  - pose proof (Forall_rotate 4 (ibanShape_alnum _ Hs)) as Hall.
    rewrite (ibanLoop_spec Hall). fold (ibanRemainder iban).
    rewrite Z.eqb_eq. tauto.
  - split; [discriminate | intros [H _]; discriminate].
Qed.

Lemma C4_isValidIban_mod97_witness :
  ibanShape (js "GB82WEST12345698765432") = true
  /\ ibanRemainder (js "GB82WEST12345698765432") = 1%Z.
Proof.
  apply (C4_isValidIban_mod97 (js "GB82WEST12345698765432")).
  vm_compute. reflexivity.
Defined.

(* ===================================================================== *)
(** ** Card candidates: Luhn checksum or a label nearby *)
(* ===================================================================== *)

(** The Luhn checksum as the specification words it: counting from the
    right, every second digit is doubled, 9 is subtracted from a doubled
    digit above 9, and the sum has to be divisible by 10. *)
Definition luhnDouble (dgt : Z) : Z :=
  if (dgt * 2 >? 9)%Z then (dgt * 2 - 9)%Z else (dgt * 2)%Z.

Definition luhnTerm (i : nat) (c : Z) : Z :=
  if Nat.odd i then luhnDouble (c - 48) else (c - 48)%Z.

Definition luhnTerms (from : nat) (right_to_left : jsstring) : list Z :=
  List.map (fun p => luhnTerm (fst p) (snd p))
    (combine (List.seq from (length right_to_left)) right_to_left).

Definition luhnSum (s : jsstring) : Z :=
  fold_right Z.add 0%Z (luhnTerms 0 (rev s)).

Definition luhnValid (s : jsstring) : Prop := (luhnSum s mod 10 = 0)%Z.

(** The labels of the specification, as plain texts. *)
Definition cardKeywordList : list jsstring :=
  [ js "credit card"; js "debit card"; js "card number"; js "visa";
    js "mastercard"; js "amex"; js "american express" ].

Fixpoint isPrefix (w s : jsstring) : bool :=
  match w, s with
  | [], _ => true
  | a :: w', b :: s' => (a =? b)%Z && isPrefix w' s'
  | _ :: _, [] => false
  end.

Fixpoint isInfix (w s : jsstring) : bool :=
  isPrefix w s || match s with [] => false | _ :: s' => isInfix w s' end.

(** "The window contains one of the keywords", read literally. *)
Definition containsKeyword (ctx : jsstring) : bool :=
  existsb (fun w => isInfix w ctx) cardKeywordList.

Section Cards.

Import RegexFacts ExecFacts Shapes.

Lemma luhnLoop_sum l : forall k acc,
  digits l ->
  luhnLoop l acc (Nat.odd k)
  = Some (acc + fold_right Z.add 0 (luhnTerms k l))%Z.
Proof.
  unfold luhnTerms.
  induction l as [|c l IH]; intros k acc Hd; simpl.
  - now rewrite Z.add_0_r.
  - inversion Hd; subst. rewrite (digit_code _ H1).
    replace (negb (Nat.odd k)) with (Nat.odd (S k))
      by (rewrite Nat.odd_succ, <- Nat.negb_odd; reflexivity).
    rewrite IH by assumption. f_equal. unfold luhnTerm, luhnDouble. simpl.
    destruct (Nat.odd k); lia.
Qed.

(** On digit strings [luhnCheck] decides the checksum of the
    specification. *)
Lemma luhnCheck_spec s : digits s -> luhnCheck s = true <-> luhnValid s.
Proof.
  intros Hd. unfold luhnCheck, luhnValid, luhnSum.
  change false with (Nat.odd 0).
  rewrite (@luhnLoop_sum (rev s) 0 0%Z) by (apply Forall_rev; exact Hd).
  rewrite Z.add_0_l. apply Z.eqb_eq.
Qed.

Lemma card_candidate text r :
  In r (execAll CARD_CANDIDATE_RE text) ->
  cardText (m0 r)
  /\ exists pre post,
       text = pre ++ m0 r ++ post
       /\ index r = len pre
       /\ notDigitOpt (lastp pre None)
       /\ notDigitOpt (hd_error post).
Proof.
  intros Hin. apply execAll_Matches in Hin.
  destruct Hin as (pre & post & y & Ht & Hi & HM & HS & Hr & _).
  apply CARD_CANDIDATE_shape in HM. destruct HM as (l & HS' & Hl & Hb & Ha).
  rewrite (Span_inj HS HS'). split; [assumption|].
  exists pre, post. rewrite <- (Span_inj HS HS'). rewrite Hr in Ha. auto.
Qed.

Lemma card_candidate_guard text r :
  In r (execAll CARD_CANDIDATE_RE text) ->
  let ds := digitsOnly (trim (m0 r)) in
  ((len ds <? 13)%Z || (len ds >? 19)%Z) = false /\ (index r >=? 0)%Z = true.
Proof.
  intros Hin ds. destruct (card_candidate _ _ Hin)
    as ((_ & _ & Hn) & pre & post & _ & Hi & _).
  unfold ds. rewrite digitsOnly_trim. split.
  - apply orb_false_iff. rewrite Z.gtb_ltb, !Z.ltb_ge. unfold len. lia.
  - rewrite Z.geb_leb. apply Z.leb_le. rewrite Hi. unfold len. lia.
Qed.

Lemma body_on_empty e :
  insertNew e JsMap.empty = match e with Some p => [p] | None => [] end.
Proof. destruct e as [[k v]|]; reflexivity. Qed.

End Cards.

Section CardAcceptance.

Import RegexFacts ExecFacts Shapes.

Lemma card_entry_accept text r :
  In r (execAll CARD_CANDIDATE_RE text) ->
  let raw := trim (m0 r) in
  let ds := digitsOnly raw in
  let ctx := cardContext text (index r) raw in
  (card_entry text r = Some (ds, raw)
   <-> luhnValid ds \/ keywordInContext ctx)
  /\ (card_entry text r = Some (ds, raw) \/ card_entry text r = None).
Proof.
  intros Hin raw ds ctx.
  destruct (card_candidate_guard _ _ Hin) as (Hg & Hi).
  fold raw in Hg. fold ds in Hg.
  unfold card_entry. fold raw. fold ds. rewrite Hg, Hi. fold ctx.
  rewrite <- CARD_KEYWORD_test.
  pose proof (luhnCheck_spec (digitsOnly_are_digits raw)) as Hl.
  fold ds in Hl. rewrite <- Hl.
  destruct (luhnCheck ds); destruct (test CARD_KEYWORD_RE ctx); simpl;
    (split; [split|]); auto; try discriminate; intros [H|H]; discriminate.
Qed.

Lemma In_findCreditCards text v :
  In v (findCreditCards text)
  -> exists r, In r (execAll CARD_CANDIDATE_RE text)
               /\ card_entry text r = Some (digitsOnly v, v).
Proof.
  rewrite findCreditCards_kept. unfold JsMap.values. rewrite in_map_iff.
  intros ([k v'] & <- & Hin). apply kept_In in Hin.
  destruct Hin as (r & Hr & He). exists r. split; [assumption|]. simpl.
  pose proof (card_entry_value _ _ He) as (_ & -> & _). exact He.
Qed.

Lemma accepted_card_listed text r k v :
  In r (execAll CARD_CANDIDATE_RE text) ->
  card_entry text r = Some (k, v) ->
  exists v', In v' (findCreditCards text) /\ digitsOnly v' = k.
Proof.
  intros Hr He.
  assert (Hoff : In (k, v) (offered (card_entry text)
                              (execAll CARD_CANDIDATE_RE text)))
    by (apply offered_In; eauto).
  destruct (firstByKey_covers [] _ _ _ Hoff) as [[]|Hk].
  fold (kept (card_entry text) CARD_CANDIDATE_RE text) in Hk.
  unfold JsMap.keys in Hk. apply in_map_iff in Hk.
  destruct Hk as ([k' v'] & Hkv & Hin). simpl in Hkv. subst k'.
  exists v'. split.
  - rewrite findCreditCards_kept. unfold JsMap.values. apply in_map_iff.
    exists (k, v'). auto.
  - apply kept_In in Hin. destruct Hin as (r' & _ & He').
    now pose proof (card_entry_value _ _ He') as (_ & -> & _).
Qed.

End CardAcceptance.

(** C3, as stated, fails in both directions.  In "visas 4532015112830367"
    the window contains the keyword "visa" and the candidate fails Luhn,
    yet it is rejected, because the keyword has to stand as a whole word.
    In "creditcard 4532015112830367" the window contains none of the
    keywords and the candidate fails Luhn, yet it is accepted, because the
    two words of a keyword may be joined by any run of white space, also
    an empty one. *)
Lemma C3_keyword_counterexample :
  (let text := js "visas 4532015112830367" in
   let r := {| index := 6; m0 := js "4532015112830367"; m1 := None |} in
   execAll CARD_CANDIDATE_RE text = [r]
   /\ luhnCheck (digitsOnly (trim (m0 r))) = false
   /\ containsKeyword (cardContext text (index r) (trim (m0 r))) = true
   /\ findCreditCards_body text r JsMap.empty = []
   /\ findCreditCards text = [])
  /\ (let text := js "creditcard 4532015112830367" in
      let r := {| index := 11; m0 := js "4532015112830367"; m1 := None |} in
      execAll CARD_CANDIDATE_RE text = [r]
      /\ luhnCheck (digitsOnly (trim (m0 r))) = false
      /\ containsKeyword (cardContext text (index r) (trim (m0 r))) = false
      /\ findCreditCards_body text r JsMap.empty
         = [ (js "4532015112830367", js "4532015112830367") ]
      /\ findCreditCards text = [ js "4532015112830367" ]).
Proof.
  split; repeat split; vm_compute; reflexivity.
Qed.

(** C3, amended: a candidate of the card scan starts with a digit, is made
    of digits, spaces and dashes, holds 13 to 19 digits and has no digit
    next to it in the text; the loop stores it, under its digits-only
    form, exactly when that form passes the Luhn checksum or the lowered
    window of 50 code units around it shows one of the labels as a whole
    word, the two words of a label being joined by any run of white
    space; a stored candidate has a match with its digits in the result,
    and every card value of the result comes from a stored candidate.
    4532015112830366 passes the checksum and 4532015112830367 does not. *)
Theorem C3_card_acceptance (text : jsstring) (r : MatchResult) :
  (In r (execAll CARD_CANDIDATE_RE text) ->
   let raw := trim (m0 r) in
   let ds := digitsOnly raw in
   let ctx := cardContext text (index r) raw in
   cardText (m0 r)
   /\ (exists pre post,
         text = pre ++ m0 r ++ post
         /\ index r = len pre
         /\ notDigitOpt (RegexFacts.lastp pre None)
         /\ notDigitOpt (hd_error post))
   /\ (findCreditCards_body text r JsMap.empty = [(ds, raw)]
       <-> luhnValid ds \/ keywordInContext ctx)
   /\ (findCreditCards_body text r JsMap.empty = [(ds, raw)]
       \/ findCreditCards_body text r JsMap.empty = [])
   /\ (findCreditCards_body text r JsMap.empty = [(ds, raw)] ->
       exists v, In v (findCreditCards text) /\ digitsOnly v = ds))
  /\ (forall v, In v (findCreditCards text) ->
        exists r', In r' (execAll CARD_CANDIDATE_RE text)
                   /\ findCreditCards_body text r' JsMap.empty
                      = [(digitsOnly v, v)])
  /\ (luhnCheck (js "4532015112830366") = true
      /\ luhnValid (js "4532015112830366"))
  /\ (luhnCheck (js "4532015112830367") = false
      /\ ~ luhnValid (js "4532015112830367")).
Proof.
  split; [|split; [|split]].
  - intros Hin raw ds ctx.
    destruct (card_candidate _ _ Hin) as (Htext & Hpos).
    destruct (card_entry_accept _ _ Hin) as (Hiff & Hcase).
    fold raw in Hiff, Hcase. fold ds in Hiff, Hcase. fold ctx in Hiff.
    rewrite findCreditCards_body_entry, body_on_empty.
    split; [exact Htext|]. split; [exact Hpos|].
    destruct (card_entry text r) as [[k v]|] eqn:He.
    + destruct Hcase as [Hc|Hc]; [|discriminate]. inversion Hc; subst k v.
      split; [|split].
      * rewrite <- Hiff. tauto.
      * now left.
      * intros _. eapply accepted_card_listed; eauto.
    + split; [|split].
      * rewrite <- Hiff. split; discriminate.
      * now right.
      * discriminate.
  - intros v Hv. apply In_findCreditCards in Hv. destruct Hv as (r' & Hr & He).
    exists r'. split; [assumption|].
    now rewrite findCreditCards_body_entry, body_on_empty, He.
  - split; [vm_compute; reflexivity|]. vm_compute. reflexivity.
  - split; [vm_compute; reflexivity|]. vm_compute. discriminate.
Qed.

Lemma C3_card_acceptance_witness :
  findCreditCards_body (js "my visa 4532015112830367")
    {| index := 8; m0 := js "4532015112830367"; m1 := None |} JsMap.empty
  = [ (js "4532015112830367", js "4532015112830367") ]
  <-> luhnValid (js "4532015112830367")
      \/ keywordInContext (js "my visa 4532015112830367").
Proof.
  destruct (C3_card_acceptance (js "my visa 4532015112830367")
              {| index := 8; m0 := js "4532015112830367"; m1 := None |})
    as (H & _).
  assert (Hin : In {| index := 8; m0 := js "4532015112830367"; m1 := None |}
                  (execAll CARD_CANDIDATE_RE (js "my visa 4532015112830367")))
    by (vm_compute; left; reflexivity).
  destruct (H Hin) as (_ & _ & Hiff & _). exact Hiff.
Defined.

(* ===================================================================== *)
(** ** Every value is a piece of the text *)
(* ===================================================================== *)

(** [v] occurs in [s] as a run of consecutive code units. *)
Definition occursIn (v s : jsstring) : Prop := exists a b, s = a ++ v ++ b.

Section Occurrences.

Import RegexFacts ExecFacts Shapes.

Lemma occursIn_refl s : occursIn s s.
Proof. exists [], []. now rewrite app_nil_r. Qed.

Lemma occursIn_nil s : occursIn [] s.
Proof. exists [], s. reflexivity. Qed.

Lemma occursIn_trans u v s : occursIn u v -> occursIn v s -> occursIn u s.
Proof.
  intros (a & b & ->) (c & d & ->). exists (c ++ a), (b ++ d).
  now rewrite <- !app_assoc.
Qed.

Lemma trim_occursIn s : occursIn (trim s) s.
Proof.
  destruct (trimStart_split s) as (w1 & _ & H1).
  destruct (trim_split s) as (w2 & _ & H2).
  exists w1, w2. rewrite <- H2. exact H1.
Qed.

(** Group 1, when a match sets it, is a piece of what the match consumed. *)
Definition capWithin (x y : state) (l : jsstring) : Prop :=
  cap y = cap x \/ exists v, cap y = Some v /\ occursIn v l.

Lemma capWithin_trans x w y l1 l2 :
  capWithin x w l1 -> capWithin w y l2 -> capWithin x y (l1 ++ l2).
Proof.
  intros H1 [H2|(v & Hv & a & b & ->)].
  - destruct H1 as [H1|(v & Hv & a & b & ->)].
    + left. congruence.
    + right. exists v. split; [congruence|]. exists a, (b ++ l2).
      now rewrite <- !app_assoc.
  - right. exists v. split; [assumption|]. exists (l1 ++ a), b.
    now rewrite <- !app_assoc.
Qed.

Lemma RepM_cap (R : state -> state -> Prop) :
  (forall x y, R x y -> exists l, Span x y l /\ capWithin x y l) ->
  forall lo hi x y,
    RepM R lo hi x y -> exists l, Span x y l /\ capWithin x y l.
Proof.
  intros HR lo hi x y H. induction H as [lo hi x _|lo hi x y z _ Hxy _ _ IH].
  - exists []. split; [apply Span_refl | now left].
  - destruct (HR _ _ Hxy) as (l1 & S1 & C1). destruct IH as (l2 & S2 & C2).
    exists (l1 ++ l2). split; [apply (Span_trans S1 S2)|].
    apply (capWithin_trans C1 C2).
Qed.

Lemma Matches_cap ic r :
  forall x y, Matches ic r x y -> exists l, Span x y l /\ capWithin x y l.
Proof.
  induction r as [|c|r1 IH1 r2 IH2|r1 IH1 r2 IH2|lo hi g r1 IH1|r1 IH1
                  | |c|c| |]; intros x y H; simpl in H;
    try (destruct H as (_ & ->); exists []; split; [apply Span_refl | now left]).
  - subst. exists []. split; [apply Span_refl | now left].
  - destruct H as (a & tl & Hr & _ & ->). exists [a].
    split; [split; simpl; auto | now left].
  - destruct H as (w & H1 & H2). apply IH1 in H1. apply IH2 in H2.
    destruct H1 as (l1 & S1 & C1). destruct H2 as (l2 & S2 & C2).
    exists (l1 ++ l2). split; [apply (Span_trans S1 S2)|].
    apply (capWithin_trans C1 C2).
  - destruct H as [H|H]; [now apply IH1 | now apply IH2].
  - eapply RepM_cap; eauto.
  - destruct H as (w & H1 & ->). apply IH1 in H1.
    destruct H1 as (l & S1 & _). exists l. split.
    + destruct S1. split; simpl; assumption.
    + right. exists l. split; [|apply occursIn_refl]. simpl.
      now rewrite (Span_consumed S1).
Qed.

(** What a loop body reads of a match, [m[0]] and [m[1] ?? empty], occurs
    in the scanned text. *)
Lemma match_parts_occur re text r :
  In r (execAll re text) ->
  occursIn (m0 r) text /\ occursIn (orEmpty (m1 r)) text.
Proof.
  intros Hin. apply execAll_Matches in Hin.
  destruct Hin as (pre & post & y & Ht & _ & HM & HS & _ & Hc).
  assert (H0 : occursIn (m0 r) text) by (exists pre, post; exact Ht).
  split; [exact H0|].
  apply Matches_cap in HM. destruct HM as (l & HS' & HC).
  rewrite <- (Span_inj HS HS') in HC. rewrite Hc.
  destruct HC as [HC|(v & Hv & Hocc)].
  - rewrite HC. simpl. apply occursIn_nil.
  - rewrite Hv. simpl. eapply occursIn_trans; eauto.
Qed.

End Occurrences.

(** X1: every value returned by [findSensitiveMatches] occurs in the text as
    it is written there: the text is some code units, the value, and some
    more code units. *)
Theorem values_occur_in_text (text : jsstring) :
  Forall (fun m => occursIn (value m) text) (findSensitiveMatches text).
Proof.
  assert (Htag : forall t l, Forall (fun v => occursIn v text) l ->
                   Forall (fun m => occursIn (value m) text) (tag t l)).
  { intros t l H. unfold tag. apply Forall_map. exact H. }
  assert (Hval : forall entry re,
             (forall r k v, entry r = Some (k, v) ->
                v = trim (m0 r) \/ v = trim (orEmpty (m1 r))) ->
             Forall (fun v => occursIn v text) (JsMap.values (kept entry re text))).
  { intros entry re He. unfold JsMap.values. apply Forall_map.
    apply kept_Forall. intros r k v Hin Hr. simpl.
    destruct (match_parts_occur _ _ _ Hin) as (H0 & H1).
    destruct (He _ _ _ Hr) as [-> | ->];
      (eapply occursIn_trans; [apply trim_occursIn | assumption]). }
  assert (Happ : forall (P : SensitiveMatch -> Prop) a b,
             Forall P a -> Forall P b -> Forall P (a ++ b)).
  { intros P a b Ha Hb. apply Forall_app. now split. }
  assert (Hu : forall re, Forall (fun v => occursIn v text)
                            (matchAllUnique text re)).
  { intros re. rewrite matchAllUnique_kept. apply Hval.
    intros r k v H. apply matchAllUnique_entry_value in H. tauto. }
  rewrite findSensitiveMatches_app.
  repeat apply Happ; apply Htag; try apply Hu.
  - rewrite findSsnLast4_kept. apply Hval.
    intros r k v H. apply ssnLast4_entry_value in H. tauto.
  - rewrite findCreditCards_kept. apply Hval.
    intros r k v H. apply card_entry_value in H. tauto.
  - unfold findBankAccounts. rewrite bankMap_families.
    unfold JsMap.values. rewrite !map_app.
    assert (Happ' : forall (P : jsstring -> Prop) a b,
               Forall P a -> Forall P b -> Forall P (a ++ b)).
    { intros P a b Ha Hb. apply Forall_app. now split. }
    repeat apply Happ'; apply Hval; intros r k v H.
    + apply iban_entry_value in H. tauto.
    + apply routing_entry_value in H. tauto.
    + apply account_entry_value in H. tauto.
    + apply sort_entry_value in H. tauto.
Qed.

(* ===================================================================== *)
(** ** The scanning loops read the text from left to right *)
(* ===================================================================== *)

(** [r1] ends before [r2] starts. *)
Definition endsBefore (r1 r2 : MatchResult) : Prop :=
  (index r1 + len (m0 r1) <= index r2)%Z.

Section ScanOrder.

Import RegexFacts ExecFacts.

Lemma execSeq_sorted re : forall fuel c,
  StronglySorted endsBefore (execSeq re fuel c)
  /\ Forall (fun r => (lastIndex c <= index r)%Z) (execSeq re fuel c).
Proof.
  induction fuel as [|fuel IH]; intros c; simpl.
  - split; constructor.
  - destruct (exec re c) as [[r c']|] eqn:He; [|split; constructor].
    unfold exec in He. apply execFrom_spec in He.
    destruct He as (skip & y & _ & _ & Hi & _ & Hl).
    destruct (IH c') as (Hs & Hf).
    assert (Hlen : (0 <= len skip)%Z) by (unfold len; lia).
    assert (Hm : (0 <= len (m0 r))%Z) by (unfold len; lia).
    split.
    + constructor; [exact Hs|]. eapply Forall_impl; [|exact Hf].
      intros r' Hr'. cbv beta in Hr'. unfold endsBefore. lia.
    + constructor; [lia|]. eapply Forall_impl; [|exact Hf].
      intros r' Hr'. cbv beta in Hr'. lia.
Qed.

End ScanOrder.

(** X2: the matches that a scanning loop hands to its body come in text
    order and do not overlap: each one lies in the text at its [index],
    and ends before the next one starts.  "First seen" in the maps of the
    module therefore means leftmost in the text. *)
Theorem scan_left_to_right (re : RegExp) (text : jsstring) :
  StronglySorted endsBefore (execAll re text)
  /\ Forall (fun r => exists pre post,
                        text = pre ++ m0 r ++ post /\ index r = len pre)
            (execAll re text).
Proof.
  split.
  - apply execSeq_sorted.
  - apply Forall_forall. intros r Hr. apply execAll_Matches in Hr.
    destruct Hr as (pre & post & y & Ht & Hi & _). eauto.
Qed.

(* ===================================================================== *)
(** ** What a text must contain to yield a match *)
(* ===================================================================== *)

Module Needs.

Import RegexFacts ExecFacts Shapes.

(** [Requires ic P r]: by the syntax of [r], every match of [r] contains a
    code unit with property [P]. *)
Fixpoint Requires (ic : bool) (P : Z -> Prop) (r : regex) : Prop :=
  match r with
  | Chr c => forall a, cmem ic c a = true -> P a
  | Seq r1 r2 => Requires ic P r1 \/ Requires ic P r2
  | Alt r1 r2 => Requires ic P r1 /\ Requires ic P r2
  | Rep lo hi _ r1 => 1 <= rep_floor lo hi /\ Requires ic P r1
  | Cap r1 => Requires ic P r1
  | _ => False
  end.

Lemma Requires_sound ic P r :
  Requires ic P r ->
  forall x y, Matches ic r x y -> exists l, Span x y l /\ Exists P l.
Proof.
  induction r as [|c|r1 IH1 r2 IH2|r1 IH1 r2 IH2|lo hi g r1 IH1|r1 IH1
                  | |c|c| |]; simpl; intros HR x y H; try contradiction.
  - destruct H as (a & tl & Hr & Hc & ->). exists [a].
    split; [split; simpl; auto|]. constructor. now apply HR.
  - destruct H as (w & H1 & H2). destruct HR as [HR|HR].
    + destruct (IH1 HR _ _ H1) as (l1 & S1 & E1).
      destruct (Matches_span _ _ _ _ H2) as (l2 & S2).
      exists (l1 ++ l2). split; [apply (Span_trans S1 S2)|].
      apply Exists_app. now left.
    + destruct (Matches_span _ _ _ _ H1) as (l1 & S1).
      destruct (IH2 HR _ _ H2) as (l2 & S2 & E2).
      exists (l1 ++ l2). split; [apply (Span_trans S1 S2)|].
      apply Exists_app. now right.
  - destruct HR as [HR1 HR2]. destruct H as [H|H]; eauto.
  - destruct HR as [Hfl HR]. inversion H as [? ? ? Hstop|? ? ? w ? Hhi Hxw _ Hrep];
      subst.
    + exfalso. unfold rep_floor in Hfl.
      destruct Hstop as [->| ->]; [rewrite Nat.min_0_r in Hfl|]; simpl in Hfl;
        try lia. destruct hi; simpl in Hfl; lia.
    + destruct (IH1 HR _ _ Hxw) as (l1 & S1 & E1).
      destruct (RepM_span (Matches_span ic r1) Hrep) as (l2 & S2).
      exists (l1 ++ l2). split; [apply (Span_trans S1 S2)|].
      apply Exists_app. now left.
  - destruct H as (w & H1 & ->). destruct (IH1 HR _ _ H1) as (l & S1 & E1).
    exists l. split; [|assumption]. destruct S1. split; simpl; assumption.
Qed.

(** A text without such a code unit has no match at all. *)
Lemma execAll_needs re P text :
  Requires (ignoreCase re) P (pattern re) ->
  Forall (fun a => ~ P a) text ->
  execAll re text = [].
Proof.
  intros HR Hno. destruct (execAll re text) as [|r rs] eqn:He; [reflexivity|].
  exfalso. assert (Hin : In r (execAll re text)) by (rewrite He; now left).
  apply execAll_Matches in Hin.
  destruct Hin as (pre & post & y & Ht & _ & HM & HS & _).
  destruct (Requires_sound _ _ _ HR _ _ HM) as (l & HS' & HE).
  rewrite <- (Span_inj HS HS') in HE. apply Exists_exists in HE.
  destruct HE as (a & Ha & HP). rewrite Forall_forall in Hno.
  apply (Hno a); [|assumption]. rewrite Ht.
  apply in_or_app. right. apply in_or_app. now left.
Qed.

Definition isDigit (a : Z) : Prop := Char.is_digit a = true.
Definition isAt (a : Z) : Prop := a = 64%Z.

Lemma digit_leaf ic lo hi g :
  1 <= rep_floor lo hi -> Requires ic isDigit (Rep lo hi g digit).
Proof.
  intros H. split; [assumption|]. intros a Ha. now rewrite cmem_digit in Ha.
Qed.

Ltac needs_digit :=
  first
    [ apply digit_leaf; vm_compute; lia
    | match goal with |- _ \/ _ => left; needs_digit end
    | match goal with |- _ \/ _ => right; needs_digit end
    | match goal with |- Requires _ _ (Cap _) => cbn [Requires]; needs_digit end ].

Ltac needs_digit_in re :=
  unfold re;
  cbn [pattern ignoreCase seq fold_right Requires]; needs_digit.

Lemma digit_patterns :
  Forall (fun re => Requires (ignoreCase re) isDigit (pattern re))
    [ SSN_RE; SSN_LAST4_CONTEXT_RE; PHONE_RE; CARD_CANDIDATE_RE;
      IBAN_CANDIDATE_RE; ROUTING_RE; ACCOUNT_RE; SORT_CODE_RE;
      INS_POLICY_RE; EMPLOYEE_ID_RE; MRN_RE ].
Proof.
  apply Forall_cons; [needs_digit_in SSN_RE|].
  apply Forall_cons; [needs_digit_in SSN_LAST4_CONTEXT_RE|].
  apply Forall_cons; [needs_digit_in PHONE_RE|].
  apply Forall_cons.
  { unfold CARD_CANDIDATE_RE.
    cbn [pattern ignoreCase seq fold_right Requires range].
    right. left. split; [vm_compute; lia|]. left. intros a Ha.
    now rewrite cmem_digit in Ha. }
  apply Forall_cons; [needs_digit_in IBAN_CANDIDATE_RE|].
  apply Forall_cons; [needs_digit_in ROUTING_RE|].
  apply Forall_cons; [needs_digit_in ACCOUNT_RE|].
  apply Forall_cons.
  { unfold SORT_CODE_RE. cbn [pattern ignoreCase seq fold_right Requires].
    do 7 right. left. left. apply digit_leaf. vm_compute. lia. }
  apply Forall_cons; [needs_digit_in INS_POLICY_RE|].
  apply Forall_cons; [needs_digit_in EMPLOYEE_ID_RE|].
  apply Forall_cons; [needs_digit_in MRN_RE|].
  apply Forall_nil.
Qed.

Lemma email_needs_at : Requires (ignoreCase EMAIL_RE) isAt (pattern EMAIL_RE).
Proof.
  cbn [pattern ignoreCase seq fold_right Requires EMAIL_RE].
  right. right. left. unfold ch.
  change (js "@") with [64%Z]. cbn [List.map seq fold_right Requires].
  left. intros a Ha.
  unfold cmem in Ha. cbn [negated atoms cls existsb atom_mem xorb] in Ha.
  rewrite orb_false_r in Ha. apply Z.eqb_eq in Ha.
  unfold isAt, canonicalize in Ha |- *. zbool.
Qed.

Lemma kept_no_match entry re text :
  execAll re text = [] -> kept entry re text = [].
Proof. intros H. unfold kept. now rewrite H. Qed.

End Needs.

Section NothingToFind.

Import Needs.

Lemma digit_pattern_empty re text :
  In re [ SSN_RE; SSN_LAST4_CONTEXT_RE; PHONE_RE; CARD_CANDIDATE_RE;
          IBAN_CANDIDATE_RE; ROUTING_RE; ACCOUNT_RE; SORT_CODE_RE;
          INS_POLICY_RE; EMPLOYEE_ID_RE; MRN_RE ] ->
  nonDigits text -> execAll re text = [].
Proof.
  intros Hin Hno. pose proof digit_patterns as H. rewrite Forall_forall in H.
  apply (@execAll_needs re isDigit text (H re Hin)).
  eapply Forall_impl; [|exact Hno]. intros a Ha. unfold isDigit. congruence.
Qed.

Lemma matchAllUnique_no_match text re :
  execAll re text = [] -> matchAllUnique text re = [].
Proof.
  intros H. rewrite matchAllUnique_kept. now rewrite (@kept_no_match _ _ _ H).
Qed.

End NothingToFind.

(** X3: a text without a decimal digit yields nothing but email matches, a
    text without [@] yields no email match, and a text with neither
    (the empty text among them) yields the empty list. *)
Theorem matches_need_digit_or_at (text : jsstring) :
  (nonDigits text ->
   findSensitiveMatches text = tag email (matchAllUnique text EMAIL_RE))
  /\ (~ In 64%Z text ->
      Forall (fun m => type m <> email) (findSensitiveMatches text))
  /\ (nonDigits text -> ~ In 64%Z text -> findSensitiveMatches text = []).
Proof.
  assert (Hdig : nonDigits text ->
                 findSensitiveMatches text
                 = tag email (matchAllUnique text EMAIL_RE)).
  { intros Hno.
    assert (He : forall re,
               In re [ SSN_RE; SSN_LAST4_CONTEXT_RE; PHONE_RE; CARD_CANDIDATE_RE;
                       IBAN_CANDIDATE_RE; ROUTING_RE; ACCOUNT_RE; SORT_CODE_RE;
                       INS_POLICY_RE; EMPLOYEE_ID_RE; MRN_RE ] ->
               execAll re text = [])
      by (intros re Hin; now apply digit_pattern_empty).
    rewrite findSensitiveMatches_app.
    rewrite findSsnLast4_kept, findCreditCards_kept.
    unfold findBankAccounts. rewrite bankMap_families.
    rewrite !matchAllUnique_no_match with (re := SSN_RE)
      by (apply He; simpl; tauto).
    rewrite !matchAllUnique_no_match with (re := PHONE_RE)
      by (apply He; simpl; tauto).
    rewrite !matchAllUnique_no_match with (re := INS_POLICY_RE)
      by (apply He; simpl; tauto).
    rewrite !matchAllUnique_no_match with (re := EMPLOYEE_ID_RE)
      by (apply He; simpl; tauto).
    rewrite !matchAllUnique_no_match with (re := MRN_RE)
      by (apply He; simpl; tauto).
    rewrite !Needs.kept_no_match by (apply He; simpl; tauto).
    simpl. now rewrite app_nil_r. }
  assert (Hat : ~ In 64%Z text -> matchAllUnique text EMAIL_RE = []).
  { intros Hno. apply matchAllUnique_no_match.
    apply (@Needs.execAll_needs EMAIL_RE Needs.isAt text Needs.email_needs_at).
    apply Forall_forall. intros a Ha Heq. unfold Needs.isAt in Heq.
    subst a. contradiction. }
  split; [exact Hdig|]. split.
  - intros Hno. rewrite findSensitiveMatches_app, (Hat Hno). simpl.
    apply Forall_forall. intros m Hm Ht.
    assert (Hf : In m (filter (fun m => type_eqb (type m) email)
                         (tag ssn (matchAllUnique text SSN_RE)
                          ++ tag ssn (findSsnLast4 text)
                          ++ tag phone (matchAllUnique text PHONE_RE)
                          ++ tag card (findCreditCards text)
                          ++ tag bank (findBankAccounts text)
                          ++ tag insurancePolicy (matchAllUnique text INS_POLICY_RE)
                          ++ tag employeeId (matchAllUnique text EMPLOYEE_ID_RE)
                          ++ tag medicalRecordNumber (matchAllUnique text MRN_RE))))
      by (apply filter_In; split; [exact Hm | now rewrite Ht]).
    rewrite !filter_app, !filter_tag in Hf. simpl in Hf. exact Hf.
  - intros H1 H2. now rewrite (Hdig H1), (Hat H2).
Qed.

Lemma matches_need_digit_or_at_witness :
  findSensitiveMatches (js "Dear Ms Smith, see you on Monday.") = [].
Proof.
  destruct (matches_need_digit_or_at (js "Dear Ms Smith, see you on Monday."))
    as (_ & _ & H).
  apply H.
  - apply Forall_forall. intros a Ha. vm_compute in Ha.
    repeat (destruct Ha as [<-|Ha]; [reflexivity|]). contradiction.
  - intros Ha. vm_compute in Ha.
    repeat (destruct Ha as [Ha|Ha]; [discriminate Ha|]). contradiction.
Defined.

(* ===================================================================== *)
(** ** [luhnCheck] catches every single wrong digit *)
(* ===================================================================== *)

Section LuhnErrors.

Lemma luhnTerms_cons k c l :
  luhnTerms k (c :: l) = luhnTerm k c :: luhnTerms (S k) l.
Proof. reflexivity. Qed.

Lemma luhnTerms_app l1 : forall k l2,
  luhnTerms k (l1 ++ l2) = luhnTerms k l1 ++ luhnTerms (k + length l1) l2.
Proof.
  induction l1 as [|c l1 IH]; intros k l2.
  - simpl. now rewrite Nat.add_0_r.
  - simpl app. rewrite !luhnTerms_cons, IH. simpl length.
    now rewrite Nat.add_succ_r.
Qed.

Lemma sum_app (a b : list Z) :
  fold_right Z.add 0%Z (a ++ b)
  = (fold_right Z.add 0 a + fold_right Z.add 0 b)%Z.
Proof. induction a as [|x a IH]; simpl; [reflexivity | rewrite IH; lia]. Qed.

(** The sum of a string, with the contribution of one place set apart. *)
Lemma luhnSum_place (a b : jsstring) :
  exists others,
    forall c, luhnSum (a ++ c :: b) = (others + luhnTerm (length b) c)%Z.
Proof.
  exists (fold_right Z.add 0 (luhnTerms 0 (rev b))
          + fold_right Z.add 0 (luhnTerms (S (length b)) (rev a)))%Z.
  intros c. unfold luhnSum. rewrite rev_app_distr. simpl rev.
  rewrite <- app_assoc. simpl app.
  rewrite luhnTerms_app, sum_app, luhnTerms_cons, length_rev. simpl.
  lia.
Qed.

Lemma is_digit_bounds c : Char.is_digit c = true -> (48 <= c <= 57)%Z.
Proof. intros H. zbool. Qed.

Lemma luhnTerm_digit k c :
  Char.is_digit c = true -> (0 <= luhnTerm k c <= 9)%Z.
Proof.
  intros H. apply is_digit_bounds in H.
  unfold luhnTerm, luhnDouble. rewrite Z.gtb_ltb.
  destruct (Nat.odd k); [destruct (Z.ltb_spec 9 ((c - 48) * 2))|]; lia.
Qed.

Lemma luhnTerm_inj k c1 c2 :
  Char.is_digit c1 = true -> Char.is_digit c2 = true ->
  luhnTerm k c1 = luhnTerm k c2 -> c1 = c2.
Proof.
  intros H1 H2. apply is_digit_bounds in H1. apply is_digit_bounds in H2.
  unfold luhnTerm, luhnDouble. rewrite !Z.gtb_ltb.
  destruct (Nat.odd k);
    [destruct (Z.ltb_spec 9 ((c1 - 48) * 2));
     destruct (Z.ltb_spec 9 ((c2 - 48) * 2))|]; lia.
Qed.

End LuhnErrors.

(** X4: in a string of digits that passes [luhnCheck], replacing any one digit
    by a different digit gives a string that fails it. *)
Theorem luhnCheck_single_digit_error (a b : jsstring) (old c : Z) :
  digits (a ++ old :: b) ->
  Char.is_digit c = true ->
  c <> old ->
  luhnCheck (a ++ old :: b) = true ->
  luhnCheck (a ++ c :: b) = false.
Proof.
  intros Hd Hc Hne Hok.
  assert (Hold : Char.is_digit old = true).
  { unfold digits in Hd. rewrite Forall_forall in Hd. apply Hd.
    apply in_or_app. right. now left. }
  assert (Hd' : digits (a ++ c :: b)).
  { unfold digits in *. apply Forall_app in Hd. destruct Hd as [Ha Hb].
    apply Forall_app. split; [assumption|]. inversion Hb; subst.
    constructor; assumption. }
  apply (luhnCheck_spec Hd) in Hok.
  destruct (luhnCheck (a ++ c :: b)) eqn:Hnew; [|reflexivity].
  apply (luhnCheck_spec Hd') in Hnew. exfalso.
  unfold luhnValid in Hok, Hnew.
  destruct (luhnSum_place a b) as (others & Hsum).
  rewrite Hsum in Hok, Hnew.
  pose proof (luhnTerm_digit (length b) _ Hold) as B1.
  pose proof (luhnTerm_digit (length b) _ Hc) as B2.
  assert (Heq : luhnTerm (length b) c = luhnTerm (length b) old).
  { generalize dependent (luhnTerm (length b) c).
    generalize dependent (luhnTerm (length b) old).
    intros t1 Hok B1 t2 Hnew B2. Z.div_mod_to_equations. lia. }
  apply Hne. eapply luhnTerm_inj; eauto.
Qed.

Lemma luhnCheck_single_digit_error_witness :
  luhnCheck (js "4532015112830766") = false.
Proof.
  apply (@luhnCheck_single_digit_error (js "4532015112830") (js "66") 51%Z 55%Z).
  - apply Forall_forall. intros x Hx. vm_compute in Hx.
    repeat (destruct Hx as [<-|Hx]; [reflexivity|]). contradiction.
  - reflexivity.
  - discriminate.
  - vm_compute. reflexivity.
Defined.

(* ===================================================================== *)
(** ** [luhnCheck] and two neighbouring digits that change places *)
(* ===================================================================== *)

Section LuhnSwaps.

(** The sum of a string, with the contributions of two neighbouring places
    set apart. *)
Lemma luhnSum_places (a b : jsstring) :
  exists others,
    forall c1 c2,
      luhnSum (a ++ c1 :: c2 :: b)
      = (others + luhnTerm (length b) c2 + luhnTerm (S (length b)) c1)%Z.
Proof.
  exists (fold_right Z.add 0 (luhnTerms 0 (rev b))
          + fold_right Z.add 0 (luhnTerms (S (S (length b))) (rev a)))%Z.
  intros c1 c2. unfold luhnSum. rewrite rev_app_distr. simpl rev.
  rewrite <- !app_assoc. simpl app.
  rewrite luhnTerms_app, sum_app, !luhnTerms_cons, length_rev. simpl.
  lia.
Qed.

(** What two neighbouring digits add to the sum changes with their order,
    unless they are equal or are 0 and 9. *)
Lemma luhn_pair_swap k x y :
  Char.is_digit x = true -> Char.is_digit y = true ->
  ((luhnTerm k y + luhnTerm (S k) x
    - (luhnTerm k x + luhnTerm (S k) y)) mod 10 = 0)%Z
  <-> x = y \/ (x = 48 /\ y = 57)%Z \/ (x = 57 /\ y = 48)%Z.
Proof.
  intros Hx Hy. apply is_digit_bounds in Hx. apply is_digit_bounds in Hy.
  unfold luhnTerm, luhnDouble. rewrite Nat.odd_succ, <- Nat.negb_odd.
  rewrite !Z.gtb_ltb.
  destruct (Nat.odd k); cbn [negb];
    destruct (Z.ltb_spec 9 ((x - 48) * 2));
    destruct (Z.ltb_spec 9 ((y - 48) * 2));
    (split; [intros Hm; Z.div_mod_to_equations; lia
            | intros [->|[[-> ->]|[-> ->]]];
              first [ rewrite Z.sub_diag; reflexivity
                    | reflexivity | exfalso; lia ]]).
Qed.

End LuhnSwaps.

(** X5: in a string of digits that passes [luhnCheck], two neighbouring digits
    that change places go unnoticed exactly when they are equal or are 0
    and 9; every other exchange of neighbours makes the check fail. *)
Theorem luhnCheck_adjacent_swap (a b : jsstring) (x y : Z) :
  digits (a ++ x :: y :: b) ->
  luhnCheck (a ++ x :: y :: b) = true ->
  (luhnCheck (a ++ y :: x :: b) = true
   <-> x = y \/ (x = 48 /\ y = 57)%Z \/ (x = 57 /\ y = 48)%Z).
Proof.
  intros Hd Hok.
  assert (Hxy : Char.is_digit x = true /\ Char.is_digit y = true).
  { unfold digits in Hd. rewrite Forall_forall in Hd.
    split; apply Hd; apply in_or_app; right; simpl; tauto. }
  destruct Hxy as [Hx Hy].
  assert (Hd' : digits (a ++ y :: x :: b)).
  { unfold digits in *. apply Forall_app in Hd. destruct Hd as [Ha Hb].
    apply Forall_app. split; [assumption|].
    inversion Hb as [|? ? _ Hb']; subst. inversion Hb' as [|? ? _ Hb'']; subst.
    constructor; [assumption|]. constructor; assumption. }
  rewrite (luhnCheck_spec Hd'). apply (luhnCheck_spec Hd) in Hok.
  unfold luhnValid in *.
  destruct (luhnSum_places a b) as (others & Hsum).
  rewrite Hsum in Hok. rewrite Hsum.
  rewrite <- (@luhn_pair_swap (length b) x y Hx Hy).
  generalize dependent (luhnTerm (length b) x).
  generalize dependent (luhnTerm (length b) y).
  generalize dependent (luhnTerm (S (length b)) x).
  generalize dependent (luhnTerm (S (length b)) y).
  intros t1 t2 t3 Hok t4.
  split; intros H; Z.div_mod_to_equations; lia.
Qed.

Lemma luhnCheck_adjacent_swap_witness :
  luhnCheck (js "4532015112830636") = true
  <-> (51 = 54 \/ (51 = 48 /\ 54 = 57) \/ (51 = 57 /\ 54 = 48))%Z.
Proof.
  apply (@luhnCheck_adjacent_swap (js "4532015112830") (js "6") 51%Z 54%Z).
  - apply Forall_forall. intros c Hc. vm_compute in Hc.
    repeat (destruct Hc as [<-|Hc]; [reflexivity|]). contradiction.
  - vm_compute. reflexivity.
Defined.

(* ===================================================================== *)
(** ** [isValidIban] and the number an IBAN spells *)
(* ===================================================================== *)

(** The rearranged string read as one decimal number of any size. *)
Definition ibanNumber (s : jsstring) : Z :=
  decimalValue (flat_map ibanDigits (skipn 4 s ++ firstn 4 s)).

(** Two code units of one kind: two digits or two capital letters. *)
Definition sameKind (c1 c2 : Z) : bool :=
  (Char.is_digit c1 && Char.is_digit c2)
  || (Char.is_upper c1 && Char.is_upper c2).

Section IbanNumber.

Lemma ibanLoop_number l :
  Forall (fun a => ibanAlnum a = true) l ->
  ibanLoop l 0%Z = Some (decimalValue (flat_map ibanDigits l) mod 97)%Z.
Proof.
  intros H. rewrite (ibanLoop_spec H). now rewrite mod97_incremental.
Qed.

Lemma isValidIban_ibanNumber s :
  isValidIban s = true -> (ibanNumber s mod 97 = 1)%Z.
Proof.
  intros H. pose proof (isValidIban_shape _ H) as Hs.
  unfold isValidIban in H. rewrite Shapes.IBAN_SHAPE_test, Hs in H.
  cbn [negb] in H.
  rewrite (ibanLoop_number (Forall_rotate 4 (ibanShape_alnum _ Hs))) in H.
  apply Z.eqb_eq in H. exact H.
Qed.

Lemma ibanDigits_decimal c :
  ibanAlnum c = true -> Forall (fun dgt => (0 <= dgt <= 9)%Z) (ibanDigits c).
Proof.
  intros H. unfold ibanDigits, letterValue.
  destruct (Char.is_digit c) eqn:Hd.
  - apply is_digit_bounds in Hd. constructor; [lia | constructor].
  - unfold ibanAlnum in H. rewrite Hd, orb_false_r in H.
    assert (Hu : (65 <= c <= 90)%Z) by zbool.
    constructor; [|constructor; [|constructor]].
    + split; [apply Z.div_pos; lia|].
      apply Z.lt_succ_r. apply Z.div_lt_upper_bound; lia.
    + pose proof (Z.mod_pos_bound (c - 55) 10). lia.
Qed.

Lemma fold_decimal q : forall acc,
  (fold_left (fun a dgt => a * 10 + dgt) q acc
   = acc * 10 ^ Z.of_nat (length q) + decimalValue q)%Z.
Proof.
  unfold decimalValue.
  induction q as [|dgt q IH]; intros acc.
  - simpl. lia.
  - cbn [fold_left length]. rewrite IH, (IH (0 * 10 + dgt)%Z).
    rewrite Nat2Z.inj_succ, Z.pow_succ_r by lia. ring.
Qed.

Lemma decimalValue_app p q :
  (decimalValue (p ++ q)
   = decimalValue p * 10 ^ Z.of_nat (length q) + decimalValue q)%Z.
Proof.
  unfold decimalValue at 1. rewrite fold_left_app. apply fold_decimal.
Qed.

(** The rearranged string, with one place of the IBAN set apart. *)
Lemma rotate_place (a b : jsstring) :
  exists p q, forall c : Z,
    skipn 4 (a ++ c :: b) ++ firstn 4 (a ++ c :: b) = p ++ c :: q.
Proof.
  destruct a as [|a0 [|a1 [|a2 [|a3 a']]]].
  - exists (skipn 3 b), (firstn 3 b). reflexivity.
  - exists (skipn 2 b ++ [a0]), (firstn 2 b). intros c. simpl.
    now rewrite <- app_assoc.
  - exists (skipn 1 b ++ [a0; a1]), (firstn 1 b). intros c. simpl.
    now rewrite <- app_assoc.
  - exists (b ++ [a0; a1; a2]), []. intros c. simpl.
    now rewrite <- app_assoc.
  - exists a', (b ++ [a0; a1; a2; a3]). intros c. simpl.
    now rewrite <- app_assoc.
Qed.

(** A code unit counts for its digit, or for the value of its letter. *)
Lemma ibanDigits_value c :
  Char.is_digit c = true \/ Char.is_upper c = true ->
  length (ibanDigits c) = (if Char.is_digit c then 1 else 2)
  /\ decimalValue (ibanDigits c)
     = (if Char.is_digit c then c - 48 else c - 55)%Z.
Proof.
  intros H. unfold ibanDigits, letterValue, decimalValue.
  destruct (Char.is_digit c) eqn:Hd; simpl; [split; [reflexivity | lia]|].
  split; [reflexivity|]. destruct H as [H|H]; [discriminate|].
  pose proof (Z.div_mod (c - 55) 10). lia.
Qed.

Lemma upper_not_digit c : Char.is_upper c = true -> Char.is_digit c = false.
Proof. intros H. zbool. Qed.

(** Two different code units of one kind spell numbers of the same length
    whose difference is not zero and is less than 97 either way. *)
Lemma sameKind_values c1 c2 :
  sameKind c1 c2 = true -> c1 <> c2 ->
  length (ibanDigits c1) = length (ibanDigits c2)
  /\ (0 < Z.abs (decimalValue (ibanDigits c1) - decimalValue (ibanDigits c2))
      < 97)%Z.
Proof.
  unfold sameKind. rewrite orb_true_iff, !andb_true_iff.
  intros [[H1 H2]|[H1 H2]] Hne.
  - destruct (@ibanDigits_value c1 (or_introl H1)) as [L1 V1].
    destruct (@ibanDigits_value c2 (or_introl H2)) as [L2 V2].
    rewrite L1, L2, V1, V2, H1, H2.
    apply is_digit_bounds in H1. apply is_digit_bounds in H2. lia.
  - destruct (@ibanDigits_value c1 (or_intror H1)) as [L1 V1].
    destruct (@ibanDigits_value c2 (or_intror H2)) as [L2 V2].
    rewrite L1, L2, V1, V2, (upper_not_digit _ H1), (upper_not_digit _ H2).
    assert (B1 : (65 <= c1 <= 90)%Z) by zbool.
    assert (B2 : (65 <= c2 <= 90)%Z) by zbool.
    lia.
Qed.

(** 97 has no factor in common with a power of ten. *)
Lemma divide_97_pow10 (n : nat) (x : Z) :
  (97 | x * 10 ^ Z.of_nat n)%Z -> (97 | x)%Z.
Proof.
  induction n as [|n IH]; intros H.
  - simpl in H. now rewrite Z.mul_1_r in H.
  - apply IH. rewrite Nat2Z.inj_succ, Z.pow_succ_r in H by lia.
    destruct H as [k Hk]. exists (68 * k - 7 * (x * 10 ^ Z.of_nat n))%Z.
    lia.
Qed.

(** The number of an IBAN, with the contribution of one place set apart. *)
Lemma ibanNumber_place (a b : jsstring) :
  exists (hi lo : Z) (n : nat),
    forall c, (ibanNumber (a ++ c :: b)
               = (hi * 10 ^ Z.of_nat (length (ibanDigits c))
                  + decimalValue (ibanDigits c)) * 10 ^ Z.of_nat n + lo)%Z.
Proof.
  destruct (rotate_place a b) as (p & q & Hrot).
  exists (decimalValue (flat_map ibanDigits p)),
         (decimalValue (flat_map ibanDigits q)),
         (length (flat_map ibanDigits q)).
  intros c. unfold ibanNumber. rewrite Hrot, flat_map_app.
  cbn [flat_map]. rewrite app_assoc, !decimalValue_app. reflexivity.
Qed.

End IbanNumber.

(** X6: [isValidIban] accepts a string exactly when it has the strict shape and
    the whole decimal number spelled by its rearranged form, whatever its
    size, leaves the remainder 1 on division by 97: keeping the remainder
    digit by digit loses nothing.  On a string of the strict shape the
    rearranged form spells decimal digits only. *)
Theorem isValidIban_whole_number (iban : jsstring) :
  (isValidIban iban = true
   <-> ibanShape iban = true /\ (ibanNumber iban mod 97 = 1)%Z)
  /\ (ibanShape iban = true ->
      Forall (fun dgt => (0 <= dgt <= 9)%Z)
             (flat_map ibanDigits (skipn 4 iban ++ firstn 4 iban))).
Proof.
  split.
  - split.
    + intros H. split; [now apply isValidIban_shape|].
      now apply isValidIban_ibanNumber.
    + intros [Hs Hn]. unfold isValidIban.
      rewrite Shapes.IBAN_SHAPE_test, Hs. cbn [negb].
      rewrite (ibanLoop_number (Forall_rotate 4 (ibanShape_alnum _ Hs))).
      apply Z.eqb_eq. exact Hn.
  - intros Hs. pose proof (Forall_rotate 4 (ibanShape_alnum _ Hs)) as Hall.
    induction Hall as [|c l Hc _ IH]; [constructor|].
    cbn [flat_map]. apply Forall_app. split; [|exact IH].
    now apply ibanDigits_decimal.
Qed.

Lemma isValidIban_whole_number_witness :
  Forall (fun dgt => (0 <= dgt <= 9)%Z)
    (flat_map ibanDigits
       (skipn 4 (js "GB82WEST12345698765432")
        ++ firstn 4 (js "GB82WEST12345698765432"))).
Proof.
  apply (isValidIban_whole_number (js "GB82WEST12345698765432")).
  vm_compute. reflexivity.
Defined.

(** X7: in a string that [isValidIban] accepts, replacing any one digit by a
    different digit, or any one capital letter by a different capital
    letter, gives a string that it refuses. *)
Theorem isValidIban_single_substitution (a b : jsstring) (old c : Z) :
  isValidIban (a ++ old :: b) = true ->
  sameKind old c = true ->
  c <> old ->
  isValidIban (a ++ c :: b) = false.
Proof.
  intros Hok Hk Hne.
  destruct (isValidIban (a ++ c :: b)) eqn:Hnew; [|reflexivity]. exfalso.
  apply isValidIban_ibanNumber in Hok. apply isValidIban_ibanNumber in Hnew.
  destruct (ibanNumber_place a b) as (hi & lo & n & Hnum).
  rewrite Hnum in Hok, Hnew.
  assert (Hne' : old <> c) by congruence.
  destruct (sameKind_values Hk Hne') as [Hlen Hval].
  rewrite <- Hlen in Hnew.
  set (w := (10 ^ Z.of_nat (length (ibanDigits old)))%Z) in *.
  set (v1 := decimalValue (ibanDigits old)) in *.
  set (v2 := decimalValue (ibanDigits c)) in *.
  assert (Hdiv : (97 | (v1 - v2) * 10 ^ Z.of_nat n)%Z).
  { apply Z.mod_divide; [lia|].
    replace ((v1 - v2) * 10 ^ Z.of_nat n)%Z
      with (((hi * w + v1) * 10 ^ Z.of_nat n + lo)
            - ((hi * w + v2) * 10 ^ Z.of_nat n + lo))%Z by ring.
    rewrite Zminus_mod, Hok, Hnew. reflexivity. }
  apply divide_97_pow10 in Hdiv. destruct Hdiv as [k Hk']. lia.
Qed.

Lemma isValidIban_single_substitution_witness :
  isValidIban (js "GB82VEST12345698765432") = false.
Proof.
  apply (@isValidIban_single_substitution
           (js "GB82") (js "EST12345698765432") 87%Z 86%Z).
  - vm_compute. reflexivity.
  - reflexivity.
  - discriminate.
Defined.

(* ===================================================================== *)
(** ** The groups of [runRedactionWorkflow] *)
(* ===================================================================== *)

(** Source, in [runRedactionWorkflow]: the matches of the text are split by
    [matches.filter((m) => m.type === ...)] into eight groups, the lengths
    of the groups are the counts of the result, and the groups are handed to
    [redactGroup] one after the other. *)
Record MatchGroups : Type :=
  { emails : list SensitiveMatch;
    phones : list SensitiveMatch;
    ssns : list SensitiveMatch;
    cards : list SensitiveMatch;
    bankAccounts : list SensitiveMatch;
    insurancePolicies : list SensitiveMatch;
    employeeIds : list SensitiveMatch;
    medicalRecordNumbers : list SensitiveMatch }.

Definition ofType (t : SensitiveType) (matches : list SensitiveMatch)
  : list SensitiveMatch :=
  filter (fun m => type_eqb (type m) t) matches.

Definition groupMatches (matches : list SensitiveMatch) : MatchGroups :=
  {| emails := ofType email matches;
     phones := ofType phone matches;
     ssns := ofType ssn matches;
     cards := ofType card matches;
     bankAccounts := ofType bank matches;
     insurancePolicies := ofType insurancePolicy matches;
     employeeIds := ofType employeeId matches;
     medicalRecordNumbers := ofType medicalRecordNumber matches |}.

(** The counts of the result, in the order of its fields. *)
Definition foundCounts (g : MatchGroups) : list nat :=
  [ length (emails g); length (phones g); length (ssns g); length (cards g);
    length (bankAccounts g); length (insurancePolicies g);
    length (employeeIds g); length (medicalRecordNumbers g) ].

(** The groups in the order of the calls of [redactGroup]. *)
Definition redactionOrder (g : MatchGroups) : list (list SensitiveMatch) :=
  [ emails g; phones g; ssns g; cards g; bankAccounts g;
    insurancePolicies g; employeeIds g; medicalRecordNumbers g ].

Section Groups.

Ltac place_match :=
  first [ reflexivity
        | etransitivity;
          [ apply Permutation_middle | apply Permutation_app_head; place_match ] ].

Lemma groups_permutation (matches : list SensitiveMatch) :
  Permutation (concat (redactionOrder (groupMatches matches))) matches.
Proof.
  induction matches as [|[t v] l IH]; [reflexivity|].
  symmetry. etransitivity; [apply perm_skip; symmetry; exact IH|].
  unfold redactionOrder, groupMatches, ofType.
  cbn [emails phones ssns cards bankAccounts insurancePolicies employeeIds
       medicalRecordNumbers concat].
  destruct t; cbn [filter type type_eqb app]; place_match.
Qed.

Lemma length_concat_sum (ls : list (list SensitiveMatch)) :
  length (concat ls) = list_sum (List.map (@length _) ls).
Proof.
  induction ls as [|l ls IH]; [reflexivity|].
  simpl. now rewrite length_app, IH.
Qed.

Lemma ofType_result (text : jsstring) (t : SensitiveType) :
  ofType t (findSensitiveMatches text)
  = match t with
    | email => tag email (matchAllUnique text EMAIL_RE)
    | phone => tag phone (matchAllUnique text PHONE_RE)
    | ssn => tag ssn (matchAllUnique text SSN_RE ++ findSsnLast4 text)
    | card => tag card (findCreditCards text)
    | bank => tag bank (findBankAccounts text)
    | insurancePolicy => tag insurancePolicy (matchAllUnique text INS_POLICY_RE)
    | employeeId => tag employeeId (matchAllUnique text EMPLOYEE_ID_RE)
    | medicalRecordNumber =>
        tag medicalRecordNumber (matchAllUnique text MRN_RE)
    end.
Proof.
  unfold ofType.
  rewrite findSensitiveMatches_app, !filter_app, !filter_tag.
  destruct t; cbn [type_eqb app]; rewrite ?app_nil_r; try reflexivity.
  unfold tag. now rewrite map_app.
Qed.

End Groups.

(** X8: the eight groups of the workflow lose and repeat nothing: put one after
    the other in the order of redaction they hold every match of the list
    exactly once, so the counts of the result add up to the number of
    matches.  On the matches of a text each group holds the values of its
    own scans: the [ssns] group the direct matches followed by the
    last-four matches, every other group the values of one function. *)
Theorem workflow_groups_partition
    (matches : list SensitiveMatch) (text : jsstring) :
  Permutation (concat (redactionOrder (groupMatches matches))) matches
  /\ list_sum (foundCounts (groupMatches matches)) = length matches
  /\ (let g := groupMatches (findSensitiveMatches text) in
      emails g = tag email (matchAllUnique text EMAIL_RE)
      /\ phones g = tag phone (matchAllUnique text PHONE_RE)
      /\ ssns g = tag ssn (matchAllUnique text SSN_RE ++ findSsnLast4 text)
      /\ cards g = tag card (findCreditCards text)
      /\ bankAccounts g = tag bank (findBankAccounts text)
      /\ insurancePolicies g
         = tag insurancePolicy (matchAllUnique text INS_POLICY_RE)
      /\ employeeIds g = tag employeeId (matchAllUnique text EMPLOYEE_ID_RE)
      /\ medicalRecordNumbers g
         = tag medicalRecordNumber (matchAllUnique text MRN_RE)).
Proof.
  split; [apply groups_permutation|]. split.
  - rewrite <- (Permutation_length (groups_permutation matches)).
    rewrite length_concat_sum. reflexivity.
  - cbn zeta. unfold groupMatches.
    cbn [emails phones ssns cards bankAccounts insurancePolicies employeeIds
         medicalRecordNumbers].
    repeat split.
    + apply (ofType_result text email).
    + apply (ofType_result text phone).
    + apply (ofType_result text ssn).
    + apply (ofType_result text card).
    + apply (ofType_result text bank).
    + apply (ofType_result text insurancePolicy).
    + apply (ofType_result text employeeId).
    + apply (ofType_result text medicalRecordNumber).
Qed.

(* ===================================================================== *)
(** ** The window of [findCreditCards] *)
(* ===================================================================== *)

Section Window.

Lemma firstn_min_length (n : nat) (l : jsstring) :
  firstn (Nat.min (length l) n) l = firstn n l.
Proof.
  destruct (Nat.le_ge_cases (length l) n) as [H|H].
  - rewrite Nat.min_l by assumption. rewrite firstn_all.
    symmetry. now apply firstn_all2.
  - now rewrite Nat.min_r by assumption.
Qed.

Lemma slice_window (pre rest : jsstring) (k : nat) :
  slice (pre ++ rest)
    (Z.max 0 (len pre - 50))
    (Z.min (len (pre ++ rest)) (len pre + Z.of_nat k + 50))
  = skipn (length pre - 50) pre ++ firstn (k + 50) rest.
Proof.
  unfold slice, len. rewrite length_app.
  set (n := length pre). set (p := length rest).
  replace (Z.to_nat (Z.max 0 (Z.of_nat n - 50))) with (n - 50) by lia.
  replace (Z.to_nat (Z.min (Z.of_nat (n + p)) (Z.of_nat n + Z.of_nat k + 50)
                     - Z.max 0 (Z.of_nat n - 50)))
    with (length (skipn (n - 50) pre) + Nat.min p (k + 50))
    by (rewrite length_skipn; fold n; lia).
  rewrite skipn_app. replace (n - 50 - length pre) with 0 by (fold n; lia).
  cbn [skipn]. rewrite firstn_app_2. unfold p.
  now rewrite firstn_min_length.
Qed.

End Window.

(** X9: the window in which [findCreditCards] looks for a label reaches from 50
    code units before the candidate to 50 code units after its trimmed
    text, and is cut off at the two ends of the text: it is the lowered
    text of the last 50 code units before the candidate, or of all of them
    when there are fewer, followed by the first [raw.length + 50] code
    units from the start of the candidate on, or by all that are left.
    The index of a candidate of the scan is never negative, so the window
    is never replaced by the empty string. *)
Theorem cardContext_window (text : jsstring) :
  (forall pre rest raw,
     text = pre ++ rest ->
     cardContext text (len pre) raw
     = toLowerCase (skipn (length pre - 50) pre
                    ++ firstn (length raw + 50) rest))
  /\ (forall r, In r (execAll CARD_CANDIDATE_RE text) ->
        (index r >=? 0)%Z = true
        /\ exists pre post,
             text = pre ++ m0 r ++ post
             /\ index r = len pre
             /\ cardContext text (index r) (trim (m0 r))
                = toLowerCase
                    (skipn (length pre - 50) pre
                     ++ firstn (length (trim (m0 r)) + 50) (m0 r ++ post))).
Proof.
  assert (Hwin : forall pre rest raw,
             text = pre ++ rest ->
             cardContext text (len pre) raw
             = toLowerCase (skipn (length pre - 50) pre
                            ++ firstn (length raw + 50) rest)).
  { intros pre rest raw ->. unfold cardContext.
    change (len raw) with (Z.of_nat (length raw)).
    now rewrite slice_window. }
  split; [exact Hwin|].
  intros r Hin. split; [apply (card_candidate_guard _ _ Hin)|].
  destruct (card_candidate _ _ Hin) as (_ & pre & post & Ht & Hi & _).
  exists pre, post. split; [assumption|]. split; [assumption|].
  rewrite Hi. now apply Hwin.
Qed.

Lemma cardContext_window_witness :
  cardContext (js "Visa 4532015112830366.") (len (js "Visa ")) (js "4532")
  = toLowerCase (skipn (length (js "Visa ") - 50) (js "Visa ")
                 ++ firstn (length (js "4532") + 50)
                      (js "4532015112830366.")).
Proof.
  apply (cardContext_window (js "Visa 4532015112830366.")).
  reflexivity.
Defined.

(* ===================================================================== *)
(** ** [luhnCheck] and the check digit *)
(* ===================================================================== *)

(** X10: a string of digits can be completed by one digit so that [luhnCheck]
    accepts it, and by one digit only. *)
Theorem luhnCheck_check_digit (payload : jsstring) :
  digits payload ->
  exists c,
    Char.is_digit c = true
    /\ luhnCheck (payload ++ [c]) = true
    /\ forall c', Char.is_digit c' = true ->
                  luhnCheck (payload ++ [c']) = true -> c' = c.
Proof.
  intros Hd.
  destruct (luhnSum_place payload []) as (others & Hsum).
  assert (Hterm : forall c, luhnSum (payload ++ [c]) = (others + (c - 48))%Z).
  { intros c. rewrite Hsum. reflexivity. }
  assert (Hds : forall c, Char.is_digit c = true -> digits (payload ++ [c])).
  { intros c Hc. apply Forall_app. split; [assumption|].
    constructor; [assumption | constructor]. }
  pose proof (Z.mod_pos_bound (- others) 10 ltac:(lia)) as Hb.
  assert (Hc : Char.is_digit (48 + (- others) mod 10)%Z = true).
  { unfold Char.is_digit, Char.between.
    apply andb_true_iff. rewrite !Z.leb_le. lia. }
  exists (48 + (- others) mod 10)%Z. split; [exact Hc|]. split.
  - apply (luhnCheck_spec (Hds _ Hc)). unfold luhnValid. rewrite Hterm.
    clear Hc. Z.div_mod_to_equations. lia.
  - intros c' Hc' Hok. apply (luhnCheck_spec (Hds _ Hc')) in Hok.
    unfold luhnValid in Hok. rewrite Hterm in Hok.
    apply is_digit_bounds in Hc'. Z.div_mod_to_equations. lia.
Qed.

Lemma luhnCheck_check_digit_witness :
  exists c,
    Char.is_digit c = true
    /\ luhnCheck (js "453201511283036" ++ [c]) = true
    /\ forall c', Char.is_digit c' = true ->
                  luhnCheck (js "453201511283036" ++ [c']) = true -> c' = c.
Proof.
  apply (@luhnCheck_check_digit (js "453201511283036")).
  apply Forall_forall. intros c Hc. vm_compute in Hc.
  repeat (destruct Hc as [<-|Hc]; [reflexivity|]). contradiction.
Defined.

(* ===================================================================== *)
(** ** What [matchAllUnique] returns, for a pattern that takes something *)
(* ===================================================================== *)

(** X11: for every text and every pattern whose matches all take at least
    one code unit, as those of the twelve patterns of the module do: the
    loop of [matchAllUnique] ends, running it for longer changes neither
    the results of [exec] nor the values returned; a value of
    [matchAllUnique] is the trimmed text of a match of the scan and is not
    empty; every match of the scan whose trimmed text is not empty is
    answered by a value that equals it up to the case of letters; and no
    two values are equal up to case.  (A pattern that can match the empty
    string is left out: with it [lastIndex] would stay where it is and the
    loop of the source would not end.) *)
Theorem matchAllUnique_sound_complete (re : RegExp) (text : jsstring) :
  1 <= RegexFacts.minLen (pattern re) ->
  (forall fuel, length text < fuel ->
     execSeq re fuel (start text) = execAll re text
     /\ JsMap.values
          (whileExec re matchAllUnique_body fuel (start text) JsMap.empty)
        = matchAllUnique text re)
  /\ (forall v, In v (matchAllUnique text re) ->
        v <> [] /\ exists r, In r (execAll re text) /\ v = trim (m0 r))
  /\ (forall r, In r (execAll re text) -> trim (m0 r) <> [] ->
        exists v, In v (matchAllUnique text re)
                  /\ toLowerCase v = toLowerCase (trim (m0 r)))
  /\ NoDup (List.map toLowerCase (matchAllUnique text re)).
Proof.
  intros Hmin. split.
  { intros fuel Hf.
    assert (He : execSeq re fuel (start text) = execAll re text).
    { unfold execAll. apply ExecFacts.execSeq_fuel; simpl; lia. }
    split; [exact He|].
    unfold matchAllUnique, matchAllUnique_map.
    now rewrite scanLoop_fold, whileExec_fold, He. }
  rewrite matchAllUnique_kept.
  assert (Hkey : forall e, In e (kept matchAllUnique_entry re text) ->
                   fst e = toLowerCase (snd e) /\ snd e <> []
                   /\ exists r, In r (execAll re text)
                                /\ snd e = trim (m0 r)).
  { intros [k v] Hin. apply kept_In in Hin. destruct Hin as (r & Hr & He).
    apply matchAllUnique_entry_value in He.
    destruct He as (Hv & Hk & Hne & _). simpl. eauto. }
  split; [|split].
  - intros v Hv. unfold JsMap.values in Hv. apply in_map_iff in Hv.
    destruct Hv as (e & <- & Hin). apply Hkey in Hin. tauto.
  - intros r Hr Hne.
    assert (Hoff : In (toLowerCase (trim (m0 r)), trim (m0 r))
                      (offered matchAllUnique_entry (execAll re text))).
    { apply offered_In. exists r. split; [assumption|].
      unfold matchAllUnique_entry.
      destruct (trim (m0 r)); [congruence | reflexivity]. }
    destruct (firstByKey_covers [] _ _ _ Hoff) as [[]|Hk].
    fold (kept matchAllUnique_entry re text) in Hk.
    unfold JsMap.keys in Hk. apply in_map_iff in Hk.
    destruct Hk as (e & Hfst & Hin). exists (snd e). split.
    + unfold JsMap.values. now apply in_map.
    + apply Hkey in Hin. destruct Hin as (Hf & _). now rewrite <- Hf.
  - pose proof (kept_NoDup matchAllUnique_entry re text) as Hnd.
    unfold JsMap.keys in Hnd. unfold JsMap.values. rewrite map_map.
    erewrite map_ext_in; [exact Hnd|].
    intros e He. apply Hkey in He. symmetry. tauto.
Qed.

Lemma matchAllUnique_sound_complete_witness :
  exists v, In v (matchAllUnique (js "Mail A@b.co or a@B.CO") EMAIL_RE)
            /\ toLowerCase v = toLowerCase (trim (js "a@B.CO")).
Proof.
  assert (Hmin : 1 <= RegexFacts.minLen (pattern EMAIL_RE)) by (simpl; lia).
  destruct (@matchAllUnique_sound_complete EMAIL_RE
              (js "Mail A@b.co or a@B.CO") Hmin) as (_ & _ & Hc & _).
  apply (Hc {| index := 15; m0 := js "a@B.CO"; m1 := None |}).
  - vm_compute. right. left. reflexivity.
  - vm_compute. discriminate.
Defined.

(* ===================================================================== *)
(** ** The two forms of a value of type [ssn] *)
(* ===================================================================== *)

Section SsnValues.

Import RegexFacts ExecFacts Shapes.

Lemma SSN_direct_shape text v :
  In v (matchAllUnique text SSN_RE) ->
  exists a b c,
    v = a ++ [dash] ++ b ++ [dash] ++ c
    /\ digits a /\ length a = 3
    /\ digits b /\ length b = 2
    /\ digits c /\ length c = 4.
Proof.
  rewrite matchAllUnique_kept. unfold JsMap.values. rewrite in_map_iff.
  intros ([k v'] & <- & Hin). apply kept_In in Hin.
  destruct Hin as (r & Hr & He). simpl.
  pose proof (matchAllUnique_entry_value _ He) as (Hv & _ & _).
  destruct (SSN_match_text _ _ Hr) as (_ & _ & Hs).
  rewrite Hv, (trim_nonspace Hs).
  apply execAll_Matches in Hr.
  destruct Hr as (pre & post & y & _ & _ & HM & HS & _).
  apply SSN_RE_shape in HM.
  destruct HM as (a & b & c & HS' & H).
  exists a, b, c. split; [apply (Span_inj HS HS') | exact H].
Qed.

End SsnValues.

(** X12: a match of type [ssn] has one of two forms: three digits, a dash, two
    digits, a dash and four digits; or four digits whose number is not in
    1900..2099. *)
Theorem ssn_values_shape (text v : jsstring) :
  In {| type := ssn; value := v |} (findSensitiveMatches text) ->
  (exists a b c,
     v = a ++ [dash] ++ b ++ [dash] ++ c
     /\ digits a /\ length a = 3
     /\ digits b /\ length b = 2
     /\ digits c /\ length c = 4)
  \/ (digits v /\ length v = 4 /\ ~ looksLikeYear v).
Proof.
  rewrite In_ssn_result. intros [H|H].
  - left. exact (@SSN_direct_shape text v H).
  - right. apply In_findSsnLast4 in H. destruct H as (r & _ & He).
    pose proof (ssnLast4_offer_key _ He) as (_ & Hd & Hl).
    apply ssnLast4_entry_value in He. destruct He as (_ & _ & _ & Hy & _).
    apply year_check in Hy. tauto.
Qed.

Lemma ssn_values_shape_witness :
  (exists a b c,
     js "123-45-6789" = a ++ [dash] ++ b ++ [dash] ++ c
     /\ digits a /\ length a = 3
     /\ digits b /\ length b = 2
     /\ digits c /\ length c = 4)
  \/ (digits (js "123-45-6789") /\ length (js "123-45-6789") = 4
      /\ ~ looksLikeYear (js "123-45-6789")).
Proof.
  apply (@ssn_values_shape (js "SSN 123-45-6789") (js "123-45-6789")).
  vm_compute. left. reflexivity.
Defined.

(* ===================================================================== *)
(** ** How many digits a match can hold *)
(* ===================================================================== *)

Module DigitBudget.

Import RegexFacts ExecFacts Shapes.

(** Every code unit of the atom is a digit. *)
Definition atom_only (a : atom) : bool :=
  match a with
  | Digit => true
  | Lit c => Char.is_digit c
  | Range lo hi => (48 <=? lo)%Z && (hi <=? 57)%Z
  | Space => false
  end.

(** No code unit of the atom is a digit. *)
Definition atom_none (a : atom) : bool :=
  match a with
  | Digit => false
  | Lit c => negb (Char.is_digit c)
  | Range lo hi => (hi <? 48)%Z || (57 <? lo)%Z
  | Space => true
  end.

(** Every digit is a code unit of the atom. *)
Definition atom_all (a : atom) : bool :=
  match a with
  | Digit => true
  | Range lo hi => (lo <=? 48)%Z && (57 <=? hi)%Z
  | _ => false
  end.

Definition onlyDigits (c : cclass) : bool :=
  negb (negated c) && forallb atom_only (atoms c).

Definition noDigits (c : cclass) : bool :=
  if negated c then existsb atom_all (atoms c)
  else forallb atom_none (atoms c).

Definition oadd (a b : option nat) : option nat :=
  match a, b with Some x, Some y => Some (x + y) | _, _ => None end.

Definition omax (a b : option nat) : option nat :=
  match a, b with Some x, Some y => Some (Nat.max x y) | _, _ => None end.

Definition otimes (hi k : option nat) : option nat :=
  match k, hi with
  | Some 0, _ => Some 0
  | _, Some 0 => Some 0
  | Some k', Some h => Some (h * k')
  | _, _ => None
  end.

(** The least number of digits in a match of [r], by the syntax of [r]. *)
Fixpoint least (r : regex) : nat :=
  match r with
  | Chr c => if onlyDigits c then 1 else 0
  | Seq r1 r2 => least r1 + least r2
  | Alt r1 r2 => Nat.min (least r1) (least r2)
  | Rep lo hi _ r1 => rep_floor lo hi * least r1
  | Cap r1 => least r1
  | _ => 0
  end.

(** The greatest number of digits in a match of [r], if there is one. *)
Fixpoint most (r : regex) : option nat :=
  match r with
  | Chr c => Some (if noDigits c then 0 else 1)
  | Seq r1 r2 => oadd (most r1) (most r2)
  | Alt r1 r2 => omax (most r1) (most r2)
  | Rep lo hi _ r1 => otimes hi (most r1)
  | Cap r1 => most r1
  | _ => Some 0
  end.

Definition digitCount (l : jsstring) : nat := length (digitsOnly l).

Definition within (r : regex) (n : nat) : Prop :=
  least r <= n /\ forall h, most r = Some h -> n <= h.

Lemma upper_lower_digit ch :
  Char.is_digit ch = true ->
  Char.ascii_upper ch = ch /\ Char.ascii_lower ch = ch.
Proof. intros H. unfold Char.ascii_upper, Char.ascii_lower. split; zbool. Qed.

Lemma upper_is_digit c ch :
  Char.is_digit c = true -> Char.ascii_upper c = Char.ascii_upper ch ->
  Char.is_digit ch = true.
Proof. unfold Char.ascii_upper. intros H. zbool. Qed.

Lemma atom_only_ok ic a ch :
  atom_only a = true -> atom_mem ic a ch = true -> Char.is_digit ch = true.
Proof.
  destruct a as [c|lo hi| |]; simpl; try discriminate; try (intros _; tauto).
  - intros Hc Hm. apply Z.eqb_eq in Hm. unfold canonicalize in Hm.
    destruct ic; [now apply (@upper_is_digit c) | now subst].
  - intros Hr Hm. unfold Char.ascii_upper, Char.ascii_lower in Hm.
    destruct ic; zbool.
Qed.

Lemma atom_none_ok ic a ch :
  atom_none a = true -> Char.is_digit ch = true -> atom_mem ic a ch = false.
Proof.
  destruct a as [c|lo hi| |]; simpl; try discriminate.
  - intros Hc Hd. apply negb_true_iff in Hc. apply Z.eqb_neq. intros He.
    unfold canonicalize in He. destruct ic.
    + destruct (@upper_lower_digit _ Hd) as [Hu _]. rewrite Hu in He.
      unfold Char.ascii_upper in He. zbool.
    + subst. congruence.
  - intros Hr Hd. destruct (@upper_lower_digit _ Hd) as [-> ->].
    destruct ic; zbool.
  - intros _ Hd. now apply digit_not_space.
Qed.

Lemma atom_all_ok ic a ch :
  atom_all a = true -> Char.is_digit ch = true -> atom_mem ic a ch = true.
Proof.
  destruct a as [c|lo hi| |]; simpl; try discriminate; try tauto.
  intros Hr Hd. destruct ic; zbool.
Qed.

Lemma onlyDigits_ok ic c ch :
  onlyDigits c = true -> cmem ic c ch = true -> Char.is_digit ch = true.
Proof.
  unfold onlyDigits, cmem. rewrite andb_true_iff, negb_true_iff.
  intros [-> Hall]. simpl. rewrite existsb_exists. intros (a & Ha & Hm).
  rewrite forallb_forall in Hall. eapply atom_only_ok; eauto.
Qed.

Lemma noDigits_ok ic c ch :
  noDigits c = true -> cmem ic c ch = true -> Char.is_digit ch = false.
Proof.
  unfold noDigits, cmem. intros Hn Hm.
  destruct (Char.is_digit ch) eqn:Hd; [exfalso | reflexivity].
  destruct (negated c); simpl in Hm.
  - apply negb_true_iff in Hm. apply existsb_exists in Hn.
    destruct Hn as (a & Ha & Hall).
    assert (Hex : existsb (fun a => atom_mem ic a ch) (atoms c) = true).
    { apply existsb_exists. exists a. split; [assumption|].
      now apply atom_all_ok. }
    congruence.
  - apply existsb_exists in Hm. destruct Hm as (a & Ha & Hm).
    rewrite forallb_forall in Hn.
    rewrite (@atom_none_ok ic a ch (Hn a Ha) Hd) in Hm. discriminate.
Qed.

Lemma floor_step lo hi :
  rep_floor lo hi <= S (rep_floor (pred lo) (pred_opt hi)).
Proof. unfold rep_floor. destruct hi as [h|]; simpl; lia. Qed.

(** The two bounds hold for every match. *)
Lemma budget_sound ic r :
  forall x y, Matches ic r x y ->
  exists l, Span x y l /\ within r (digitCount l).
Proof.
  unfold within, digitCount.
  induction r as [|c|r1 IH1 r2 IH2|r1 IH1 r2 IH2|lo hi g r1 IH1|r1 IH1
                  | |c|c| |]; intros x y H; simpl in H;
    try (destruct H as (_ & ->); exists []; split; [apply Span_refl|];
         simpl; split; [lia | intros; lia]).
  - subst. exists []. split; [apply Span_refl|]. simpl. split; [lia | intros; lia].
  - destruct H as (a & tl & Hr & Hc & ->). exists [a].
    split; [split; simpl; auto|]. simpl. split.
    + destruct (onlyDigits c) eqn:Ho; [|lia].
      rewrite (@onlyDigits_ok _ _ _ Ho Hc). simpl. lia.
    + intros h Hh. inversion Hh; subst. destruct (noDigits c) eqn:Hn.
      * rewrite (@noDigits_ok _ _ _ Hn Hc). simpl. lia.
      * destruct (Char.is_digit a); simpl; lia.
  - destruct H as (w & H1 & H2).
    destruct (IH1 _ _ H1) as (l1 & S1 & L1 & U1).
    destruct (IH2 _ _ H2) as (l2 & S2 & L2 & U2).
    exists (l1 ++ l2). split; [apply (Span_trans S1 S2)|].
    rewrite digitsOnly_app, length_app. simpl. split; [lia|].
    intros h Hh. destruct (most r1) as [h1|]; [|discriminate].
    destruct (most r2) as [h2|]; [|discriminate].
    inversion Hh; subst. specialize (U1 _ eq_refl). specialize (U2 _ eq_refl).
    lia.
  - destruct H as [H|H].
    + destruct (IH1 _ _ H) as (l & S1 & L1 & U1). exists l.
      split; [assumption|]. simpl. split; [lia|].
      intros h Hh. destruct (most r1) as [h1|]; [|discriminate].
      destruct (most r2) as [h2|]; [|discriminate].
      inversion Hh; subst. specialize (U1 _ eq_refl). lia.
    + destruct (IH2 _ _ H) as (l & S1 & L1 & U1). exists l.
      split; [assumption|]. simpl. split; [lia|].
      intros h Hh. destruct (most r1) as [h1|]; [|discriminate].
      destruct (most r2) as [h2|]; [|discriminate].
      inversion Hh; subst. specialize (U1 _ eq_refl). lia.
  - simpl. induction H as [lo hi x Hstop|lo hi x y z Hhi Hxy _ _ IH].
    + exists []. split; [apply Span_refl|]. simpl. split; [|intros; lia].
      destruct Hstop as [->| ->]; unfold rep_floor; simpl.
      * rewrite Nat.min_0_r. simpl. lia.
      * destruct hi; simpl; lia.
    + destruct (IH1 _ _ Hxy) as (l1 & S1 & L1 & U1).
      destruct IH as (l2 & S2 & L2 & U2).
      exists (l1 ++ l2). split; [apply (Span_trans S1 S2)|].
      rewrite digitsOnly_app, length_app. split.
      * pose proof (floor_step lo hi). nia.
      * intros h Hh. destruct (most r1) as [[|k]|].
        -- specialize (U1 _ eq_refl).
           assert (U2' : length (digitsOnly l2) <= 0) by (apply U2; reflexivity).
           lia.
        -- specialize (U1 _ eq_refl). destruct hi as [[|hh]|];
             simpl in Hh; try congruence. inversion Hh; subst.
           assert (U2' : length (digitsOnly l2) <= hh * S k).
           { apply U2. simpl. destruct hh; simpl; [reflexivity|reflexivity]. }
           lia.
        -- destruct hi as [[|hh]|]; simpl in Hh; congruence.
  - destruct H as (w & H1 & ->). destruct (IH1 _ _ H1) as (l & S1 & B).
    exists l. split; [|exact B]. destruct S1. split; simpl; assumption.
Qed.

(** The bounds for the matched text of a result of the scan. *)
Lemma execAll_budget re text r :
  In r (execAll re text) -> within (pattern re) (digitCount (m0 r)).
Proof.
  intros Hin. apply execAll_Matches in Hin.
  destruct Hin as (pre & post & y & _ & _ & HM & HS & _).
  destruct (@budget_sound _ _ _ _ HM) as (l & HS' & B).
  now rewrite (Span_inj HS HS').
Qed.

End DigitBudget.

(** The number of digits a value of each type can hold. *)
Definition digitBudget (t : SensitiveType) (n : nat) : Prop :=
  match t with
  | email => True
  | phone => 10 <= n <= 13
  | ssn => n = 9 \/ n = 4
  | card => 13 <= n <= 19
  | bank => 2 <= n <= 32
  | insurancePolicy => 6 <= n <= 14
  | employeeId => 4 <= n
  | medicalRecordNumber => 4 <= n <= 14
  end.

Section Budgets.

Import DigitBudget.

Lemma trimmed_match_budget entry re text :
  (forall r k v, entry r = Some (k, v) -> v = trim (m0 r)) ->
  Forall (fun v => within (pattern re) (length (digitsOnly v)))
         (JsMap.values (kept entry re text)).
Proof.
  intros He. unfold JsMap.values. apply Forall_map. apply kept_Forall.
  intros r k v Hin Hr. simpl. rewrite (He _ _ _ Hr), digitsOnly_trim.
  apply (execAll_budget _ _ _ Hin).
Qed.

Lemma matchAllUnique_budget re text :
  Forall (fun v => within (pattern re) (length (digitsOnly v)))
         (matchAllUnique text re).
Proof.
  rewrite matchAllUnique_kept. apply trimmed_match_budget.
  intros r k v H. apply matchAllUnique_entry_value in H. tauto.
Qed.

Lemma tag_budget t l :
  Forall (fun v => digitBudget t (length (digitsOnly v))) l ->
  Forall (fun m => digitBudget (type m) (length (digitsOnly (value m))))
         (tag t l).
Proof. intros H. unfold tag. apply Forall_map. exact H. Qed.

Lemma within_bounds re lo hi n :
  least (pattern re) = lo -> most (pattern re) = Some hi ->
  within (pattern re) n -> lo <= n <= hi.
Proof. intros <- Hm [H1 H2]. split; [assumption | now apply H2]. Qed.

Lemma within_least re lo n :
  least (pattern re) = lo -> within (pattern re) n -> lo <= n.
Proof. intros <- [H1 _]. exact H1. Qed.

End Budgets.

(** X13: by the patterns and the filters of the loops, the number of decimal
    digits in a value is bounded by its type: 10 to 13 for a phone
    number, 9 or 4 for an SSN, 13 to 19 for a card, 2 to 32 for a bank
    identifier, 6 to 14 for an insurance policy, at least 4 for an
    employee id, 4 to 14 for a medical record number. *)
Theorem digit_budget_by_type (text : jsstring) :
  Forall (fun m => digitBudget (type m) (length (digitsOnly (value m))))
         (findSensitiveMatches text).
Proof.
  assert (Happ : forall (P : SensitiveMatch -> Prop) a b,
             Forall P a -> Forall P b -> Forall P (a ++ b)).
  { intros P a b Ha Hb. apply Forall_app. now split. }
  assert (Happ' : forall (P : jsstring -> Prop) a b,
             Forall P a -> Forall P b -> Forall P (a ++ b)).
  { intros P a b Ha Hb. apply Forall_app. now split. }
  assert (Hu : forall re lo hi,
             DigitBudget.least (pattern re) = lo ->
             DigitBudget.most (pattern re) = Some hi ->
             Forall (fun v => lo <= length (digitsOnly v) <= hi)
                    (matchAllUnique text re)).
  { intros re lo hi Hl Hm.
    eapply Forall_impl; [|apply (matchAllUnique_budget re text)].
    intros v Hv. apply (within_bounds re Hl Hm Hv). }
  rewrite findSensitiveMatches_app.
  repeat apply Happ; apply tag_budget.
  - apply Forall_forall. intros v _. exact I.
  - eapply Forall_impl; [|apply (Hu SSN_RE 9 9); reflexivity].
    intros v Hv. cbv beta in Hv. simpl. lia.
  - rewrite findSsnLast4_kept. unfold JsMap.values. apply Forall_map.
    apply kept_Forall. intros r k v _ He. simpl.
    pose proof (ssnLast4_offer_key _ He) as (_ & Hd & Hl).
    rewrite (Shapes.digitsOnly_digits Hd). now right.
  - apply (Hu PHONE_RE 10 13); reflexivity.
  - rewrite findCreditCards_kept. unfold JsMap.values. apply Forall_map.
    apply kept_Forall. intros r k v _ He. simpl.
    apply card_entry_value in He. destruct He as (_ & -> & Hl & _).
    unfold len in Hl. lia.
  - unfold findBankAccounts. rewrite bankMap_families.
    unfold JsMap.values. rewrite !map_app.
    repeat apply Happ'.
    + eapply Forall_impl;
        [|apply (@trimmed_match_budget iban_entry IBAN_CANDIDATE_RE text)].
      * intros v Hv. simpl.
        apply (@within_bounds IBAN_CANDIDATE_RE 2 32 _ eq_refl eq_refl Hv).
      * intros r k v H. apply iban_entry_value in H. tauto.
    + apply Forall_map. apply kept_Forall. intros r k v _ He. simpl.
      apply routing_entry_value in He. destruct He as (_ & _ & Ht & _).
      apply nine_digits_test in Ht. destruct Ht as [Hd Hl].
      rewrite (Shapes.digitsOnly_digits Hd). lia.
    + apply Forall_map. apply kept_Forall. intros r k v _ He. simpl.
      apply account_entry_value in He. destruct He as (_ & _ & Ht & _).
      apply account_digits_test in Ht. destruct Ht as [Hd Hl].
      rewrite (Shapes.digitsOnly_digits Hd). lia.
    + apply Forall_map. apply kept_Forall. intros r k v _ He. simpl.
      apply sort_entry_value in He. destruct He as (_ & _ & Hl & _).
      unfold len in Hl. lia.
  - apply (Hu INS_POLICY_RE 6 14); reflexivity.
  - eapply Forall_impl; [|apply (matchAllUnique_budget EMPLOYEE_ID_RE text)].
    intros v Hv. simpl.
    apply (@within_least EMPLOYEE_ID_RE 4 _ eq_refl Hv).
  - apply (Hu MRN_RE 4 14); reflexivity.
Qed.

(* ===================================================================== *)
(** ** The form of an email value *)
(* ===================================================================== *)

(** One of the code units of a literal string. *)
Definition oneOf (chars : string) (a : Z) : bool :=
  existsb (Z.eqb a) (js chars).

Definition asciiLetter (a : Z) : bool := Char.is_upper a || Char.is_lower a.

(** Source fragments: "[A-Z0-9._%+-]" and "[A-Z0-9.-]" under the [i]
    flag. *)
Definition emailLocalChar (a : Z) : bool :=
  asciiLetter a || Char.is_digit a || oneOf "._%+-" a.

Definition emailDomainChar (a : Z) : bool :=
  asciiLetter a || Char.is_digit a || oneOf ".-" a.

(** local part, [@], domain, a dot, and a top-level name of at least two
    letters. *)
Definition emailText (v : jsstring) : Prop :=
  exists loc dom tld,
    v = loc ++ js "@" ++ dom ++ js "." ++ tld
    /\ loc <> [] /\ Forall (fun a => emailLocalChar a = true) loc
    /\ dom <> [] /\ Forall (fun a => emailDomainChar a = true) dom
    /\ 2 <= length tld /\ Forall (fun a => asciiLetter a = true) tld.

Section ClassFacts.

Lemma cmem_cls_cons ic a l c :
  cmem ic (cls (a :: l)) c = atom_mem ic a c || cmem ic (cls l) c.
Proof. reflexivity. Qed.

Lemma cmem_cls_nil ic c : cmem ic (cls []) c = false.
Proof. reflexivity. Qed.

Lemma cmem_cls_cases ic a l c :
  cmem ic (cls (a :: l)) c = true ->
  atom_mem ic a c = true \/ cmem ic (cls l) c = true.
Proof. rewrite cmem_cls_cons. apply orb_true_iff. Qed.

Lemma atom_AZ_ic c : atom_mem true AZ c = asciiLetter c.
Proof. unfold atom_mem, AZ, rng, code, asciiLetter. simpl. zbool. Qed.

Lemma atom_d09 ic c : atom_mem ic d09 c = Char.is_digit c.
Proof. unfold atom_mem, d09, rng, code. simpl. destruct ic; zbool. Qed.

(** A literal that is not a letter matches itself only, also under the
    [i] flag. *)
Lemma atom_lit_plain ic k c :
  asciiLetter k = false -> atom_mem ic (Lit k) c = true -> c = k.
Proof.
  unfold asciiLetter, atom_mem, canonicalize. intros Hk Hm.
  apply Z.eqb_eq in Hm. destruct ic; [|now subst]. zbool.
Qed.

Lemma nonempty_length (l : jsstring) : 1 <= length l -> l <> [].
Proof. intros H ->. simpl in H. lia. Qed.

End ClassFacts.

(** Split the membership [H] in a class into one case for each atom. *)
Ltac class_cases H :=
  repeat (match type of H with
          | cmem _ (cls (_ :: _)) _ = true =>
              apply cmem_cls_cases in H; destruct H as [H|H]
          end);
  try (rewrite cmem_cls_nil in H; discriminate H).

(** Close the case of a literal that is not a letter. *)
Ltac plain_lit H :=
  match type of H with
  | atom_mem ?ic (lit ?s) ?c = true =>
      let k := eval vm_compute in (code s) in
      change (atom_mem ic (Lit k) c = true) in H;
      apply atom_lit_plain in H; [subst; reflexivity | reflexivity]
  end.

Section EmailShape.

Import RegexFacts ExecFacts Shapes.

Lemma cmem_email_local a :
  cmem true (cls [AZ; d09; lit "."; lit "_"; lit "%"; lit "+"; lit "-"]) a
  = true -> emailLocalChar a = true.
Proof.
  intros H. class_cases H; try plain_lit H.
  - rewrite atom_AZ_ic in H. unfold emailLocalChar. now rewrite H.
  - rewrite atom_d09 in H. unfold emailLocalChar.
    rewrite H. now rewrite orb_true_r.
Qed.

Lemma cmem_email_domain a :
  cmem true (cls [AZ; d09; lit "."; lit "-"]) a = true ->
  emailDomainChar a = true.
Proof.
  intros H. class_cases H; try plain_lit H.
  - rewrite atom_AZ_ic in H. unfold emailDomainChar. now rewrite H.
  - rewrite atom_d09 in H. unfold emailDomainChar.
    rewrite H. now rewrite orb_true_r.
Qed.

Lemma cmem_letter a : cmem true (cls [AZ]) a = true -> asciiLetter a = true.
Proof. intros H. class_cases H. now rewrite atom_AZ_ic in H. Qed.

(** A literal without letters, as a pattern. *)
Lemma sameText_plain ic w l :
  forallb (fun k => negb (asciiLetter k)) w = true ->
  sameText ic w l -> l = w.
Proof.
  intros Hp T. unfold sameText in T.
  induction T as [|k c w l Hkc _ IH]; [reflexivity|].
  simpl in Hp. apply andb_true_iff in Hp. destruct Hp as [Hk Hp].
  apply negb_true_iff in Hk. f_equal; [|now apply IH].
  apply (@atom_lit_plain ic k c Hk). simpl. now apply Z.eqb_eq.
Qed.

Lemma Matches_plain ic (str : string) x y :
  forallb (fun k => negb (asciiLetter k)) (js str) = true ->
  Matches ic (ch str) x y -> Span x y (js str).
Proof.
  intros Hp H. apply Matches_ch in H. destruct H as (l & Sl & _ & T).
  now rewrite <- (@sameText_plain ic (js str) l Hp T).
Qed.

Lemma EMAIL_RE_shape x y :
  Matches true (pattern EMAIL_RE) x y ->
  exists v, Span x y v /\ emailText v.
Proof.
  intros H.
  cbn [pattern EMAIL_RE seq fold_right Matches plus atleast] in H.
  destruct H as (w & (_ & ->) & w0 & Hl & w1 & Hat & w2 & Hd & w3 & Hdot
                 & w4 & Ht & w5 & (_ & ->) & ->).
  apply RepM_Chr in Hl, Hd, Ht.
  destruct Hl as (loc & Sl & _ & Fl & Ll & _).
  destruct Hd as (dom & Sd & _ & Fd & Ld & _).
  destruct Ht as (tld & St & _ & Ft & Lt & _).
  apply Matches_plain in Hat; [|reflexivity].
  apply Matches_plain in Hdot; [|reflexivity].
  exists (loc ++ js "@" ++ dom ++ js "." ++ tld). split.
  - apply (Span_trans Sl (Span_trans Hat (Span_trans Sd (Span_trans Hdot St)))).
  - exists loc, dom, tld. unfold rep_floor in *.
    split; [reflexivity|].
    split; [now apply nonempty_length|].
    split; [eapply Forall_impl; [|exact Fl]; apply cmem_email_local|].
    split; [now apply nonempty_length|].
    split; [eapply Forall_impl; [|exact Fd]; apply cmem_email_domain|].
    split; [exact Lt|].
    eapply Forall_impl; [|exact Ft]. apply cmem_letter.
Qed.

Lemma email_char_nonspace a :
  emailLocalChar a = true \/ emailDomainChar a = true \/ asciiLetter a = true ->
  Char.is_space a = false.
Proof.
  intros H. destruct (Char.is_space a) eqn:Hs; [exfalso | reflexivity].
  apply space_range in Hs.
  unfold emailLocalChar, emailDomainChar, asciiLetter, oneOf in H.
  simpl in H. destruct H as [H|[H|H]]; zbool.
Qed.

Lemma emailText_nonspace v :
  emailText v -> Forall (fun a => Char.is_space a = false) v.
Proof.
  intros (loc & dom & tld & -> & _ & Fl & _ & Fd & _ & Ft).
  apply Forall_app. split.
  { eapply Forall_impl; [|exact Fl]. intros a Ha.
    apply email_char_nonspace. now left. }
  apply Forall_app. split.
  { constructor; [reflexivity | constructor]. }
  apply Forall_app. split.
  { eapply Forall_impl; [|exact Fd]. intros a Ha.
    apply email_char_nonspace. right. now left. }
  apply Forall_app. split.
  { constructor; [reflexivity | constructor]. }
  eapply Forall_impl; [|exact Ft]. intros a Ha.
  apply email_char_nonspace. right. now right.
Qed.

End EmailShape.

(** X14: every match of type [email] is a local part of letters, digits and
    [._%+-], an [@], a domain of letters, digits, dots and dashes, a dot
    and a top-level name of at least two letters; the letters are the
    ASCII letters of either case, and every part but the top-level name
    has at least one code unit. *)
Theorem email_values_shape (text : jsstring) :
  Forall (fun m => type m = email -> emailText (value m))
         (findSensitiveMatches text).
Proof.
  assert (He : Forall emailText (matchAllUnique text EMAIL_RE)).
  { rewrite matchAllUnique_kept. unfold JsMap.values. apply Forall_map.
    apply kept_Forall. intros r k v Hin Hr. simpl.
    apply matchAllUnique_entry_value in Hr. destruct Hr as (-> & _).
    apply execAll_Matches in Hin.
    destruct Hin as (pre & post & y & _ & _ & HM & HS & _).
    apply EMAIL_RE_shape in HM. destruct HM as (v & HS' & Hv).
    rewrite (Shapes.Span_inj HS HS').
    now rewrite (trim_nonspace (emailText_nonspace Hv)). }
  apply Forall_forall. intros m Hin Ht.
  rewrite findSensitiveMatches_app in Hin.
  rewrite !in_app_iff, !In_tag in Hin. rewrite Forall_forall in He.
  repeat (destruct Hin as [Hin|Hin]); destruct Hin as [Hty Hv];
    try (rewrite Ht in Hty; discriminate Hty).
  now apply He.
Qed.

Lemma email_values_shape_witness :
  emailText (js "Jo.Doe+x@mail.example.org").
Proof.
  pose proof (email_values_shape (js "to Jo.Doe+x@mail.example.org.")) as H.
  rewrite Forall_forall in H.
  apply (H {| type := email; value := js "Jo.Doe+x@mail.example.org" |}).
  - vm_compute. left. reflexivity.
  - reflexivity.
Defined.

(* ===================================================================== *)
(** ** The form of a phone value *)
(* ===================================================================== *)

(** Source fragment: "[-.\s]" *)
Definition phoneSep (a : Z) : bool := oneOf "-." a || Char.is_space a.

Definition phoneSeps (l : jsstring) : Prop :=
  Forall (fun a => phoneSep a = true) l.

(** Nothing, or an optional [+], one to three digits and separators. *)
Definition countryPart (cc : jsstring) : Prop :=
  cc = []
  \/ exists sign ds s,
       cc = sign ++ ds ++ s
       /\ (sign = [] \/ sign = js "+")
       /\ digits ds /\ 1 <= length ds <= 3
       /\ phoneSeps s.

(** Three digits, bare or between brackets with white space inside. *)
Definition areaPart (a : jsstring) : Prop :=
  (digits a /\ length a = 3)
  \/ exists w1 ds w2,
       a = js "(" ++ w1 ++ ds ++ w2 ++ js ")"
       /\ spaces w1 /\ digits ds /\ length ds = 3 /\ spaces w2.

Definition phoneText (v : jsstring) : Prop :=
  exists cc area s1 b s2 c,
    v = cc ++ area ++ s1 ++ b ++ s2 ++ c
    /\ countryPart cc /\ areaPart area
    /\ phoneSeps s1 /\ digits b /\ length b = 3
    /\ phoneSeps s2 /\ digits c /\ length c = 4.

Section PhoneShape.

Import RegexFacts ExecFacts Shapes.

(** An optional piece is there or is not. *)
Lemma RepM_opt (R : state -> state -> Prop) x y :
  RepM R 0 (Some 1) x y -> y = x \/ R x y.
Proof.
  intros H. inversion H as [|? ? ? w ? _ Hxw _ Hrest]; subst.
  - now left.
  - right. simpl in Hrest. apply RepM_exact_0 in Hrest. now subst.
Qed.

Lemma cmem_phone_sep a :
  cmem false (cls [lit "-"; lit "."; Space]) a = true -> phoneSep a = true.
Proof.
  intros H. class_cases H; try plain_lit H.
  simpl in H. unfold phoneSep. rewrite H. apply orb_true_r.
Qed.

Lemma phone_seps_shape x y :
  Matches false (star phone_sep) x y ->
  exists l, Span x y l /\ phoneSeps l.
Proof.
  unfold star, phone_sep. cbn [Matches]. intros H.
  apply RepM_Chr in H. destruct H as (l & Sl & _ & Fl & _).
  exists l. split; [assumption|].
  eapply Forall_impl; [|exact Fl]. apply cmem_phone_sep.
Qed.

Lemma spaces_shape x y :
  Matches false (star space) x y -> exists l, Span x y l /\ spaces l.
Proof.
  unfold star, space. cbn [Matches]. intros H.
  apply RepM_Chr in H. destruct H as (l & Sl & _ & Fl & _).
  exists l. split; [assumption|].
  eapply Forall_impl; [|exact Fl]. intros a Ha. cbv beta in Ha.
  now rewrite cmem_space in Ha.
Qed.

Lemma country_shape x y :
  Matches false
    (opt (seq [ opt (ch "+"); range 1 3 digit; star phone_sep ])) x y ->
  exists cc, Span x y cc /\ countryPart cc.
Proof.
  unfold opt at 1. cbn [Matches]. intros H. apply RepM_opt in H.
  destruct H as [->|H].
  - exists []. split; [apply Span_refl | now left].
  - cbn [seq fold_right Matches] in H.
    destruct H as (w & Hs & w0 & Hd & w1 & Hp & ->).
    assert (Hsign : exists sign, Span x w sign /\ (sign = [] \/ sign = js "+")).
    { unfold opt in Hs. cbn [Matches] in Hs. apply RepM_opt in Hs.
      destruct Hs as [->|Hs].
      - exists []. split; [apply Span_refl | now left].
      - apply Matches_plain in Hs; [|reflexivity].
        exists (js "+"). split; [assumption | now right]. }
    destruct Hsign as (sign & Ss & Hsign).
    unfold range, digit in Hd. cbn [Matches] in Hd.
    apply RepM_Chr in Hd. destruct Hd as (ds & Sd & _ & Fd & Ld & Ud).
    apply phone_seps_shape in Hp. destruct Hp as (s & Sp & Fp).
    exists (sign ++ ds ++ s).
    split; [apply (Span_trans Ss (Span_trans Sd Sp))|].
    right. exists sign, ds, s. split; [reflexivity|].
    split; [assumption|]. split; [eapply Forall_digit; eauto|].
    split; [|assumption]. unfold rep_floor in Ld. simpl in Ld.
    specialize (Ud 3 eq_refl). lia.
Qed.

Lemma area_shape x y :
  Matches false
    (Alt (seq [ ch "("; star space; times 3 digit; star space; ch ")" ])
         (times 3 digit)) x y ->
  exists a, Span x y a /\ areaPart a.
Proof.
  cbn [Matches]. intros [H|H].
  - cbn [seq fold_right Matches] in H.
    destruct H as (w & Ho & w0 & H1 & w1 & Hd & w2 & H2 & w3 & Hc & ->).
    apply Matches_plain in Ho; [|reflexivity].
    apply Matches_plain in Hc; [|reflexivity].
    apply spaces_shape in H1, H2.
    destruct H1 as (s1 & S1 & F1). destruct H2 as (s2 & S2 & F2).
    unfold times in Hd. cbn [Matches] in Hd. apply RepM_digits in Hd.
    destruct Hd as (ds & Sd & _ & Dd & Ld).
    exists (js "(" ++ s1 ++ ds ++ s2 ++ js ")"). split.
    + apply (Span_trans Ho (Span_trans S1 (Span_trans Sd (Span_trans S2 Hc)))).
    + right. exists s1, ds, s2. auto.
  - unfold times in H. cbn [Matches] in H. apply RepM_digits in H.
    destruct H as (ds & Sd & _ & Dd & Ld). exists ds. split; [assumption|].
    now left.
Qed.

Lemma PHONE_RE_shape x y :
  Matches false (pattern PHONE_RE) x y ->
  exists v,
    Span x y v /\ phoneText v
    /\ notDigitOpt (prev x) /\ notDigitOpt (hd_error (rest y)).
Proof.
  intros H. unfold PHONE_RE, pattern in H.
  cbn [seq fold_right] in H.
  destruct H as (w & (Hb & ->) & H). destruct H as (w0 & Hcc & H).
  destruct H as (w1 & Har & H). destruct H as (w2 & Hs1 & H).
  destruct H as (w3 & Hb3 & H). destruct H as (w4 & Hs2 & H).
  destruct H as (w5 & Hc4 & H). destruct H as (w6 & (Ha & ->) & ->).
  apply country_shape in Hcc. destruct Hcc as (cc & Scc & Hcc).
  apply area_shape in Har. destruct Har as (a & Sa & Har).
  apply phone_seps_shape in Hs1, Hs2.
  destruct Hs1 as (s1 & Ss1 & Fs1). destruct Hs2 as (s2 & Ss2 & Fs2).
  unfold times in Hb3, Hc4. cbn [Matches] in Hb3, Hc4.
  apply RepM_digits in Hb3, Hc4.
  destruct Hb3 as (b & Sb & _ & Db & Lb). destruct Hc4 as (c & Sc & _ & Dc & Lc).
  exists (cc ++ a ++ s1 ++ b ++ s2 ++ c). split.
  { apply (Span_trans Scc (Span_trans Sa (Span_trans Ss1
             (Span_trans Sb (Span_trans Ss2 Sc))))). }
  split.
  { exists cc, a, s1, b, s2, c. repeat split; assumption. }
  split.
  - destruct (prev x); simpl; [|trivial]. now rewrite cmem_digit in Hb.
  - destruct (rest w5); simpl; [trivial|]. now rewrite cmem_digit in Ha.
Qed.

Lemma hd_app_nonempty (l1 l2 : jsstring) d :
  l1 <> [] -> hd d (l1 ++ l2) = hd d l1.
Proof. destruct l1; [congruence | reflexivity]. Qed.

Lemma last_app_nonempty (l1 l2 : jsstring) d :
  l2 <> [] -> last (l1 ++ l2) d = last l2 d.
Proof.
  intros H. destruct l2 as [|a l2] using rev_ind; [congruence|].
  now rewrite app_assoc, !last_last.
Qed.

Lemma digits_hd_last l :
  digits l -> l <> [] ->
  Char.is_digit (hd 0%Z l) = true /\ Char.is_digit (last l 0%Z) = true.
Proof.
  intros Hd Hne. unfold digits in Hd. rewrite Forall_forall in Hd. split.
  - destruct l; [congruence|]. apply Hd. now left.
  - destruct l as [|a l] using rev_ind; [congruence|].
    rewrite last_last. apply Hd. apply in_or_app. right. now left.
Qed.

Lemma length_nonempty (l : jsstring) n : length l = S n -> l <> [].
Proof. intros H ->. discriminate. Qed.

Lemma phoneText_trimmed v : phoneText v -> trimmedNonEmpty v.
Proof.
  intros (cc & a & s1 & b & s2 & c & -> & Hcc & Ha & _ & _ & _ & _ & Dc & Lc).
  assert (Hc : c <> []) by (eapply length_nonempty; eauto).
  assert (Hane : a <> [] /\ Char.is_space (hd 0%Z a) = false).
  { destruct Ha as [[Da La]|(w1 & ds & w2 & -> & _)].
    - assert (Hn : a <> []) by (eapply length_nonempty; eauto).
      split; [assumption|]. apply digit_not_space.
      now apply digits_hd_last.
    - split; [discriminate | reflexivity]. }
  destruct Hane as [Hane Hah].
  split; [|split].
  - intros He. apply app_eq_nil in He. destruct He as [_ He].
    apply app_eq_nil in He. destruct He as [He _]. contradiction.
  - destruct Hcc as [->|(sign & ds & s & -> & Hsign & Dd & Ld & _)].
    + simpl. now rewrite hd_app_nonempty.
    + assert (Hn : ds <> []) by (intros ->; simpl in Ld; lia).
      destruct Hsign as [->| ->]; [|reflexivity]. simpl.
      rewrite <- !app_assoc. rewrite hd_app_nonempty by assumption.
      apply digit_not_space. now apply digits_hd_last.
  - rewrite !app_assoc. rewrite last_app_nonempty by assumption.
    apply digit_not_space. now apply digits_hd_last.
Qed.

End PhoneShape.

(** X15: every match of type [phone] is an optional country part (an optional
    [+], one to three digits, separators), three digits, bare or in
    brackets, separators, three digits, separators and four digits, where
    a separator is a dash, a dot or white space; and it stands in the text
    with no digit right before it and no digit right after it. *)
Theorem phone_values_shape (text : jsstring) :
  Forall (fun m => type m = phone ->
                   phoneText (value m)
                   /\ exists pre post,
                        text = pre ++ value m ++ post
                        /\ notDigitOpt (RegexFacts.lastp pre None)
                        /\ notDigitOpt (hd_error post))
         (findSensitiveMatches text).
Proof.
  assert (He : Forall (fun v => phoneText v
                         /\ exists pre post,
                              text = pre ++ v ++ post
                              /\ notDigitOpt (RegexFacts.lastp pre None)
                              /\ notDigitOpt (hd_error post))
                      (matchAllUnique text PHONE_RE)).
  { rewrite matchAllUnique_kept. unfold JsMap.values. apply Forall_map.
    apply kept_Forall. intros r k v Hin Hr. simpl.
    apply matchAllUnique_entry_value in Hr. destruct Hr as (-> & _).
    apply execAll_Matches in Hin.
    destruct Hin as (pre & post & y & Ht & _ & HM & HS & Hrest & _).
    apply PHONE_RE_shape in HM. destruct HM as (v & HS' & Hv & Hb & Ha).
    rewrite (Shapes.Span_inj HS HS') in *.
    rewrite (trim_id (phoneText_trimmed Hv)).
    split; [assumption|]. exists pre, post. rewrite Hrest in Ha. auto. }
  apply Forall_forall. intros m Hin Ht.
  rewrite findSensitiveMatches_app in Hin.
  rewrite !in_app_iff, !In_tag in Hin. rewrite Forall_forall in He.
  repeat (destruct Hin as [Hin|Hin]); destruct Hin as [Hty Hv];
    try (rewrite Ht in Hty; discriminate Hty).
  now apply He.
Qed.

Lemma phone_values_shape_witness :
  phoneText (js "+1 (212) 555-1212")
  /\ exists pre post,
       js "call +1 (212) 555-1212 now" = pre ++ js "+1 (212) 555-1212" ++ post
       /\ notDigitOpt (RegexFacts.lastp pre None)
       /\ notDigitOpt (hd_error post).
Proof.
  pose proof (phone_values_shape (js "call +1 (212) 555-1212 now")) as H.
  rewrite Forall_forall in H.
  apply (H {| type := phone; value := js "+1 (212) 555-1212" |}).
  - vm_compute. left. reflexivity.
  - reflexivity.
Defined.

(* ===================================================================== *)
(** ** The form of the prefix-coded identifiers *)
(* ===================================================================== *)

(** Source fragment: "[-\s]" *)
Definition idSep (a : Z) : bool := oneOf "-" a || Char.is_space a.

Definition idSeps (l : jsstring) : Prop := Forall (fun a => idSep a = true) l.

(** The prefix in either case, separators, and [lo] to [hi] digits. *)
Definition prefixedId (prefix : jsstring) (lo hi : nat) (v : jsstring) : Prop :=
  exists p s ds,
    v = p ++ s ++ ds
    /\ ciEqual prefix p /\ idSeps s
    /\ digits ds /\ lo <= length ds <= hi.

(** A further group of an employee id: separators and two to six digits. *)
Definition idGroup (g : jsstring) : Prop :=
  exists s ds, g = s ++ ds /\ idSeps s /\ digits ds /\ 2 <= length ds <= 6.

(** [EMP] in either case, separators, two to four digits, and one group or
    more. *)
Definition employeeIdText (v : jsstring) : Prop :=
  exists p s ds gs,
    v = p ++ s ++ ds ++ concat gs
    /\ ciEqual (js "EMP") p /\ idSeps s
    /\ digits ds /\ 2 <= length ds <= 4
    /\ gs <> [] /\ Forall idGroup gs.

Definition idForm (t : SensitiveType) (v : jsstring) : Prop :=
  match t with
  | insurancePolicy => prefixedId (js "INS") 6 14 v
  | employeeId => employeeIdText v
  | medicalRecordNumber => prefixedId (js "MRN") 4 14 v
  | _ => True
  end.

Section IdShape.

Import RegexFacts ExecFacts Shapes.

Lemma cmem_id_sep a :
  cmem true (cls [lit "-"; Space]) a = true -> idSep a = true.
Proof.
  intros H. class_cases H; try plain_lit H.
  simpl in H. unfold idSep. rewrite H. apply orb_true_r.
Qed.

Lemma id_seps_shape x y :
  Matches true id_sep x y -> exists l, Span x y l /\ idSeps l.
Proof.
  unfold id_sep, star. cbn [Matches]. intros H.
  apply RepM_Chr in H. destruct H as (l & Sl & _ & Fl & _).
  exists l. split; [assumption|].
  eapply Forall_impl; [|exact Fl]. apply cmem_id_sep.
Qed.

Lemma id_digits_shape lo hi x y :
  lo <= hi ->
  Matches true (range lo hi digit) x y ->
  exists ds, Span x y ds /\ digits ds /\ lo <= length ds <= hi.
Proof.
  intros Hlh. unfold range, digit. cbn [Matches]. intros H.
  apply RepM_Chr in H. destruct H as (ds & Sd & _ & Fd & Ld & Ud).
  exists ds. split; [assumption|]. split; [eapply Forall_digit; eauto|].
  unfold rep_floor in Ld. specialize (Ud hi eq_refl). lia.
Qed.

(** The iterations of a quantified group, one text for each. *)
Lemma RepM_groups (R : state -> state -> Prop) (G : jsstring -> Prop) :
  (forall x y, R x y -> exists l, Span x y l /\ G l) ->
  forall lo hi x y,
    RepM R lo hi x y ->
    exists gs, Span x y (concat gs) /\ Forall G gs
               /\ rep_floor lo hi <= length gs.
Proof.
  intros HR lo hi x y H.
  induction H as [lo hi x Hstop|lo hi x y z Hhi Hxy _ _ IH].
  - exists []. split; [apply Span_refl|]. split; [constructor|].
    destruct Hstop as [->| ->]; unfold rep_floor; simpl.
    + now rewrite Nat.min_0_r.
    + destruct hi; simpl; lia.
  - destruct (HR _ _ Hxy) as (l & Sl & Gl).
    destruct IH as (gs & Sg & Fg & Lg).
    exists (l :: gs). split; [apply (Span_trans Sl Sg)|].
    split; [constructor; assumption|].
    simpl. unfold rep_floor in *. destruct hi as [h|]; simpl in *; lia.
Qed.

Lemma prefixed_shape (prefix : string) lo hi x y :
  lo <= hi ->
  Matches true (seq [ WordB; ch prefix; id_sep; range lo hi digit; WordB ]) x y ->
  exists v, Span x y v /\ prefixedId (js prefix) lo hi v.
Proof.
  intros Hlh H. cbn [seq fold_right] in H.
  destruct H as (w & (_ & ->) & H). destruct H as (w0 & Hp & H).
  destruct H as (w1 & Hs & H). destruct H as (w2 & Hd & H).
  destruct H as (w3 & (_ & ->) & ->).
  apply Matches_ch in Hp. destruct Hp as (p & Sp & _ & Tp).
  apply id_seps_shape in Hs. destruct Hs as (s & Ss & Fs).
  apply (id_digits_shape Hlh) in Hd. destruct Hd as (ds & Sd & Dd & Ld).
  exists (p ++ s ++ ds). split; [apply (Span_trans Sp (Span_trans Ss Sd))|].
  exists p, s, ds. repeat split; try assumption; lia.
Qed.

Lemma EMPLOYEE_ID_shape x y :
  Matches true (pattern EMPLOYEE_ID_RE) x y ->
  exists v, Span x y v /\ employeeIdText v.
Proof.
  intros H. unfold EMPLOYEE_ID_RE, pattern in H. cbn [seq fold_right] in H.
  destruct H as (w & (_ & ->) & H). destruct H as (w0 & Hp & H).
  destruct H as (w1 & Hs & H). destruct H as (w2 & Hd & H).
  destruct H as (w3 & Hg & H). destruct H as (w4 & (_ & ->) & ->).
  apply Matches_ch in Hp. destruct Hp as (p & Sp & _ & Tp).
  apply id_seps_shape in Hs. destruct Hs as (s & Ss & Fs).
  apply id_digits_shape in Hd; [|lia]. destruct Hd as (ds & Sd & Dd & Ld).
  unfold plus in Hg. cbn [Matches] in Hg.
  apply (@RepM_groups _ idGroup) in Hg.
  - destruct Hg as (gs & Sg & Fg & Lg). unfold rep_floor in Lg.
    exists (p ++ s ++ ds ++ concat gs).
    split; [apply (Span_trans Sp (Span_trans Ss (Span_trans Sd Sg)))|].
    exists p, s, ds, gs. repeat split; try assumption; try lia.
    intros ->. simpl in Lg. lia.
  - intros u v Huv. cbn [seq fold_right] in Huv.
    destruct Huv as (u0 & Hs' & Huv). destruct Huv as (u1 & Hd' & ->).
    apply id_seps_shape in Hs'. destruct Hs' as (s' & Ss' & Fs').
    apply id_digits_shape in Hd'; [|lia].
    destruct Hd' as (ds' & Sd' & Dd' & Ld').
    exists (s' ++ ds'). split; [apply (Span_trans Ss' Sd')|].
    exists s', ds'. repeat split; try assumption; lia.
Qed.

(** A text that begins with the letters of a prefix and ends with a digit
    is trimmed. *)
Lemma letter_hd_nonspace (k : Z) w l :
  asciiLetter k = true -> ciEqual (k :: w) l ->
  l <> [] /\ Char.is_space (hd 0%Z l) = false.
Proof.
  intros Hk H. inversion H as [|? c ? l' Hkc _]; subst.
  split; [discriminate|]. simpl.
  destruct (Char.is_space c) eqn:Hs; [exfalso | reflexivity].
  apply space_range in Hs. unfold asciiLetter in Hk.
  unfold Char.ascii_upper in Hkc. zbool.
Qed.

Lemma prefixed_trimmed (k : Z) w body ds p :
  asciiLetter k = true -> ciEqual (k :: w) p ->
  digits ds -> 1 <= length ds ->
  trimmedNonEmpty (p ++ body ++ ds).
Proof.
  intros Hk Hp Dd Ld.
  destruct (letter_hd_nonspace Hk Hp) as [Hne Hh].
  assert (Hd : ds <> []) by (intros ->; simpl in Ld; lia).
  split; [|split].
  - intros He. apply app_eq_nil in He. tauto.
  - now rewrite hd_app_nonempty.
  - rewrite app_assoc, last_app_nonempty by assumption.
    apply digit_not_space. now apply digits_hd_last.
Qed.

Lemma prefixedId_trimmed (prefix : string) lo hi v :
  1 <= lo ->
  asciiLetter (hd 0%Z (js prefix)) = true -> js prefix <> [] ->
  prefixedId (js prefix) lo hi v -> trimmedNonEmpty v.
Proof.
  intros Hlo Hk Hne (p & s & ds & -> & Hp & _ & Dd & Ld).
  destruct (js prefix) as [|k w]; [congruence|]. simpl in Hk.
  apply (@prefixed_trimmed k w s ds p Hk Hp Dd). lia.
Qed.

Lemma idGroup_ends_digit g :
  idGroup g -> g <> [] /\ Char.is_digit (last g 0%Z) = true.
Proof.
  intros (s & ds & -> & _ & Dd & Ld).
  assert (Hd : ds <> []) by (intros ->; simpl in Ld; lia).
  split.
  - intros He. apply app_eq_nil in He. tauto.
  - rewrite last_app_nonempty by assumption. now apply digits_hd_last.
Qed.

Lemma groups_end_digit gs :
  Forall idGroup gs -> gs <> [] ->
  concat gs <> [] /\ Char.is_digit (last (concat gs) 0%Z) = true.
Proof.
  induction 1 as [|g gs Hg Hgs IH]; [congruence|]. intros _.
  destruct (idGroup_ends_digit Hg) as [Hne Hl]. simpl.
  destruct gs as [|g' gs'].
  - simpl. rewrite app_nil_r. now split.
  - destruct IH as [Hc Hlast]; [discriminate|]. split.
    + intros He. apply app_eq_nil in He. tauto.
    + now rewrite last_app_nonempty.
Qed.

Lemma employeeIdText_trimmed v : employeeIdText v -> trimmedNonEmpty v.
Proof.
  intros (p & s & ds & gs & -> & Hp & _ & _ & _ & Hne & Fg).
  destruct (@letter_hd_nonspace 69%Z (js "MP") p eq_refl Hp) as [Hpn Hh].
  destruct (groups_end_digit Fg Hne) as [Hc Hl].
  split; [|split].
  - intros He. apply app_eq_nil in He. tauto.
  - now rewrite hd_app_nonempty.
  - rewrite !app_assoc, last_app_nonempty by assumption.
    now apply digit_not_space.
Qed.

Lemma shaped_values (P : jsstring -> Prop) re text :
  (forall x y, Matches (ignoreCase re) (pattern re) x y ->
     exists v, Span x y v /\ P v) ->
  (forall v, P v -> trimmedNonEmpty v) ->
  Forall P (matchAllUnique text re).
Proof.
  intros Hshape Htrim. rewrite matchAllUnique_kept.
  unfold JsMap.values. apply Forall_map.
  apply kept_Forall. intros r k v Hin Hr. simpl.
  apply matchAllUnique_entry_value in Hr. destruct Hr as (-> & _).
  apply execAll_Matches in Hin.
  destruct Hin as (pre & post & y & _ & _ & HM & HS & _).
  apply Hshape in HM. destruct HM as (v & HS' & Hv).
  rewrite (Span_inj HS HS'). now rewrite (trim_id (Htrim _ Hv)).
Qed.

End IdShape.

(** X16: an insurance policy value is [INS] in either case, then dashes or
    white space, then 6 to 14 digits; a medical record number is [MRN],
    separators and 4 to 14 digits; an employee id is [EMP], separators, two
    to four digits and one or more groups of separators and two to six
    digits.  In each the prefix is part of the value. *)
Theorem prefix_id_values_shape (text : jsstring) :
  Forall (fun m => idForm (type m) (value m)) (findSensitiveMatches text).
Proof.
  assert (Happ : forall (P : SensitiveMatch -> Prop) a b,
             Forall P a -> Forall P b -> Forall P (a ++ b)).
  { intros P a b Ha Hb. apply Forall_app. now split. }
  assert (Htag : forall t l,
             Forall (idForm t) l ->
             Forall (fun m => idForm (type m) (value m)) (tag t l)).
  { intros t l H. unfold tag. apply Forall_map. exact H. }
  assert (Htriv : forall l : list jsstring, Forall (fun _ => True) l).
  { intros l. apply Forall_forall. intros v _. exact I. }
  rewrite findSensitiveMatches_app.
  repeat apply Happ; apply Htag; try apply Htriv.
  - apply shaped_values.
    + intros x y HM.
      apply (@prefixed_shape "INS" 6 14 x y); [lia | exact HM].
    + intros v Hv.
      apply (@prefixedId_trimmed "INS" 6 14 v); [lia|reflexivity|discriminate|].
      exact Hv.
  - apply shaped_values.
    + apply EMPLOYEE_ID_shape.
    + apply employeeIdText_trimmed.
  - apply shaped_values.
    + intros x y HM.
      apply (@prefixed_shape "MRN" 4 14 x y); [lia | exact HM].
    + intros v Hv.
      apply (@prefixedId_trimmed "MRN" 4 14 v); [lia|reflexivity|discriminate|].
      exact Hv.
Qed.

(* ===================================================================== *)
(** ** Bank numbers are taken only under their label *)
(* ===================================================================== *)

(** What stands before a routing number, an account number or a sort code
    in the text, and the form of the number: the label in either case, at
    the start of a word, and the number. *)
Definition labelledNumber (lab v : jsstring) : Prop :=
  (ciEqual (js "routing") lab /\ digits v /\ length v = 9)
  \/ ((ciEqual (js "account") lab \/ ciEqual (js "acct") lab)
      /\ digits v /\ 6 <= length v <= 17)
  \/ (ciEqual (js "sort") lab /\ sortCodeText v).

Section BankLabels.

Import RegexFacts ExecFacts Shapes DigitBudget.

Lemma Matches_seq_app ic l1 : forall l2 x y,
  Matches ic (seq (l1 ++ l2)) x y ->
  exists w, Matches ic (seq l1) x w /\ Matches ic (seq l2) w y.
Proof.
  induction l1 as [|r l1 IH]; intros l2 x y H.
  - exists x. split; [reflexivity | exact H].
  - simpl in H. destruct H as (w & Hr & H). apply IH in H.
    destruct H as (w' & H1 & H2). exists w'. split; [|exact H2].
    simpl. exists w. split; assumption.
Qed.

Lemma digitsOnly_nil l : length (digitsOnly l) <= 0 -> nonDigits l.
Proof.
  unfold digitsOnly, nonDigits. induction l as [|a l IH]; [constructor|].
  simpl. destruct (Char.is_digit a) eqn:Ha; simpl; [lia|].
  intros H. constructor; [assumption | now apply IH].
Qed.

(** A label, a filling without digits, and the captured number. *)
Lemma labelled_capture kw mids capre x y :
  most (seq mids) = Some 0 ->
  Matches true (seq ([WordB; kw] ++ mids ++ [Cap capre; WordB])) x y ->
  exists lab tail v w u u',
    Span x y (lab ++ tail ++ v)
    /\ at_word_boundary x = true
    /\ Matches true kw x w /\ Span x w lab
    /\ nonDigits tail
    /\ Matches true capre u u' /\ Span u u' v
    /\ cap y = Some v.
Proof.
  intros Hm H. apply Matches_seq_app in H. destruct H as (w0 & Hk & H).
  cbn [seq fold_right Matches] in Hk.
  destruct Hk as (x' & (Hb & ->) & w & Hk & ->).
  apply Matches_seq_app in H. destruct H as (w1 & Hmid & H).
  cbn [seq fold_right Matches] in H.
  destruct H as (w2 & (u' & Hc & ->) & w3 & (_ & ->) & ->).
  destruct (Matches_span _ _ _ _ Hk) as (lab & Sl).
  destruct (@budget_sound _ _ _ _ Hmid) as (tail & St & _ & Ut).
  destruct (Matches_span _ _ _ _ Hc) as (v & Sv).
  exists lab, tail, v, w, w1, u'.
  assert (Sv' : Span w1 {| prev := prev u'; rest := rest u';
                           cap := Some (consumed w1 u') |} v)
    by (destruct Sv; split; assumption).
  split; [apply (Span_trans Sl (Span_trans St Sv'))|].
  split; [assumption|]. split; [assumption|]. split; [assumption|].
  split; [apply digitsOnly_nil; now apply Ut|].
  split; [assumption|]. split; [assumption|].
  simpl. now rewrite (Span_consumed Sv).
Qed.

Lemma sort_digits_shape x y :
  Matches true
    (seq [ times 2 digit; dash_space; times 2 digit; dash_space;
           times 2 digit ]) x y ->
  exists v, Span x y v /\ sortCodeText v.
Proof.
  intros Hv. cbn [seq fold_right times Matches] in Hv.
  destruct Hv as (u1 & Ha & u2 & H1 & u3 & Hb & u4 & H2 & u5 & Hc & ->).
  apply RepM_digits in Ha, Hb, Hc.
  destruct Ha as (a & Sa & _ & Da & La).
  destruct Hb as (b & Sb & _ & Db & Lb).
  destruct Hc as (c & Sc & _ & Dc & Lc).
  apply dash_space_shape in H1, H2.
  destruct H1 as (s1 & S1 & _ & T1). destruct H2 as (s2 & S2 & _ & T2).
  exists (a ++ s1 ++ b ++ s2 ++ c). split.
  - apply (Span_trans Sa (Span_trans S1 (Span_trans Sb (Span_trans S2 Sc)))).
  - exists a, s1, b, s2, c. repeat split; assumption.
Qed.

(** A label written in letters starts a word. *)
Lemma label_starts_word (k : Z) w lab (x y : state) :
  asciiLetter k = true -> ciEqual (k :: w) lab ->
  Span x y lab -> at_word_boundary x = true ->
  is_word_opt (prev x) = false.
Proof.
  intros Hk Hl [Hr _] Hb. inversion Hl as [|? c ? l' Hkc _]; subst.
  simpl in Hr.
  assert (Hc : Char.is_word c = true).
  { unfold asciiLetter in Hk. unfold Char.ascii_upper in Hkc. zbool. }
  rewrite (boundary_before _ Hr Hc) in Hb.
  now apply negb_true_iff in Hb.
Qed.

(** The three labelled scans: what a result looks like. *)
Lemma ROUTING_RE_shape x y :
  Matches true (pattern ROUTING_RE) x y ->
  exists lab tail v,
    Span x y (lab ++ tail ++ v) /\ nonDigits tail /\ cap y = Some v
    /\ is_word_opt (prev x) = false /\ labelledNumber lab v.
Proof.
  intros H.
  change (pattern ROUTING_RE)
    with (seq ([WordB; ch "routing"]
               ++ [ opt (seq [ star space; ch "number" ]);
                    star space; colon_dash; star space ]
               ++ [Cap (times 9 digit); WordB])) in H.
  apply labelled_capture in H; [|reflexivity].
  destruct H as (lab & tail & v & w & u & u' & S & Hb & Hk & Sl & Nt & Hc & Sv
                 & Hcap).
  apply Matches_ch in Hk. destruct Hk as (lab' & Sl' & _ & Tl).
  rewrite <- (Span_inj Sl Sl') in Tl.
  unfold times in Hc. cbn [Matches] in Hc. apply RepM_digits in Hc.
  destruct Hc as (v' & Sv' & _ & Dv & Lv). rewrite <- (Span_inj Sv Sv') in *.
  exists lab, tail, v.
  split; [assumption|]. split; [assumption|]. split; [assumption|]. split.
  - apply (@label_starts_word 114%Z (js "outing") lab x w eq_refl Tl Sl Hb).
  - left. auto.
Qed.

Lemma ACCOUNT_RE_shape x y :
  Matches true (pattern ACCOUNT_RE) x y ->
  exists lab tail v,
    Span x y (lab ++ tail ++ v) /\ nonDigits tail /\ cap y = Some v
    /\ is_word_opt (prev x) = false /\ labelledNumber lab v.
Proof.
  intros H.
  change (pattern ACCOUNT_RE)
    with (seq ([WordB; Alt (ch "account") (ch "acct")]
               ++ [ opt (seq [ star space;
                               alt (ch "number")
                                 [ seq [ ch "no"; opt (ch ".") ]; ch "#" ] ]);
                    star space; colon_dash; star space ]
               ++ [Cap (range 6 17 digit); WordB])) in H.
  apply labelled_capture in H; [|reflexivity].
  destruct H as (lab & tail & v & w & u & u' & S & Hb & Hk & Sl & Nt & Hc & Sv
                 & Hcap).
  apply id_digits_shape in Hc; [|lia].
  destruct Hc as (v' & Sv' & Dv & Lv). rewrite <- (Span_inj Sv Sv') in *.
  exists lab, tail, v.
  cbn [Matches] in Hk. destruct Hk as [Hk|Hk];
    apply Matches_ch in Hk; destruct Hk as (lab' & Sl' & _ & Tl);
    rewrite <- (Span_inj Sl Sl') in Tl.
  - split; [assumption|]. split; [assumption|]. split; [assumption|]. split.
    + apply (@label_starts_word 97%Z (js "ccount") lab x w eq_refl Tl Sl Hb).
    + right. left. auto.
  - split; [assumption|]. split; [assumption|]. split; [assumption|]. split.
    + apply (@label_starts_word 97%Z (js "cct") lab x w eq_refl Tl Sl Hb).
    + right. left. auto.
Qed.

Lemma SORT_CODE_RE_shape x y :
  Matches true (pattern SORT_CODE_RE) x y ->
  exists lab tail v,
    Span x y (lab ++ tail ++ v) /\ nonDigits tail /\ cap y = Some v
    /\ is_word_opt (prev x) = false /\ labelledNumber lab v.
Proof.
  intros H.
  change (pattern SORT_CODE_RE)
    with (seq ([WordB; ch "sort"]
               ++ [ star space; ch "code"; star space; colon_dash;
                    star space ]
               ++ [Cap (seq [ times 2 digit; dash_space; times 2 digit;
                              dash_space; times 2 digit ]); WordB])) in H.
  apply labelled_capture in H; [|reflexivity].
  destruct H as (lab & tail & v & w & u & u' & S & Hb & Hk & Sl & Nt & Hc & Sv
                 & Hcap).
  apply Matches_ch in Hk. destruct Hk as (lab' & Sl' & _ & Tl).
  rewrite <- (Span_inj Sl Sl') in Tl.
  apply sort_digits_shape in Hc. destruct Hc as (v' & Sv' & Hv).
  rewrite <- (Span_inj Sv Sv') in *.
  exists lab, tail, v.
  split; [assumption|]. split; [assumption|]. split; [assumption|]. split.
  - apply (@label_starts_word 115%Z (js "ort") lab x w eq_refl Tl Sl Hb).
  - right. right. auto.
Qed.

Lemma labelledNumber_trim lab v : labelledNumber lab v -> trim v = v.
Proof.
  intros [(_ & Dv & _)|[(_ & Dv & _)|(_ & Hv)]];
    try (now apply trim_digits).
  apply trim_id. now apply sortCodeText_trimmed.
Qed.

(** A value kept by one of the three labelled loops, in the text. *)
Lemma labelled_value entry re text :
  ignoreCase re = true ->
  (forall x y, Matches true (pattern re) x y ->
     exists lab tail v,
       Span x y (lab ++ tail ++ v) /\ nonDigits tail /\ cap y = Some v
       /\ is_word_opt (prev x) = false /\ labelledNumber lab v) ->
  (forall r k v, entry r = Some (k, v) -> v = trim (orEmpty (m1 r))) ->
  forall e, In e (kept entry re text) ->
    exists pre lab tail post,
      text = pre ++ lab ++ tail ++ snd e ++ post
      /\ is_word_opt (lastp pre None) = false
      /\ nonDigits tail /\ labelledNumber lab (snd e).
Proof.
  intros Hic Hshape Hentry [k v] Hin. apply kept_In in Hin.
  destruct Hin as (r & Hr & He). simpl.
  apply Hentry in He. apply execAll_Matches in Hr.
  destruct Hr as (pre & post & y & Ht & _ & HM & HS & _ & Hc).
  rewrite Hic in HM. apply Hshape in HM.
  destruct HM as (lab & tail & v0 & HS' & Nt & Hcap & Hw & Hl).
  rewrite Hc, Hcap in He. simpl in He, Hw.
  rewrite (labelledNumber_trim Hl) in He. subst v0.
  exists pre, lab, tail, post. rewrite Ht, (Span_inj HS HS').
  rewrite <- !app_assoc. auto.
Qed.

End BankLabels.

(** X17: a match of type [bank] is an IBAN whose normalized form passes
    [isValidIban], or it is a number that stands in the text behind its
    label: nine digits behind [routing], 6 to 17 digits behind [account]
    or [acct], or a sort code behind [sort]; the label is in either case
    and starts a word, and between the label and the number there is no
    digit.  A bare number is never a bank match. *)
Theorem bank_numbers_are_labelled (text v : jsstring) :
  In {| type := bank; value := v |} (findSensitiveMatches text) ->
  isValidIban (toUpperCase (stripSpaces v)) = true
  \/ exists pre lab tail post,
       text = pre ++ lab ++ tail ++ v ++ post
       /\ is_word_opt (RegexFacts.lastp pre None) = false
       /\ nonDigits tail
       /\ labelledNumber lab v.
Proof.
  intros Hin. rewrite findSensitiveMatches_app in Hin.
  rewrite !in_app_iff, !In_tag in Hin. simpl in Hin.
  assert (Hb : In v (findBankAccounts text)).
  { repeat (destruct Hin as [Hin|Hin]); destruct Hin as [Hty Hv];
      try discriminate Hty. exact Hv. }
  clear Hin. unfold findBankAccounts in Hb. rewrite bankMap_families in Hb.
  unfold JsMap.values in Hb. apply in_map_iff in Hb.
  destruct Hb as (e & <- & He). rewrite !in_app_iff in He.
  destruct He as [He|[He|[He|He]]].
  - left. destruct e as [k v]. apply kept_In in He.
    destruct He as (r & _ & He). apply iban_entry_value in He.
    destruct He as (_ & Hk & Hv & _). simpl. now rewrite <- Hk.
  - right. apply (@labelled_value routing_entry ROUTING_RE text eq_refl);
      [apply ROUTING_RE_shape | | exact He].
    intros r k v H. apply routing_entry_value in H. tauto.
  - right. apply (@labelled_value account_entry ACCOUNT_RE text eq_refl);
      [apply ACCOUNT_RE_shape | | exact He].
    intros r k v H. apply account_entry_value in H. tauto.
  - right. apply (@labelled_value sort_entry SORT_CODE_RE text eq_refl);
      [apply SORT_CODE_RE_shape | | exact He].
    intros r k v H. apply sort_entry_value in H. tauto.
Qed.

Lemma bank_numbers_are_labelled_witness :
  isValidIban (toUpperCase (stripSpaces (js "021000021"))) = true
  \/ exists pre lab tail post,
       js "Routing number: 021000021" = pre ++ lab ++ tail ++ js "021000021" ++ post
       /\ is_word_opt (RegexFacts.lastp pre None) = false
       /\ nonDigits tail
       /\ labelledNumber lab (js "021000021").
Proof.
  apply (@bank_numbers_are_labelled (js "Routing number: 021000021")
           (js "021000021")).
  vm_compute. left. reflexivity.
Defined.

(* ===================================================================== *)
(** ** An IBAN candidate always has the strict shape *)
(* ===================================================================== *)

(** One iteration of the candidate pattern: an optional blank and a letter
    or digit. *)
Definition ibanGroup (g : jsstring) : Prop :=
  exists bl c,
    g = bl ++ [c] /\ (bl = [] \/ bl = [32%Z])
    /\ (asciiLetter c || Char.is_digit c) = true.

Section IbanCandidates.

Import RegexFacts ExecFacts Shapes.

Lemma RepM_groups_bounded (R : state -> state -> Prop) (G : jsstring -> Prop) :
  (forall x y, R x y -> exists l, Span x y l /\ G l) ->
  forall lo hi x y,
    RepM R lo hi x y ->
    exists gs, Span x y (concat gs) /\ Forall G gs
               /\ rep_floor lo hi <= length gs
               /\ (forall h, hi = Some h -> length gs <= h).
Proof.
  intros HR lo hi x y H.
  induction H as [lo hi x Hstop|lo hi x y z Hhi Hxy _ _ IH].
  - exists []. split; [apply Span_refl|]. split; [constructor|]. split.
    + destruct Hstop as [->| ->]; unfold rep_floor; simpl.
      * now rewrite Nat.min_0_r.
      * destruct hi; simpl; lia.
    + intros h _. simpl. lia.
  - destruct (HR _ _ Hxy) as (l & Sl & Gl).
    destruct IH as (gs & Sg & Fg & Lg & Ug).
    exists (l :: gs). split; [apply (Span_trans Sl Sg)|].
    split; [constructor; assumption|]. split.
    + simpl. unfold rep_floor in *. destruct hi as [h|]; simpl in *; lia.
    + intros h ->. simpl. destruct h as [|h]; [congruence|].
      specialize (Ug h eq_refl). lia.
Qed.

Lemma cmem_alnum_letters a :
  cmem true (cls [AZ; d09]) a = true ->
  (asciiLetter a || Char.is_digit a) = true.
Proof.
  intros H. class_cases H.
  - rewrite atom_AZ_ic in H. now rewrite H.
  - rewrite atom_d09 in H. rewrite H. apply orb_true_r.
Qed.

Lemma iban_group_shape x y :
  Matches true (seq [ opt (Chr (cls [lit " "])); Chr (cls [AZ; d09]) ]) x y ->
  exists g, Span x y g /\ ibanGroup g.
Proof.
  cbn [seq fold_right opt Matches]. intros (u1 & Ho & u2 & Hc & ->).
  apply RepM_Chr in Ho. destruct Ho as (bl & So & _ & Fo & _ & Uo).
  specialize (Uo 1 eq_refl).
  apply Matches_Chr in Hc. destruct Hc as (c & Sc & Cc & _).
  exists (bl ++ [c]). split; [apply (Span_trans So Sc)|].
  exists bl, c. split; [reflexivity|]. split.
  - destruct bl as [|b [|b' bl]]; simpl in Uo; try lia; [now left|].
    right. inversion Fo as [|? ? Hb _]; subst. rewrite cmem_blank in Hb.
    apply Z.eqb_eq in Hb. now subst.
  - now apply cmem_alnum_letters.
Qed.

Lemma IBAN_CANDIDATE_parts x y :
  Matches true (pattern IBAN_CANDIDATE_RE) x y ->
  exists a b gs,
    Span x y (a ++ b ++ concat gs)
    /\ Forall (fun c => asciiLetter c = true) a /\ length a = 2
    /\ digits b /\ length b = 2
    /\ Forall ibanGroup gs /\ 11 <= length gs <= 30.
Proof.
  intros H.
  cbn [pattern IBAN_CANDIDATE_RE seq fold_right Matches times range] in H.
  destruct H as (w & (_ & ->) & w0 & Ha & w1 & Hb & w2 & Hg & w3 & (_ & ->) & ->).
  apply RepM_Chr in Ha. destruct Ha as (a & Sa & _ & Fa & La & Ua).
  apply RepM_digits in Hb. destruct Hb as (b & Sb & _ & Db & Lb).
  apply (@RepM_groups_bounded _ ibanGroup) in Hg.
  - destruct Hg as (gs & Sg & Fg & Lg & Ug).
    unfold rep_floor in La, Lg. simpl in La, Lg.
    specialize (Ua 2 eq_refl). specialize (Ug 30 eq_refl).
    exists a, b, gs.
    split; [apply (Span_trans Sa (Span_trans Sb Sg))|].
    split; [eapply Forall_impl; [|exact Fa]; apply cmem_letter|].
    repeat split; try assumption; lia.
  - intros u v Huv. apply (@iban_group_shape u v). exact Huv.
Qed.

(** Normalizing one letter or digit. *)
Lemma normalize_unit c :
  (asciiLetter c || Char.is_digit c) = true ->
  Char.is_space c = false
  /\ Char.upper_units c = [Char.ascii_upper c]
  /\ ibanAlnum (Char.ascii_upper c) = true
  /\ (asciiLetter c = true -> Char.is_upper (Char.ascii_upper c) = true)
  /\ (Char.is_digit c = true -> Char.ascii_upper c = c).
Proof.
  intros H. split.
  { destruct (Char.is_space c) eqn:Hs; [exfalso | reflexivity].
    apply space_range in Hs. unfold asciiLetter in H. zbool. }
  unfold asciiLetter, ibanAlnum, Char.upper_units in *.
  repeat split; intros; zbool.
Qed.

Definition normalizeIban (s : jsstring) : jsstring :=
  toUpperCase (stripSpaces s).

Lemma normalize_app a b :
  normalizeIban (a ++ b) = normalizeIban a ++ normalizeIban b.
Proof.
  unfold normalizeIban, stripSpaces, toUpperCase.
  now rewrite filter_app, flat_map_app.
Qed.

Lemma normalize_units l :
  Forall (fun c => (asciiLetter c || Char.is_digit c) = true) l ->
  normalizeIban l = List.map Char.ascii_upper l.
Proof.
  induction 1 as [|c l Hc _ IH]; [reflexivity|].
  change (c :: l) with ([c] ++ l). rewrite normalize_app, IH.
  destruct (normalize_unit _ Hc) as (Hs & Hu & _).
  unfold normalizeIban, stripSpaces, toUpperCase. simpl.
  rewrite Hs. simpl. rewrite Hu. reflexivity.
Qed.

Lemma normalize_groups gs :
  Forall ibanGroup gs ->
  exists cs, normalizeIban (concat gs) = cs
             /\ length cs = length gs
             /\ Forall (fun c => ibanAlnum c = true) cs.
Proof.
  induction 1 as [|g gs Hg _ IH].
  - exists []. repeat split. constructor.
  - destruct IH as (cs & Hcs & Lcs & Fcs).
    destruct Hg as (bl & c & -> & Hbl & Hc).
    destruct (normalize_unit _ Hc) as (Hs & Hu & Ha & _).
    exists (Char.ascii_upper c :: cs). simpl concat.
    rewrite !normalize_app, Hcs.
    assert (Hb : normalizeIban bl = []) by (destruct Hbl as [->| ->]; reflexivity).
    assert (Hone : normalizeIban [c] = [Char.ascii_upper c]).
    { unfold normalizeIban, stripSpaces, toUpperCase. simpl.
      rewrite Hs. simpl. now rewrite Hu. }
    rewrite Hb, Hone. simpl. repeat split; [now rewrite Lcs|].
    constructor; assumption.
Qed.

Lemma ibanShape_parts a b cs :
  Forall (fun c => Char.is_upper c = true) a -> length a = 2 ->
  digits b -> length b = 2 ->
  Forall (fun c => ibanAlnum c = true) cs -> 11 <= length cs <= 30 ->
  ibanShape (a ++ b ++ cs) = true.
Proof.
  intros Fa La Db Lb Fc Lc.
  destruct a as [|a1 [|a2 [|]]]; simpl in La; try lia.
  destruct b as [|b1 [|b2 [|]]]; simpl in Lb; try lia.
  inversion Fa as [|? ? U1 Fa']; subst. inversion Fa' as [|? ? U2 _]; subst.
  inversion Db as [|? ? D1 Db']; subst. inversion Db' as [|? ? D2 _]; subst.
  unfold ibanShape. cbn [app firstn skipn forallb length].
  rewrite U1, U2, D1, D2. cbn [andb].
  assert (Hc : forallb ibanAlnum cs = true).
  { apply forallb_forall. rewrite Forall_forall in Fc. exact Fc. }
  rewrite Hc. cbn [andb]. apply andb_true_iff. split.
  - apply Nat.leb_le. lia.
  - apply Nat.leb_le. lia.
Qed.

Lemma candidate_trimmed a b gs :
  Forall (fun c => asciiLetter c = true) a -> length a = 2 ->
  Forall ibanGroup gs -> 11 <= length gs ->
  trimmedNonEmpty (a ++ b ++ concat gs).
Proof.
  intros Fa La Fg Lg.
  destruct a as [|a1 a']; simpl in La; [lia|].
  inversion Fa as [|? ? H1 _]; subst.
  assert (Hn1 : Char.is_space a1 = false).
  { apply normalize_unit. now rewrite H1. }
  assert (Hlast : concat gs <> []
                  /\ Char.is_space (last (concat gs) 0%Z) = false).
  { destruct gs as [|g gs] using rev_ind; [simpl in Lg; lia|].
    apply Forall_app in Fg. destruct Fg as [_ Fg].
    inversion Fg as [|? ? Hg _]; subst.
    destruct Hg as (bl & c & -> & _ & Hc).
    rewrite concat_app. simpl. rewrite app_nil_r, app_assoc. split.
    - intros He. apply app_eq_nil in He. destruct He as [_ He]. discriminate.
    - rewrite last_last. now apply normalize_unit. }
  destruct Hlast as [Hne Hl].
  split; [discriminate|]. split; [exact Hn1|].
  change ((a1 :: a') ++ b ++ concat gs)
    with (((a1 :: a') ++ b) ++ concat gs) || rewrite app_assoc.
  now rewrite last_app_nonempty.
Qed.

Lemma candidate_normalized text r :
  In r (execAll IBAN_CANDIDATE_RE text) ->
  ibanShape (normalizeIban (trim (m0 r))) = true.
Proof.
  intros Hin. apply execAll_Matches in Hin.
  destruct Hin as (pre & post & y & _ & _ & HM & HS & _).
  apply IBAN_CANDIDATE_parts in HM.
  destruct HM as (a & b & gs & HS' & Fa & La & Db & Lb & Fg & Lg).
  rewrite (Span_inj HS HS').
  rewrite (trim_id (@candidate_trimmed a b gs Fa La Fg (proj1 Lg))).
  rewrite !normalize_app.
  destruct (normalize_groups Fg) as (cs & -> & Lcs & Fcs).
  rewrite (@normalize_units a), (@normalize_units b).
  - apply ibanShape_parts.
    + apply Forall_map. eapply Forall_impl; [|exact Fa].
      intros c Hc. apply normalize_unit; [now rewrite Hc | exact Hc].
    + now rewrite length_map.
    + apply Forall_map. eapply Forall_impl; [|exact Db].
      intros c Hc. cbv beta.
      assert (Hd : (asciiLetter c || Char.is_digit c) = true)
        by (rewrite Hc; apply orb_true_r).
      destruct (normalize_unit _ Hd) as (_ & _ & _ & _ & He).
      now rewrite (He Hc).
    + now rewrite length_map.
    + exact Fcs.
    + rewrite Lcs. exact Lg.
  - eapply Forall_impl; [|exact Db]. intros c Hc. cbv beta.
    rewrite Hc. apply orb_true_r.
  - eapply Forall_impl; [|exact Fa]. intros c Hc. cbv beta. now rewrite Hc.
Qed.

End IbanCandidates.

(** X18: for every candidate of the IBAN scan the normalized text (white space
    removed, upper case) has the strict shape that [isValidIban] tests
    first, so that test never turns a candidate away: the candidate is
    stored, under its normalized text, exactly when the number it spells
    leaves the remainder 1 modulo 97, and is dropped otherwise. *)
Theorem iban_candidate_checksum_decides (text : jsstring) (r : MatchResult) :
  In r (execAll IBAN_CANDIDATE_RE text) ->
  let raw := trim (m0 r) in
  let normalized := toUpperCase (stripSpaces raw) in
  ibanShape normalized = true
  /\ test IBAN_SHAPE_RE normalized = true
  /\ ((ibanNumber normalized mod 97 = 1)%Z ->
      iban_body r JsMap.empty = [(normalized, raw)])
  /\ ((ibanNumber normalized mod 97 <> 1)%Z ->
      iban_body r JsMap.empty = []).
Proof.
  intros Hin raw normalized.
  pose proof (candidate_normalized _ _ Hin) as Hs.
  fold raw in Hs. unfold normalizeIban in Hs. fold normalized in Hs.
  split; [exact Hs|]. split; [now rewrite Shapes.IBAN_SHAPE_test|].
  assert (Hval : isValidIban normalized = true
                 <-> (ibanNumber normalized mod 97 = 1)%Z).
  { split; [apply isValidIban_ibanNumber|]. intros Hn.
    unfold isValidIban. rewrite Shapes.IBAN_SHAPE_test, Hs. cbn [negb].
    rewrite (ibanLoop_number (Forall_rotate 4 (ibanShape_alnum _ Hs))).
    apply Z.eqb_eq. exact Hn. }
  unfold iban_body. fold raw. fold normalized. split.
  - intros Hn. apply Hval in Hn. rewrite Hn. reflexivity.
  - intros Hn. destruct (isValidIban normalized) eqn:Hv; [|reflexivity].
    exfalso. apply Hn. now apply Hval.
Qed.

Lemma iban_candidate_checksum_decides_witness :
  iban_body
    {| index := 5; m0 := js "gb82 west 1234 5698 7654 32"; m1 := None |}
    JsMap.empty
  = [ (js "GB82WEST12345698765432", js "gb82 west 1234 5698 7654 32") ].
Proof.
  apply (@iban_candidate_checksum_decides
           (js "IBAN gb82 west 1234 5698 7654 32.")
           {| index := 5; m0 := js "gb82 west 1234 5698 7654 32";
              m1 := None |}).
  - vm_compute. left. reflexivity.
  - vm_compute. reflexivity.
Defined.

(* ===================================================================== *)
(** ** The scanning loops come to an end *)
(* ===================================================================== *)

(** X19: a pattern object with the [g] flag that matched the empty string would
    leave [lastIndex] where it is, and the loop
    [while ((m = re.exec(text)) !== null)] would never end.  None of the
    twelve patterns the module scans with can do so: every match takes at
    least one code unit, so each loop stops by [exec] answering [null]
    after at most [length text] matches, and running it for longer changes
    neither the list of results nor the final state of the loop. *)
Theorem scan_loops_terminate (re : RegExp) (text : jsstring) :
  In re ExecFacts.scanPatterns ->
  (forall x y, RegexFacts.Matches (ignoreCase re) (pattern re) x y ->
     length (rest y) < length (rest x))
  /\ length (execAll re text) <= length text
  /\ (forall fuel, length text < fuel ->
        execSeq re fuel (start text) = execAll re text)
  /\ (forall (St : Type) (body : MatchResult -> St -> St) (st : St) fuel,
        length text < fuel ->
        whileExec re body fuel (start text) st = scanLoop re text body st).
Proof.
  intros Hin.
  pose proof ExecFacts.scanPatterns_consume as H. rewrite Forall_forall in H.
  assert (Hmin : 1 <= RegexFacts.minLen (pattern re)).
  { apply Nat.leb_le. now apply H. }
  assert (Hfuel : forall fuel, length text < fuel ->
            execSeq re fuel (start text) = execAll re text).
  { intros fuel Hf. unfold execAll.
    apply ExecFacts.execSeq_fuel; simpl; lia. }
  assert (Hcons : forall x y,
            RegexFacts.Matches (ignoreCase re) (pattern re) x y ->
            length (rest y) < length (rest x)).
  { intros x y HM. apply RegexFacts.Matches_minLen in HM. lia. }
  split; [exact Hcons|]. split; [|split; [exact Hfuel|]].
  - unfold execAll.
    assert (Hlen : forall fuel c,
              length (execSeq re fuel c) <= length (after c)).
    { induction fuel as [|fuel IH]; intros c; simpl; [lia|].
      destruct (exec re c) as [[r c']|] eqn:He; simpl; [|lia].
      unfold exec in He. apply ExecFacts.execFrom_spec in He.
      destruct He as (skip & y & Hs & [Hm Hsp Hr Hc] & _).
      apply ExecFacts.matchAt_Matches in Hm. apply Hcons in Hm.
      simpl in Hm. specialize (IH c'). rewrite Hr in Hm.
      rewrite Hs, length_app. lia. }
    apply (Hlen _ (start text)).
  - intros St body st fuel Hf. unfold scanLoop.
    rewrite !whileExec_fold. rewrite (Hfuel fuel Hf).
    now rewrite (Hfuel (S (length text))) by lia.
Qed.

Lemma scan_loops_terminate_witness :
  length (execAll PHONE_RE (js "212-555-1212 or 646 555 1212"))
  <= length (js "212-555-1212 or 646 555 1212").
Proof.
  apply (@scan_loops_terminate PHONE_RE (js "212-555-1212 or 646 555 1212")).
  simpl. tauto.
Defined.

(* ===================================================================== *)
(** ** No delimited SSN is missed *)
(* ===================================================================== *)

Section ScanFinds.

Import RegexFacts ExecFacts Shapes.

(** [exec] answers with the leftmost match: the pattern fails at every
    position it has skipped. *)
Lemma execFrom_first re : forall s i p r c,
  execFrom re i p s = Some (r, c) ->
  exists pre y,
    s = pre ++ m0 r ++ after c
    /\ FoundAt re p pre (after c) r y
    /\ before c = prev y
    /\ (forall pre1 suf1, pre = pre1 ++ suf1 -> suf1 <> [] ->
          matchAt re (lastp pre1 p) (suf1 ++ m0 r ++ after c) = None).
Proof.
  induction s as [|a s IH]; intros i p r c H; simpl in H.
  - destruct (matchAt re p []) as [y|] eqn:Hm; [|discriminate].
    inversion H; subst; clear H.
    destruct (@execFrom_found re i _ _ _ Hm) as (H1 & H2 & _).
    exists [], y. split; [exact H1|]. split; [exact H2|].
    split; [reflexivity|]. intros pre1 suf1 He Hne.
    symmetry in He. apply app_eq_nil in He. tauto.
  - destruct (matchAt re p (a :: s)) as [y|] eqn:Hm.
    + inversion H; subst; clear H.
      destruct (@execFrom_found re i _ _ _ Hm) as (H1 & H2 & _).
      exists [], y. split; [exact H1|]. split; [exact H2|].
      split; [reflexivity|]. intros pre1 suf1 He Hne.
      symmetry in He. apply app_eq_nil in He. tauto.
    + apply IH in H. destruct H as (pre & y & Hs & [H1 H2 H3 H4] & Hb & Hl).
      exists (a :: pre), y. split; [simpl; now rewrite Hs|].
      split; [constructor; assumption|]. split; [assumption|].
      intros pre1 suf1 He Hne. destruct pre1 as [|b pre1]; simpl in He.
      * subst suf1. simpl. rewrite <- Hs. exact Hm.
      * inversion He; subst. simpl. now apply Hl.
Qed.

(** The scan reaches a place where the pattern matches, if no earlier
    match runs over it. *)
Lemma execSeq_finds re :
  1 <= minLen (pattern re) ->
  forall fuel c skip tgt y,
    after c = skip ++ tgt ->
    matchAt re (lastp skip (before c)) tgt = Some y ->
    (forall s1 s2 y', skip = s1 ++ s2 -> s2 <> [] ->
       matchAt re (lastp s1 (before c)) (s2 ++ tgt) = Some y' ->
       length (consumed (stateAt (lastp s1 (before c)) (s2 ++ tgt)) y')
       <= length s2) ->
    length (after c) < fuel ->
    exists r, In r (execSeq re fuel c)
              /\ m0 r = consumed (stateAt (lastp skip (before c)) tgt) y.
Proof.
  intros Hmin. induction fuel as [|fuel IH];
    intros c skip tgt y Hafter Hm Hover Hfuel; [lia|].
  simpl. unfold exec.
  destruct (execFrom re (lastIndex c) (before c) (after c)) as [[r c']|] eqn:He.
  2:{ rewrite (execFrom_None _ _ _ He _ _ Hafter) in Hm. discriminate. }
  apply execFrom_first in He.
  destruct He as (pre & y0 & Hs & [F1 F2 F3 F4] & Hb & Hleft).
  assert (Hcons : consumed (stateAt (lastp pre (before c)) (m0 r ++ after c')) y0
                  = m0 r) by (apply Span_consumed; exact F2).
  assert (Hhere : skip = pre -> m0 r ++ after c' = tgt ->
            exists r0, In r0 (r :: execSeq re fuel c')
                       /\ m0 r0 = consumed (stateAt (lastp skip (before c)) tgt) y).
  { intros -> Ht. exists r. split; [now left|].
    rewrite <- Ht in *. rewrite F1 in Hm. inversion Hm; subst.
    symmetry. exact Hcons. }
  rewrite Hafter in Hs. apply app_eq_app in Hs.
  destruct Hs as (l & [[Hsk Hrest]|[Hpre Htgt]]).
  - destruct l as [|a l].
    { rewrite app_nil_r in Hsk. simpl in Hrest. now apply Hhere. }
    assert (Hle : length (m0 r) <= length (a :: l)).
    { rewrite <- Hcons. rewrite Hrest.
      apply (Hover pre (a :: l) y0 Hsk); [discriminate|].
      rewrite <- Hrest. exact F1. }
    assert (Hsplit : exists skip', a :: l = m0 r ++ skip'
                                   /\ after c' = skip' ++ tgt).
    { apply app_eq_app in Hrest.
      destruct Hrest as (l2 & [[H1 H2]|[H1 H2]]).
      - assert (l2 = []).
        { destruct l2; [reflexivity|]. rewrite H1, length_app in Hle.
          simpl in Hle. lia. }
        subst l2. rewrite app_nil_r in H1. simpl in H2. exists [].
        split; [now rewrite app_nil_r | simpl; now symmetry].
      - exists l2. split; assumption. }
    destruct Hsplit as (skip' & Hl & Hafter').
    assert (Hlast : lastp skip' (before c') = lastp skip (before c)).
    { rewrite Hb. destruct F2 as [_ F2]. rewrite F2. simpl.
      rewrite Hsk, Hl. now rewrite !lastp_app. }
    assert (Hlen : 1 <= length (m0 r)).
    { apply matchAt_Matches in F1. apply Matches_minLen in F1.
      simpl in F1. rewrite F3, length_app in F1. lia. }
    destruct (IH c' skip' tgt y) as (r0 & Hin & Hr0).
    + exact Hafter'.
    + now rewrite Hlast.
    + intros s1 s2 y' Hsp Hne Hm'.
      assert (Hl1 : lastp s1 (before c')
                    = lastp (pre ++ m0 r ++ s1) (before c)).
      { rewrite Hb. destruct F2 as [_ F2]. rewrite F2. simpl.
        now rewrite !lastp_app. }
      rewrite Hl1 in *.
      apply (Hover (pre ++ m0 r ++ s1) s2 y'); [|assumption|assumption].
      rewrite Hsk, Hl, Hsp. now rewrite <- !app_assoc.
    + rewrite Hafter, Hsk, Hl in Hfuel.
      rewrite Hafter'. rewrite !length_app in *. lia.
    + exists r0. split; [now right|]. now rewrite <- Hlast.
  - destruct l as [|a l].
    { rewrite app_nil_r in Hpre. simpl in Htgt. symmetry in Hpre.
      symmetry in Htgt. now apply Hhere. }
    rewrite Htgt in Hm.
    rewrite (Hleft skip (a :: l) Hpre) in Hm; discriminate.
Qed.

End ScanFinds.

(** An SSN as it is written: three digits, a dash, two digits, a dash and
    four digits. *)
Definition ssnText (s : jsstring) : Prop :=
  exists a b c,
    s = a ++ [dash] ++ b ++ [dash] ++ c
    /\ digits a /\ length a = 3
    /\ digits b /\ length b = 2
    /\ digits c /\ length c = 4.

Section SsnComplete.

Import RegexFacts ExecFacts Shapes.

Lemma digit_is_word c : Char.is_digit c = true -> Char.is_word c = true.
Proof.
  intros H. unfold Char.is_word. rewrite H. now rewrite !orb_true_r.
Qed.

(** The eleven code units of an SSN. *)
Lemma ssnText_units s :
  ssnText s ->
  exists a1 a2 a3 b1 b2 c1 c2 c3 c4,
    s = [a1; a2; a3; 45; b1; b2; 45; c1; c2; c3; c4]%Z
    /\ Forall (fun d => Char.is_digit d = true)
              [a1; a2; a3; b1; b2; c1; c2; c3; c4].
Proof.
  intros (a & b & c & -> & Da & La & Db & Lb & Dc & Lc).
  destruct a as [|a1 [|a2 [|a3 [|]]]]; simpl in La; try lia.
  destruct b as [|b1 [|b2 [|]]]; simpl in Lb; try lia.
  destruct c as [|c1 [|c2 [|c3 [|c4 [|]]]]]; simpl in Lc; try lia.
  exists a1, a2, a3, b1, b2, c1, c2, c3, c4. split; [reflexivity|].
  change [a1; a2; a3; b1; b2; c1; c2; c3; c4]
    with ([a1; a2; a3] ++ [b1; b2] ++ [c1; c2; c3; c4]).
  apply Forall_app. split; [exact Da|].
  apply Forall_app. split; [exact Db | exact Dc].
Qed.

Lemma units_ssnText a1 a2 a3 b1 b2 c1 c2 c3 c4 :
  Forall (fun d => Char.is_digit d = true)
         [a1; a2; a3; b1; b2; c1; c2; c3; c4] ->
  ssnText [a1; a2; a3; 45; b1; b2; 45; c1; c2; c3; c4]%Z.
Proof.
  intros H. exists [a1; a2; a3], [b1; b2], [c1; c2; c3; c4].
  change [a1; a2; a3; b1; b2; c1; c2; c3; c4]
    with ([a1; a2; a3] ++ [b1; b2] ++ [c1; c2; c3; c4]) in H.
  apply Forall_app in H. destruct H as [Ha H].
  apply Forall_app in H. destruct H as [Hb Hc].
  repeat split; assumption.
Qed.

(** The pattern matches an SSN that is not glued to a word. *)
Lemma SSN_RE_intro p s post :
  ssnText s ->
  is_word_opt p = false -> is_word_opt (hd_error post) = false ->
  exists y, Matches false (pattern SSN_RE) (stateAt p (s ++ post)) y.
Proof.
  intros Hs Hp Hn. destruct (ssnText_units Hs)
    as (a1 & a2 & a3 & b1 & b2 & c1 & c2 & c3 & c4 & -> & Hd).
  assert (Hall : forall d, In d [a1; a2; a3; b1; b2; c1; c2; c3; c4] ->
                           Char.is_digit d = true)
    by (now apply Forall_forall).
  assert (Hrun : forall l, (forall d, In d l -> In d [a1; a2; a3; b1; b2; c1; c2; c3; c4]) ->
            Forall (fun a => cmem false (cls [Digit]) a = true) l).
  { intros l Hl. apply Forall_forall. intros d Hin.
    rewrite cmem_digit. apply Hall. now apply Hl. }
  exists {| prev := Some c4; rest := post; cap := None |}.
  cbn [pattern SSN_RE seq fold_right Matches times].
  eexists. split.
  { split; [|reflexivity]. unfold at_word_boundary, stateAt. simpl.
    rewrite Hp. rewrite (digit_is_word _ (Hall a1 ltac:(simpl; tauto))).
    reflexivity. }
  eexists. split.
  { apply (@RepM_Chr_intro false (cls [Digit]) [a1; a2; a3] 3 (Some 3) p
             ([45; b1; b2; 45; c1; c2; c3; c4]%Z ++ post) None).
    - apply Hrun. simpl. tauto.
    - simpl. lia.
    - intros h Hh. inversion Hh. simpl. lia. }
  eexists. split.
  { apply (@Matches_lits_intro false (js "-") (js "-") _
             ([b1; b2; 45; c1; c2; c3; c4]%Z ++ post) None).
    apply sameText_refl. }
  eexists. split.
  { apply (@RepM_Chr_intro false (cls [Digit]) [b1; b2] 2 (Some 2) _
             ([45; c1; c2; c3; c4]%Z ++ post) None).
    - apply Hrun. simpl. tauto.
    - simpl. lia.
    - intros h Hh. inversion Hh. simpl. lia. }
  eexists. split.
  { apply (@Matches_lits_intro false (js "-") (js "-") _
             ([c1; c2; c3; c4] ++ post) None).
    apply sameText_refl. }
  eexists. split.
  { apply (@RepM_Chr_intro false (cls [Digit]) [c1; c2; c3; c4] 4 (Some 4) _
             post None).
    - apply Hrun. simpl. tauto.
    - simpl. lia.
    - intros h Hh. inversion Hh. simpl. lia. }
  eexists. split; [|reflexivity].
  split; [|reflexivity]. unfold at_word_boundary. simpl.
  rewrite (digit_is_word _ (Hall c4 ltac:(simpl; tauto))). rewrite Hn.
  reflexivity.
Qed.

Lemma same_length_prefix (l1 l2 t1 t2 : jsstring) :
  length l1 = length l2 -> l1 ++ t1 = l2 ++ t2 -> l1 = l2.
Proof.
  revert l2. induction l1 as [|a l1 IH]; intros [|b l2] Hl He;
    simpl in *; try discriminate; [reflexivity|].
  inversion He; subst. f_equal. apply (IH l2); [lia | assumption].
Qed.

(** What a match of the pattern takes from the text. *)
Lemma SSN_consumed p s y :
  matchAt SSN_RE p s = Some y ->
  ssnText (consumed (stateAt p s) y)
  /\ s = consumed (stateAt p s) y ++ rest y.
Proof.
  intros Hm. pose proof (matchAt_consumed _ _ _ Hm) as Hsp.
  apply matchAt_Matches in Hm. apply SSN_RE_shape in Hm.
  destruct Hm as (a & b & c & HS & H).
  rewrite (Span_inj Hsp HS). split.
  - exists a, b, c. split; [reflexivity | exact H].
  - destruct HS as [HS _]. exact HS.
Qed.

Ltac ssn_clash :=
  repeat match goal with
         | H : _ :: _ = _ :: _ |- _ => injection H as H; subst
         | H : [] = _ :: _ |- _ => discriminate H
         | H : _ :: _ = [] |- _ => discriminate H
         end;
  try match goal with
      | H : Forall _ (_ :: _) |- _ =>
          repeat match goal with
                 | H' : Forall _ (_ :: _) |- _ =>
                     let H1 := fresh in let H2 := fresh in
                     inversion H' as [|? ? H1 H2]; subst; clear H'
                 end
      end;
  try match goal with
      | H : Char.is_digit 45 = true |- _ => vm_compute in H; discriminate H
      end;
  try match goal with
      | H1 : Char.is_word ?x = false, H2 : Char.is_digit ?x = true |- _ =>
          rewrite (digit_is_word _ H2) in H1; discriminate H1
      end.

(** A match that starts before a delimited SSN ends before it. *)
Lemma ssn_no_overlap p s2 s post y' :
  ssnText s -> s2 <> [] ->
  is_word_opt (lastp s2 p) = false ->
  matchAt SSN_RE p (s2 ++ s ++ post) = Some y' ->
  length (consumed (stateAt p (s2 ++ s ++ post)) y') <= length s2.
Proof.
  intros Hs Hne Hw Hm. apply SSN_consumed in Hm. destruct Hm as [Hc Heq].
  destruct (ssnText_units Hc)
    as (d1 & d2 & d3 & d4 & d5 & d6 & d7 & d8 & d9 & Hl & Hd).
  rewrite Hl in *. clear Hl Hc.
  destruct (ssnText_units Hs)
    as (e1 & e2 & e3 & e4 & e5 & e6 & e7 & e8 & e9 & -> & He).
  clear Hs. simpl length.
  destruct s2 as [|k1 s2]; [congruence|]. clear Hne.
  destruct s2 as [|k2 s2]; [simpl in *; ssn_clash|].
  destruct s2 as [|k3 s2]; [simpl in *; ssn_clash|].
  destruct s2 as [|k4 s2]; [simpl in *; ssn_clash|].
  destruct s2 as [|k5 s2]; [simpl in *; ssn_clash|].
  destruct s2 as [|k6 s2]; [simpl in *; ssn_clash|].
  destruct s2 as [|k7 s2]; [simpl in *; ssn_clash|].
  destruct s2 as [|k8 s2]; [simpl in *; ssn_clash|].
  destruct s2 as [|k9 s2]; [simpl in *; ssn_clash|].
  destruct s2 as [|k10 s2]; [simpl in *; ssn_clash|].
  destruct s2 as [|k11 s2]; [simpl in *; ssn_clash|].
  simpl. lia.
Qed.

End SsnComplete.

Section SsnFound.

Import RegexFacts ExecFacts Shapes.

Lemma ssnText_length s : ssnText s -> length s = 11.
Proof.
  intros (a & b & c & -> & _ & La & _ & Lb & _ & Lc).
  rewrite !length_app. simpl. lia.
Qed.

(** The scan of [SSN_RE] has a result whose text is the delimited SSN. *)
Lemma ssn_scanned pre s post :
  ssnText s ->
  is_word_opt (lastp pre None) = false ->
  is_word_opt (hd_error post) = false ->
  exists r, In r (execAll SSN_RE (pre ++ s ++ post)) /\ m0 r = s.
Proof.
  intros Hs Hp Hn.
  destruct (@SSN_RE_intro (lastp pre None) s post Hs Hp Hn) as (y0 & HM).
  apply (@Matches_matchAt SSN_RE) in HM. destruct HM as (y & Hm).
  destruct (@execSeq_finds SSN_RE ltac:(simpl; lia)
              (S (length (pre ++ s ++ post))) (start (pre ++ s ++ post))
              pre (s ++ post) y) as (r & Hin & Hr).
  - reflexivity.
  - exact Hm.
  - intros s1 s2 y' Hsp Hne Hm'. simpl in *.
    apply (@ssn_no_overlap (lastp s1 None) s2 s post y' Hs Hne); [|exact Hm'].
    rewrite <- lastp_app, <- Hsp. exact Hp.
  - simpl. lia.
  - exists r. split; [exact Hin|]. rewrite Hr. simpl.
    destruct (@SSN_consumed _ _ _ Hm) as [Hc Heq].
    symmetry. eapply same_length_prefix; [|exact Heq].
    now rewrite (ssnText_length Hs), (ssnText_length Hc).
Qed.

End SsnFound.

(** X20: an SSN written as three digits, a dash, two digits, a dash and four
    digits is always reported when it is delimited in the text, that is,
    when the code unit before it and the code unit after it, if there are
    any, are not letters, digits or underscores: whatever else the text
    holds, the result has a match of type [ssn] with exactly this
    value. *)
Theorem ssn_found_when_delimited (pre s post : jsstring) :
  ssnText s ->
  is_word_opt (RegexFacts.lastp pre None) = false ->
  is_word_opt (hd_error post) = false ->
  In {| type := ssn; value := s |} (findSensitiveMatches (pre ++ s ++ post)).
Proof.
  intros Hs Hp Hn. apply In_ssn_result. left.
  destruct (@ssn_scanned pre s post Hs Hp Hn) as (r & Hin & Hr).
  set (text := pre ++ s ++ post) in *.
  assert (Hplain : forall r', In r' (execAll SSN_RE text) ->
            trim (m0 r') = m0 r' /\ toLowerCase (m0 r') = m0 r').
  { intros r' Hr'. destruct (SSN_match_text _ _ Hr') as (_ & Hb & Hsp).
    split; [now apply trim_nonspace | now apply toLowerCase_below_A]. }
  assert (Hoff : In (s, s) (offered matchAllUnique_entry (execAll SSN_RE text))).
  { apply offered_In. exists r. split; [exact Hin|].
    unfold matchAllUnique_entry. destruct (Hplain r Hin) as [Ht Hl].
    rewrite Ht, Hl, Hr. destruct s; [|reflexivity].
    apply ssnText_length in Hs. discriminate Hs. }
  destruct (firstByKey_covers [] _ _ _ Hoff) as [[]|Hk].
  fold (kept matchAllUnique_entry SSN_RE text) in Hk.
  unfold JsMap.keys in Hk. apply in_map_iff in Hk.
  destruct Hk as ([k v] & Hkv & Hkept). simpl in Hkv. subst k.
  rewrite matchAllUnique_kept. unfold JsMap.values. apply in_map_iff.
  exists (s, v). split; [|exact Hkept]. simpl.
  apply kept_In in Hkept. destruct Hkept as (r' & Hr' & He).
  apply matchAllUnique_entry_value in He. destruct He as (Hv & Hkey & _).
  destruct (Hplain r' Hr') as [Ht Hl].
  rewrite Ht in Hv. rewrite Hv, Hl in Hkey. now rewrite Hv.
Qed.

Lemma ssn_found_when_delimited_witness :
  In {| type := ssn; value := js "123-45-6789" |}
     (findSensitiveMatches
        (js "id 9-123-45-6789-0, SSN: " ++ js "123-45-6789" ++ js ".")).
Proof.
  apply (@ssn_found_when_delimited (js "id 9-123-45-6789-0, SSN: ")
           (js "123-45-6789") (js ".")).
  - apply (@units_ssnText 49 50 51 52 53 54 55 56 57)%Z.
    repeat (apply Forall_cons; [reflexivity|]). apply Forall_nil.
  - reflexivity.
  - reflexivity.
Defined.
